(* ===================================================================== *)
(* anydep: the scope-stack container, the graph builder and the tasks    *)
(*                                                                       *)
(* A shallow embedding of src/anydep/container.py, src/anydep/tasks.py   *)
(* and src/anydep/concurrency.py, with the properties of the             *)
(* specification stated over it.                                         *)
(* ===================================================================== *)

From stdpp Require Import gmap strings list fin_maps.

(* --------------------------------------------------------------------- *)
(* 1. Data model                                                         *)
(* --------------------------------------------------------------------- *)

(* A provider (DependencyProvider) is an opaque hashable callable; a
   Dependant is a Python object, and `in seen`, `in task_cache` compare
   such objects: a description node is named by its identity.  Values
   produced by providers are opaque too. *)
Abbreviation Provider := nat (only parsing).
Abbreviation DepId := nat (only parsing).
Abbreviation TaskId := nat (only parsing).
Abbreviation ScopeId := string (only parsing).
Abbreviation Value := nat (only parsing).

(* models.Scope: `False` (never cached), `None` (the current scope) or a
   hashable name. *)
Inductive Scope :=
  | Unscoped
  | Inherit
  | Named (s : ScopeId).

#[export] Instance Scope_eq_dec : EqDecision Scope.
Proof. solve_decision. Defined.

(* models.Dependant, as container.py reads it: `call`, `scope` and the
   ordered dict `dependencies` from parameter name to sub-dependant. *)
Record Dependant := mkDependant {
  call : Provider;
  scope : Scope;
  dependencies : list (string * DepId)
}.

(* The exceptions of anydep.exceptions, the two builtin lookup errors the
   code can run into, and an error raised by a provider itself. *)
Inductive Exn :=
  | CircularDependencyError
  | UnknownScopeError
  | DuplicateScopeError
  | IndexError
  | KeyError
  | ProviderError (code : nat).

#[export] Instance Exn_eq_dec : EqDecision Exn.
Proof. solve_decision. Defined.

(* Outcome of a call: a value, a raised exception, or the recursion
   budget of the model ran out (never a behaviour of the program). *)
Inductive Result (A : Type) :=
  | Return (a : A)
  | Raise (e : Exn)
  | OutOfFuel.
Arguments Return {A} a.
Arguments Raise {A} e.
Arguments OutOfFuel {A}.

#[export] Instance Result_ret : MRet Result := fun A a => Return a.
#[export] Instance Result_bind : MBind Result := fun A B k r =>
  match r with
  | Return a => k a
  | Raise e => Raise e
  | OutOfFuel => OutOfFuel
  end.

(* A resource guard entered on an AsyncExitStack: the provider that made
   it and the index of the invocation that did. *)
Record Guard := mkGuard { g_provider : Provider; g_index : nat }.

#[export] Instance Guard_eq_dec : EqDecision Guard.
Proof. solve_decision. Defined.

(* class ContainerState *)
Record ContainerState := mkState {
  binds : gmap nat DepId;
  cached_values : gmap string (gmap nat Value);
  stacks : gmap string (list Guard);
  scopes : list ScopeId
}.

Definition empty_state : ContainerState :=
  {| binds := ∅; cached_values := ∅; stacks := ∅; scopes := [] |}.

(* --------------------------------------------------------------------- *)
(* 2. Container: bind, _resolve_scope, _check_scope                      *)
(* --------------------------------------------------------------------- *)

(* Container.bind.  `source` is the node `Dependant(source)` that the
   method stores: models.Dependant is not among the sources, so the node
   it constructs is passed in.  The loop pops `target` from every bucket
   that holds it. *)
Definition bind (target : Provider) (source : DepId) (st : ContainerState)
  : ContainerState :=
  {| binds := <[target := source]> (binds st);
     cached_values := delete target <$> cached_values st;
     stacks := stacks st;
     scopes := scopes st |}.

(* cached_values[scope][provider], when both are there *)
Definition cached (st : ContainerState) (s : ScopeId) (p : Provider) : option Value :=
  cached_values st !! s ≫= (fun bucket => bucket !! p).

(* Container._resolve_scope *)
Definition resolve_scope (st : ContainerState) (dependant_scope : Scope)
  : Result Scope :=
  match dependant_scope with
  | Unscoped => Return Unscoped
  | Inherit =>
      if decide (length (scopes st) = 0) then Raise UnknownScopeError
      else match last (scopes st) with
           | Some s => Return (Named s)
           | None => Raise IndexError
           end
  | Named s => Return (Named s)
  end.

(* Container._check_scope *)
Definition check_scope (st : ContainerState) (sc : Scope) : Result unit :=
  match sc with
  | Unscoped => Return tt
  | Inherit => Raise UnknownScopeError
  | Named s =>
      if decide (s ∈ dom (stacks st)) then Return tt
      else Raise UnknownScopeError
  end.

(* --------------------------------------------------------------------- *)
(* 3. Python dictionaries that are iterated: ordered association lists    *)
(* --------------------------------------------------------------------- *)

(* A dict keeps insertion order, and assigning to a key that is present
   keeps the key's place. *)
Section Dict.
Context {K V : Type} `{EqDecision K}.

Fixpoint dict_get (m : list (K * V)) (k : K) : option V :=
  match m with
  | [] => None
  | (k', v) :: m' => if decide (k' = k) then Some v else dict_get m' k
  end.

Fixpoint dict_set (m : list (K * V)) (k : K) (v : V) : list (K * V) :=
  match m with
  | [] => [(k, v)]
  | (k', v') :: m' =>
      if decide (k' = k) then (k, v) :: m' else (k', v') :: dict_set m' k v
  end.

Definition dict_values (m : list (K * V)) : list V := m.*2.
Definition dict_keys (m : list (K * V)) : list K := m.*1.
End Dict.

(* --------------------------------------------------------------------- *)
(* 4. Tasks and the call adapter                                         *)
(* --------------------------------------------------------------------- *)

(* What wrap_call returns.  An AsyncExitStack is owned by exactly one
   entry of `stacks`, so the stack a call is bound to is named by the
   scope that owns it. *)
Inductive Call :=
  | BoundAsyncCM (p : Provider) (stack : ScopeId)
  | BoundSyncCM (p : Provider) (stack : ScopeId)
  | BoundAsyncGen (p : Provider) (stack : ScopeId)
  | BoundSyncGen (p : Provider) (stack : ScopeId)
  | InThreadPool (p : Provider)
  | Direct (p : Provider)
  | Retrieve (v : Value).

(* class Task; `_result` is None while it is `_UNSET`. *)
Record Task := mkTask {
  t_dependant : DepId;
  t_scope : Scope;
  t_call : Call;
  t_dependencies : list (string * TaskId);
  t_result : option Value
}.

Definition set_result (t : Task) (v : Value) : Task :=
  {| t_dependant := t_dependant t; t_scope := t_scope t; t_call := t_call t;
     t_dependencies := t_dependencies t; t_result := Some v |}.

(* The three dictionaries of one `execute` round, and the Task objects
   allocated so far (a TaskId is an index into `heap`). *)
Record Locals := mkLocals {
  seen : gset nat;
  call_cache : gmap nat DepId;
  task_cache : list (DepId * TaskId);
  heap : list Task
}.

Definition empty_locals : Locals :=
  {| seen := ∅; call_cache := ∅; task_cache := []; heap := [] |}.

Definition add_seen (d : DepId) (L : Locals) : Locals :=
  {| seen := {[d]} ∪ seen L; call_cache := call_cache L;
     task_cache := task_cache L; heap := heap L |}.

Definition set_call_cache (p : Provider) (d : DepId) (L : Locals) : Locals :=
  {| seen := seen L; call_cache := <[p := d]> (call_cache L);
     task_cache := task_cache L; heap := heap L |}.

Definition set_task_cache (d : DepId) (t : TaskId) (L : Locals) : Locals :=
  {| seen := seen L; call_cache := call_cache L;
     task_cache := dict_set (task_cache L) d t; heap := heap L |}.

(* Task(...): allocate the object, return its identity. *)
Definition new_task (t : Task) (L : Locals) : TaskId * Locals :=
  (length (heap L),
   {| seen := seen L; call_cache := call_cache L;
      task_cache := task_cache L; heap := heap L ++ [t] |}).

(* What happened, in order: a provider was invoked; a guard was entered
   on the stack of a scope; that stack ran the guard's exit; the exit of a
   guard that never entered was run by context_manager_in_threadpool. *)
Inductive Event :=
  | EvCall (p : Provider)
  | EvEnter (s : ScopeId) (g : Guard)
  | EvExit (s : ScopeId) (g : Guard)
  | EvExitUnentered (g : Guard).

#[export] Instance Event_eq_dec : EqDecision Event.
Proof. solve_decision. Defined.

Definition calls_of (p : Provider) (log : list Event) : nat :=
  length (filter (fun e => e = EvCall p) log).

(* The guards entered on the stack of scope `s`, and the guards whose exit
   that stack ran, in the order of the trace. *)
Definition entered (s : ScopeId) (log : list Event) : list Guard :=
  omap (fun e => match e with
                 | EvEnter s' g => if decide (s' = s) then Some g else None
                 | _ => None
                 end) log.

Definition exited (s : ScopeId) (log : list Event) : list Guard :=
  omap (fun e => match e with
                 | EvExit s' g => if decide (s' = s) then Some g else None
                 | _ => None
                 end) log.

(* What a guard's `__aexit__` does: return a false value, return a true
   value (swallow the exception), or raise. *)
Inductive ExitOutcome :=
  | ExitFalse
  | ExitTrue
  | ExitRaise (e : Exn).

(* The container state together with the trace of what has run. *)
Record World := mkWorld {
  w_state : ContainerState;
  w_log : list Event
}.

Definition log_event (e : Event) (w : World) : World :=
  {| w_state := w_state w; w_log := w_log w ++ [e] |}.

(* stack.enter_async_context pushes the guard's exit on the stack. *)
Definition push_guard (s : ScopeId) (g : Guard) (w : World) : World :=
  {| w_state :=
       {| binds := binds (w_state w);
          cached_values := cached_values (w_state w);
          stacks := alter (fun l => l ++ [g]) s (stacks (w_state w));
          scopes := scopes (w_state w) |};
     w_log := w_log w ++ [EvEnter s g] |}.

(* self.state.cached_values[scope][provider] = value *)
Definition cache_store (s : ScopeId) (p : Provider) (v : Value) (w : World)
  : Result unit * World :=
  match cached_values (w_state w) !! s with
  | None => (Raise KeyError, w)
  | Some bucket =>
      (Return tt,
       {| w_state :=
            {| binds := binds (w_state w);
               cached_values := <[s := <[p := v]> bucket]> (cached_values (w_state w));
               stacks := stacks (w_state w);
               scopes := scopes (w_state w) |};
          w_log := w_log w |})
  end.

(* The container's interface as the code inside a scope uses it: execute
   a description, register a binding, fail, or enter a nested scope
   (`async with container.enter_global_scope(s): body`). *)
#[warnings="-register-all"]
Inductive Op :=
  | OpExecute (dependant : DepId)
  | OpBind (target : Provider) (source : DepId)
  | OpRaise (e : Exn)
  | OpScope (s : ScopeId) (body : list Op).

(* A block of code: one statement after the other, up to the first that
   raises. *)
Fixpoint run_seq (run : Op -> World -> Result unit * World) (ops : list Op)
    (w : World) {struct ops} : Result unit * World :=
  match ops with
  | [] => (Return tt, w)
  | op :: ops' =>
      match run op w with
      | (Return _, w') => run_seq run ops' w'
      | (Raise e, w') => (Raise e, w')
      | (OutOfFuel, w') => (OutOfFuel, w')
      end
  end.

Section Anydep.

(* The dependency descriptions: the Dependant object of every node. *)
Variable G : DepId -> Dependant.

(* anydep.inspect is not among the sources: its five predicates are
   taken as they come. *)
Variable is_async_context_manager : Provider -> bool.
Variable is_context_manager : Provider -> bool.
Variable is_async_gen_callable : Provider -> bool.
Variable is_gen_callable : Provider -> bool.
Variable is_coroutine_callable : Provider -> bool.

(* What a provider does when it is called with keyword arguments, as a
   function of how often it has been called before: it returns (for a
   guard: `__aenter__` returns) or it raises. *)
Variable provider_call : Provider -> list (string * Value) -> nat -> Value + Exn.

(* What the exit of a guard does, given the exception passed to it. *)
Variable guard_exit : Guard -> option Exn -> ExitOutcome.

(* concurrency.wrap_call *)
Definition wrap_call (p : Provider) (stack : ScopeId) : Call :=
  if is_async_context_manager p then BoundAsyncCM p stack
  else if is_context_manager p then BoundSyncCM p stack
  else if is_async_gen_callable p then BoundAsyncGen p stack
  else if is_gen_callable p then BoundSyncGen p stack
  else if negb (is_coroutine_callable p) then InThreadPool p
  else Direct p.

(* ------------------------------------------------------------------- *)
(* 5. Container._build_task                                            *)
(* ------------------------------------------------------------------- *)

(* for cache_scope in reversed(self.state.scopes): ... *)
Fixpoint find_cached (st : ContainerState) (p : Provider)
    (rscopes : list ScopeId) : Result (option Value) :=
  match rscopes with
  | [] => Return None
  | s :: rest =>
      match cached_values st !! s with
      | None => Raise KeyError
      | Some bucket =>
          match bucket !! p with
          | Some v => Return (Some v)
          | None => find_cached st p rest
          end
      end
  end.

(* self.state.stacks[scope if scope is not False else self.state.scopes[-1]] *)
Definition stack_for (st : ContainerState) (sc : Scope) : Result ScopeId :=
  key ← match sc with
        | Unscoped =>
            match last (scopes st) with
            | Some s => Return s
            | None => Raise IndexError
            end
        | Named s => Return s
        | Inherit => Raise KeyError
        end;
  if decide (key ∈ dom (stacks st)) then Return key else Raise KeyError.

(* if dependant.call in self.state.binds: dependant = self.state.binds[...] *)
Definition apply_binds (st : ContainerState) (dependant : DepId) : DepId :=
  match binds st !! call (G dependant) with
  | Some bound => bound
  | None => dependant
  end.

(* if scope is not False: reuse or record the canonical description *)
Definition apply_call_cache (sc : Scope) (dependant : DepId) (L : Locals)
  : DepId * Locals :=
  if decide (sc = Unscoped) then (dependant, L)
  else match call_cache L !! call (G dependant) with
       | Some canonical => (canonical, L)
       | None => (dependant, set_call_cache (call (G dependant)) dependant L)
       end.

Section BuildBody.
Variable st : ContainerState.
(* the recursive call *)
Variable rec : DepId -> Locals -> Result (bool * TaskId * Locals).

(* for param_name, sub_dependant in dependant.dependencies.items(): ... *)
Fixpoint build_subtasks (deps : list (string * DepId)) (allow_cache : bool)
    (subtasks : list (string * TaskId)) (L : Locals)
  : Result (bool * list (string * TaskId) * Locals) :=
  match deps with
  | [] => Return (allow_cache, subtasks, L)
  | (param_name, sub_dependant) :: deps' =>
      '(allow_cache', subtask, L1) ← rec sub_dependant L;
      let L2 := set_task_cache sub_dependant subtask L1 in
      build_subtasks deps' allow_cache' (dict_set subtasks param_name subtask) L2
  end.

Definition build_task_body (dependant : DepId) (L : Locals)
  : Result (bool * TaskId * Locals) :=
  if decide (dependant ∈ seen L) then Raise CircularDependencyError
  else
    let L := add_seen dependant L in
    task_scope ← resolve_scope st (scope (G dependant));
    let dependant := apply_binds st dependant in
    let '(dependant, L) := apply_call_cache task_scope dependant L in
    match dict_get (task_cache L) dependant with
    | Some t => Return (true, t, L)
    | None =>
        sc ← resolve_scope st (scope (G dependant));
        _ ← check_scope st sc;
        stack ← stack_for st sc;
        let c := wrap_call (call (G dependant)) stack in
        '(allow_cache, subtasks, L) ←
          build_subtasks (dependencies (G dependant)) true [] L;
        cached ← (if allow_cache && bool_decide (sc ≠ Unscoped)
                  then find_cached st (call (G dependant)) (reverse (scopes st))
                  else Return None);
        match cached with
        | Some value =>
            (* _task_from_cached_value *)
            let '(t, L) := new_task (mkTask dependant Unscoped (Retrieve value) [] None) L in
            Return (true, t, set_task_cache dependant t L)
        | None =>
            let '(t, L) := new_task (mkTask dependant task_scope c subtasks None) L in
            Return (false, t, set_task_cache dependant t L)
        end
    end.
End BuildBody.

Fixpoint build_task (fuel : nat) (st : ContainerState) (dependant : DepId)
    (L : Locals) : Result (bool * TaskId * Locals) :=
  match fuel with
  | 0 => OutOfFuel
  | S fuel' => build_task_body st (build_task fuel' st) dependant L
  end.

(* ------------------------------------------------------------------- *)
(* 6. Task.result and the adapted calls                                *)
(* ------------------------------------------------------------------- *)

(* Calling what wrap_call returned.  A guard that enters is pushed on
   the stack the call is bound to.  context_manager_in_threadpool runs
   `cm.__exit__` when `cm.__enter__` raised (its `yield await` stands
   inside the `try`); for a generator that exit has nothing left to
   run, for a context manager object it is the object's own exit. *)
Definition invoke (c : Call) (values : list (string * Value)) (w : World)
  : Result Value * World :=
  match c with
  | Retrieve v => (Return v, w)
  | Direct p | InThreadPool p =>
      let n := calls_of p (w_log w) in
      let w := log_event (EvCall p) w in
      match provider_call p values n with
      | inl v => (Return v, w)
      | inr e => (Raise e, w)
      end
  | BoundAsyncCM p stack | BoundAsyncGen p stack | BoundSyncGen p stack =>
      let n := calls_of p (w_log w) in
      let w := log_event (EvCall p) w in
      match provider_call p values n with
      | inl v => (Return v, push_guard stack (mkGuard p n) w)
      | inr e => (Raise e, w)
      end
  | BoundSyncCM p stack =>
      let n := calls_of p (w_log w) in
      let w := log_event (EvCall p) w in
      match provider_call p values n with
      | inl v => (Return v, push_guard stack (mkGuard p n) w)
      | inr e => (Raise e, log_event (EvExitUnentered (mkGuard p n)) w)
      end
  end.

Definition store_result (tid : TaskId) (v : Value) (h : list Task) : list Task :=
  match h !! tid with
  | Some t => <[tid := set_result t v]> h
  | None => h
  end.

Section ResultBody.
(* the recursive call: subtask.result() *)
Variable rec : TaskId -> list Task -> World -> Result Value * (list Task * World).

(* The task group: the sub-tasks are started in the order of the
   dict and run one after the other; the first failure ends it. *)
Fixpoint run_group (subtasks : list TaskId) (h : list Task) (w : World)
  : Result unit * (list Task * World) :=
  match subtasks with
  | [] => (Return tt, (h, w))
  | t :: rest =>
      match rec t h w with
      | (Return _, (h1, w1)) => run_group rest h1 w1
      | (Raise e, hw) => (Raise e, hw)
      | (OutOfFuel, hw) => (OutOfFuel, hw)
      end
  end.

(* for k in values.keys(): values[k] = await self.dependencies[k].result() *)
Fixpoint collect_values (deps : list (string * TaskId)) (h : list Task) (w : World)
  : Result (list (string * Value)) * (list Task * World) :=
  match deps with
  | [] => (Return [], (h, w))
  | (k, t) :: rest =>
      match rec t h w with
      | (Return v, (h1, w1)) =>
          match collect_values rest h1 w1 with
          | (Return vs, hw) => (Return ((k, v) :: vs), hw)
          | (Raise e, hw) => (Raise e, hw)
          | (OutOfFuel, hw) => (OutOfFuel, hw)
          end
      | (Raise e, hw) => (Raise e, hw)
      | (OutOfFuel, hw) => (OutOfFuel, hw)
      end
  end.

Definition task_result_body (tid : TaskId) (h : list Task) (w : World)
  : Result Value * (list Task * World) :=
  match h !! tid with
  | None => (Raise KeyError, (h, w))
  | Some t =>
      match t_result t with
      | Some v => (Return v, (h, w))
      | None =>
          match run_group (dict_values (t_dependencies t)) h w with
          | (Return _, (h1, w1)) =>
              match collect_values (t_dependencies t) h1 w1 with
              | (Return values, (h2, w2)) =>
                  match invoke (t_call t) values w2 with
                  | (Return v, w3) => (Return v, (store_result tid v h2, w3))
                  | (Raise e, w3) => (Raise e, (h2, w3))
                  | (OutOfFuel, w3) => (OutOfFuel, (h2, w3))
                  end
              | (Raise e, hw) => (Raise e, hw)
              | (OutOfFuel, hw) => (OutOfFuel, hw)
              end
          | (Raise e, hw) => (Raise e, hw)
          | (OutOfFuel, hw) => (OutOfFuel, hw)
          end
      end
  end.
End ResultBody.

Fixpoint task_result (fuel : nat) (tid : TaskId) (h : list Task) (w : World)
  : Result Value * (list Task * World) :=
  match fuel with
  | 0 => (OutOfFuel, (h, w))
  | S fuel' => task_result_body (task_result fuel') tid h w
  end.

(* ------------------------------------------------------------------- *)
(* 7. Container.execute                                                *)
(* ------------------------------------------------------------------- *)

(* scope = self._resolve_scope(task.scope); if scope is not False:
     self.state.cached_values[scope][task.dependant.call] = value *)
Definition commit (t : Task) (v : Value) (w : World) : Result unit * World :=
  match resolve_scope (w_state w) (t_scope t) with
  | Return (Named s) => cache_store s (call (G (t_dependant t))) v w
  | Return _ => (Return tt, w)
  | Raise e => (Raise e, w)
  | OutOfFuel => (OutOfFuel, w)
  end.

(* for subtask in task_cache.values(): ... *)
Fixpoint commit_all (fuel : nat) (tasks : list TaskId) (h : list Task) (w : World)
  : Result unit * (list Task * World) :=
  match tasks with
  | [] => (Return tt, (h, w))
  | tid :: rest =>
      match h !! tid with
      | None => (Raise KeyError, (h, w))
      | Some t =>
          match resolve_scope (w_state w) (t_scope t) with
          | Return (Named s) =>
              match task_result fuel tid h w with
              | (Return v, (h1, w1)) =>
                  match cache_store s (call (G (t_dependant t))) v w1 with
                  | (Return _, w2) => commit_all fuel rest h1 w2
                  | (Raise e, w2) => (Raise e, (h1, w2))
                  | (OutOfFuel, w2) => (OutOfFuel, (h1, w2))
                  end
              | (Raise e, hw) => (Raise e, hw)
              | (OutOfFuel, hw) => (OutOfFuel, hw)
              end
          | Return _ => commit_all fuel rest h w
          | Raise e => (Raise e, (h, w))
          | OutOfFuel => (OutOfFuel, (h, w))
          end
      end
  end.

Definition execute (fuel : nat) (dependant : DepId) (w : World)
  : Result Value * World :=
  match build_task fuel (w_state w) dependant empty_locals with
  | Return (_, task, L) =>
      match task_result fuel task (heap L) w with
      | (Return result, (h1, w1)) =>
          match h1 !! task with
          | None => (Raise KeyError, w1)
          | Some t =>
              match commit t result w1 with
              | (Return _, w2) =>
                  match commit_all fuel (dict_values (task_cache L)) h1 w2 with
                  | (Return _, (_, w3)) => (Return result, w3)
                  | (Raise e, (_, w3)) => (Raise e, w3)
                  | (OutOfFuel, (_, w3)) => (OutOfFuel, w3)
                  end
              | (Raise e, w2) => (Raise e, w2)
              | (OutOfFuel, w2) => (OutOfFuel, w2)
              end
          end
      | (Raise e, (_, w1)) => (Raise e, w1)
      | (OutOfFuel, (_, w1)) => (OutOfFuel, w1)
      end
  | Raise e => (Raise e, w)
  | OutOfFuel => (OutOfFuel, w)
  end.

(* ------------------------------------------------------------------- *)
(* 8. ContainerState.enter_scope                                       *)
(* ------------------------------------------------------------------- *)

(* AsyncExitStack.__aexit__ (contextlib): the callbacks are popped from
   the end; one that returns a true value clears the exception, one that
   raises replaces it, and the others still run. *)
Record ExitState := mkExitState {
  exc_details : option Exn;
  suppressed_exc : bool;
  pending_raise : bool
}.

Definition exit_callback (s : ScopeId) (es : ExitState * World) (g : Guard)
  : ExitState * World :=
  let w := log_event (EvExit s g) es.2 in
  match guard_exit g (exc_details es.1) with
  | ExitFalse => (es.1, w)
  | ExitTrue =>
      ({| exc_details := None; suppressed_exc := true; pending_raise := false |}, w)
  | ExitRaise e =>
      ({| exc_details := Some e; suppressed_exc := suppressed_exc es.1;
          pending_raise := true |}, w)
  end.

Definition aexit (s : ScopeId) (stack : list Guard) (exc : option Exn) (w : World)
  : Result unit * World :=
  let '(es, w') :=
    foldl (exit_callback s)
      ({| exc_details := exc; suppressed_exc := false; pending_raise := false |}, w)
      (reverse stack) in
  if pending_raise es then
    match exc_details es with
    | Some e => (Raise e, w')
    | None => (Return tt, w')
    end
  else
    match exc with
    | Some e => if suppressed_exc es then (Return tt, w') else (Raise e, w')
    | None => (Return tt, w')
    end.

(* `async with state.enter_scope(scope): body`.  The `finally` block
   restores the state, then the exit stack of the scope unwinds.  The
   three pops of the `finally` block find what they remove (see
   run_ops_scoped_run below), so they are written as removals. *)
Definition enter_scope (body : World -> Result unit * World) (s : ScopeId)
    (w : World) : Result unit * World :=
  let st := w_state w in
  if decide (s ∈ dom (stacks st)) then (Raise DuplicateScopeError, w)
  else
    let bound_providers := binds st in
    let w1 :=
      {| w_state :=
           {| binds := bound_providers;
              cached_values := <[s := ∅]> (cached_values st);
              stacks := <[s := []]> (stacks st);
              scopes := scopes st ++ [s] |};
         w_log := w_log w |} in
    let '(r, w2) := body w1 in
    let stack := default [] (stacks (w_state w2) !! s) in
    let w3 :=
      {| w_state :=
           {| binds := bound_providers;
              cached_values := delete s (cached_values (w_state w2));
              stacks := delete s (stacks (w_state w2));
              scopes := removelast (scopes (w_state w2)) |};
         w_log := w_log w2 |} in
    match r with
    | Return _ => aexit s stack None w3
    | Raise e => aexit s stack (Some e) w3
    | OutOfFuel => (OutOfFuel, w3)
    end.

(* ------------------------------------------------------------------- *)
(* 9. Programs: what the code inside a scope does with the container   *)
(* ------------------------------------------------------------------- *)

Fixpoint run_op (fuel : nat) (op : Op) (w : World) {struct op}
  : Result unit * World :=
  match op with
  | OpExecute d =>
      match execute fuel d w with
      | (Return _, w') => (Return tt, w')
      | (Raise e, w') => (Raise e, w')
      | (OutOfFuel, w') => (OutOfFuel, w')
      end
  | OpBind target source =>
      (Return tt, {| w_state := bind target source (w_state w); w_log := w_log w |})
  | OpRaise e => (Raise e, w)
  | OpScope s body => enter_scope (run_seq (run_op fuel) body) s w
  end.

Definition run_ops (fuel : nat) (ops : list Op) (w : World) : Result unit * World :=
  run_seq (run_op fuel) ops w.

End Anydep.

(* --------------------------------------------------------------------- *)
(* 10. Task.result under concurrent callers                              *)
(* --------------------------------------------------------------------- *)

Module SingleFlight.

(* Where a caller of `result()` of one Task stands.  The awaits of the
   method are the places where another caller can run. *)
Inductive Pc :=
  | Idle                      (* has not called result() yet *)
  | Waiting                   (* at `async with self._lock` *)
  | Locked                    (* holds the lock, before `if self._result is _UNSET` *)
  | Computing                 (* holds the lock, awaiting the sub-tasks *)
  | InCall (k : nat)          (* awaiting `self.call`, its k-th invocation *)
  | Done (r : Value + Exn).   (* result() returned or raised; the lock is released *)

(* The Task (`_result`, `_lock`), its callers, and counters of what the
   adapted call has done so far. *)
Record State := mkState {
  result : option Value;
  lock : option nat;
  pc : nat -> Pc;
  invoked : nat;
  returned : nat;
  raised : nat
}.

Definition init : State :=
  {| result := None; lock := None; pc := fun _ => Idle;
     invoked := 0; returned := 0; raised := 0 |}.

Definition set_pc (i : nat) (p : Pc) (f : nat -> Pc) : nat -> Pc :=
  fun j => if decide (i = j) then p else f j.

(* One move of one caller. *)
Inductive Action :=
  | Arrive (i : nat)
  | Acquire (i : nat)
  | Test (i : nat)
  | SubtasksDone (i : nat)
  | SubtaskFails (i : nat) (e : Exn)
  | Finish (i : nat).

Section Steps.
(* What the k-th invocation of the adapted call does. *)
Variable outcome : nat -> Value + Exn.

Definition step (a : Action) (σ : State) : option State :=
  match a with
  | Arrive i =>
      match pc σ i with
      | Idle => Some {| result := result σ; lock := lock σ; pc := set_pc i (Waiting) (pc σ);
                        invoked := invoked σ; returned := returned σ; raised := raised σ |}
      | _ => None
      end
  | Acquire i =>
      match pc σ i, lock σ with
      | Waiting, None =>
          Some {| result := result σ; lock := Some i; pc := set_pc i (Locked) (pc σ);
                  invoked := invoked σ; returned := returned σ; raised := raised σ |}
      | _, _ => None
      end
  | Test i =>
      match pc σ i with
      | Locked =>
          match result σ with
          | Some v =>
              Some {| result := result σ; lock := None; pc := set_pc i (Done (inl v)) (pc σ);
                      invoked := invoked σ; returned := returned σ; raised := raised σ |}
          | None =>
              Some {| result := result σ; lock := lock σ; pc := set_pc i (Computing) (pc σ);
                      invoked := invoked σ; returned := returned σ; raised := raised σ |}
          end
      | _ => None
      end
  | SubtasksDone i =>
      match pc σ i with
      | Computing =>
          Some {| result := result σ; lock := lock σ;
                  pc := set_pc i (InCall (invoked σ)) (pc σ);
                  invoked := S (invoked σ); returned := returned σ; raised := raised σ |}
      | _ => None
      end
  | SubtaskFails i e =>
      match pc σ i with
      | Computing =>
          Some {| result := result σ; lock := None; pc := set_pc i (Done (inr e)) (pc σ);
                  invoked := invoked σ; returned := returned σ; raised := raised σ |}
      | _ => None
      end
  | Finish i =>
      match pc σ i with
      | InCall k =>
          match outcome k with
          | inl v =>
              Some {| result := Some v; lock := None; pc := set_pc i (Done (inl v)) (pc σ);
                      invoked := invoked σ; returned := S (returned σ); raised := raised σ |}
          | inr e =>
              Some {| result := result σ; lock := None; pc := set_pc i (Done (inr e)) (pc σ);
                      invoked := invoked σ; returned := returned σ; raised := S (raised σ) |}
          end
      | _ => None
      end
  end.

(* A schedule: the moves in the order the event loop makes them. *)
Fixpoint run (sched : list Action) (σ : State) : option State :=
  match sched with
  | [] => Some σ
  | a :: sched' =>
      match step a σ with
      | Some σ' => run sched' σ'
      | None => None
      end
  end.

Definition holds_lock (p : Pc) : Prop :=
  match p with
  | Locked | Computing | InCall _ => True
  | _ => False
  end.

Definition in_call (p : Pc) : bool :=
  match p with InCall _ => true | _ => false end.

(* The invocations that have started and not finished: the caller that
   holds the lock, if it is inside the call. *)
Definition in_flight (σ : State) : nat :=
  match lock σ with
  | Some i => if in_call (pc σ i) then 1 else 0
  | None => 0
  end.

(* What every reachable state satisfies. *)
Record Inv (σ : State) : Prop := mkInv {
  inv_holder : forall i, holds_lock (pc σ i) -> lock σ = Some i;
  inv_unset : forall i, pc σ i = Computing \/ in_call (pc σ i) = true -> result σ = None;
  inv_value : forall i v, pc σ i = Done (inl v) -> result σ = Some v;
  inv_returned : returned σ = match result σ with Some _ => 1 | None => 0 end;
  inv_count : invoked σ = returned σ + raised σ + in_flight σ;
  inv_raised : raised σ = 0 \/ exists k e, outcome k = inr e
}.

End Steps.
End SingleFlight.

(* --------------------------------------------------------------------- *)
(* 9b. Container.get_flat_subdependants                                  *)
(* --------------------------------------------------------------------- *)

Section Flat.
Variable G : DepId -> Dependant.

(* while to_visit: dep = to_visit.popleft(); seen.add(dep);
     for sub in dep.dependencies.values():
       if sub not in seen: to_visit.append(sub)
   The deque is a list, read at the front and extended at the back; the
   test `sub not in seen` sees `dep` in `seen`. *)
Fixpoint flat_loop (fuel : nat) (seen : gset nat) (to_visit : list DepId)
    {struct fuel} : Result (gset nat) :=
  match to_visit with
  | [] => Return seen
  | dep :: rest =>
      match fuel with
      | 0 => OutOfFuel
      | S fuel' =>
          let seen := {[dep]} ∪ seen in
          flat_loop fuel' seen
            (rest ++ filter (fun sub => sub ∉ seen)
                       (dict_values (dependencies (G dep))))
      end
  end.

(* seen = set(); to_visit = deque([dependant]); ...;
   return seen - set([dependant]) *)
Definition get_flat_subdependants (fuel : nat) (dependant : DepId)
  : Result (gset nat) :=
  seen ← flat_loop fuel ∅ [dependant];
  Return (seen ∖ {[dependant]}).

End Flat.

(* --------------------------------------------------------------------- *)
(* 11. Notions used to state the properties                              *)
(* --------------------------------------------------------------------- *)

(* The provider a call invokes, if it invokes one. *)
Definition call_provider (c : Call) : option Provider :=
  match c with
  | BoundAsyncCM p _ | BoundSyncCM p _ | BoundAsyncGen p _ | BoundSyncGen p _
  | InThreadPool p | Direct p => Some p
  | Retrieve _ => None
  end.

(* Every Task was allocated after the Tasks it depends on. *)
Definition heap_wf (h : list Task) : Prop :=
  forall tid t, h !! tid = Some t ->
    Forall (fun kc => kc.2 < tid) (t_dependencies t).

(* Whether `result()` of the Task would invoke provider `p`, and how many
   Tasks of `h` would. *)
Definition invokes (p : Provider) (t : Task) : bool :=
  bool_decide (call_provider (t_call t) = Some p) && bool_decide (t_result t = None).

Definition pending (p : Provider) (h : list Task) : nat :=
  sum_list_with (fun t => if invokes p t then 1 else 0) h.

(* `ran w w' evs`: from `w` to `w'` the trace grew by `evs`, only the
   exit stacks changed, each by the guards entered on it, and no exit
   stack was unwound. *)
Record ran (w w' : World) (evs : list Event) : Prop := mkRan {
  ran_log : w_log w' = w_log w ++ evs;
  ran_binds : binds (w_state w') = binds (w_state w);
  ran_cached : cached_values (w_state w') = cached_values (w_state w);
  ran_scopes : scopes (w_state w') = scopes (w_state w);
  ran_dom : dom (stacks (w_state w')) = dom (stacks (w_state w));
  ran_stacks : forall s l, stacks (w_state w) !! s = Some l ->
                 stacks (w_state w') !! s = Some (l ++ entered s evs);
  ran_exited : forall s, exited s evs = []
}.

(* `extends w w' evs`: as `ran`, but entries of the result cache may have
   been written; the buckets are the same ones. *)
Record extends (w w' : World) (evs : list Event) : Prop := mkExtends {
  ext_log : w_log w' = w_log w ++ evs;
  ext_binds : binds (w_state w') = binds (w_state w);
  ext_scopes : scopes (w_state w') = scopes (w_state w);
  ext_dom_stacks : dom (stacks (w_state w')) = dom (stacks (w_state w));
  ext_dom_cached : dom (cached_values (w_state w')) = dom (cached_values (w_state w));
  ext_stacks : forall s l, stacks (w_state w) !! s = Some l ->
                 stacks (w_state w') !! s = Some (l ++ entered s evs);
  ext_exited : forall s, exited s evs = []
}.

(* `scoped_run w w' evs`: what a piece of code that leaves the scopes it
   enters does: the active scopes, their buckets and their exit stacks
   are the same ones, the stack of an active scope grew by the guards
   entered on it, and it was not unwound. *)
Record scoped_run (w w' : World) (evs : list Event) : Prop := mkScopedRun {
  sr_log : w_log w' = w_log w ++ evs;
  sr_scopes : scopes (w_state w') = scopes (w_state w);
  sr_dom_stacks : dom (stacks (w_state w')) = dom (stacks (w_state w));
  sr_dom_cached : dom (cached_values (w_state w')) = dom (cached_values (w_state w));
  sr_stacks : forall s l, stacks (w_state w) !! s = Some l ->
                stacks (w_state w') !! s = Some (l ++ entered s evs);
  sr_exited : forall s, s ∈ dom (stacks (w_state w)) -> exited s evs = []
}.

(* `_build_task` only adds to its dictionaries and only allocates. *)
Record grows (L L' : Locals) : Prop := mkGrows {
  grows_seen : seen L ⊆ seen L';
  grows_call_cache : call_cache L ⊆ call_cache L';
  grows_task_cache : forall d, is_Some (dict_get (task_cache L) d) ->
                       is_Some (dict_get (task_cache L') d);
  grows_heap : exists new, heap L' = heap L ++ new
}.

Definition is_return {A} (r : Result A) : bool :=
  match r with Return _ => true | _ => false end.

Section Steps.
Variable provider_call : Provider -> list (string * Value) -> nat -> Value + Exn.

(* What a run of `result()` amounts to: a sequence of invocations of the
   adapted calls of Tasks whose result is unset, each one that returns
   storing its value; with `ok = false` the run may end in an invocation
   that raises. *)
Inductive steps : bool -> list Task -> World -> list Task -> World -> Prop :=
  | steps_refl ok h w : steps ok h w h w
  | steps_call ok tid t values h w v w1 h2 w2 :
      h !! tid = Some t -> t_result t = None ->
      invoke provider_call (t_call t) values w = (Return v, w1) ->
      steps ok (store_result tid v h) w1 h2 w2 ->
      steps ok h w h2 w2
  | steps_fail tid t values h w e w1 :
      h !! tid = Some t -> t_result t = None ->
      invoke provider_call (t_call t) values w = (Raise e, w1) ->
      steps false h w h w1.

(* What the recursive call has to satisfy for the body to satisfy it. *)
Definition result_ok
    (rec : TaskId -> list Task -> World -> Result Value * (list Task * World)) : Prop :=
  forall tid h w r h' w', heap_wf h -> rec tid h w = (r, (h', w')) ->
    steps (is_return r) h w h' w' /\
    (forall i, tid < i -> h' !! i = h !! i) /\
    (forall v, r = Return v -> exists t, h' !! tid = Some t /\ t_result t = Some v).

End Steps.


Section Built.
Variable G : DepId -> Dependant.
Variable is_async_context_manager : Provider -> bool.
Variable is_context_manager : Provider -> bool.
Variable is_async_gen_callable : Provider -> bool.
Variable is_gen_callable : Provider -> bool.
Variable is_coroutine_callable : Provider -> bool.
Variable st : ContainerState.

Local Abbreviation wrap_call' := (wrap_call is_async_context_manager is_context_manager
  is_async_gen_callable is_gen_callable is_coroutine_callable).

(* The Task `_build_task` makes for `dependant` when it does not take it
   from `task_cache`. *)
Definition fresh_task (task_scope : Scope) (dependant : DepId) (stack : ScopeId)
    (subtasks : list (string * TaskId)) (cached_value : option Value) : Task :=
  match cached_value with
  | Some value => mkTask dependant Unscoped (Retrieve value) [] None
  | None =>
      mkTask dependant task_scope (wrap_call' (call (G dependant)) stack) subtasks None
  end.

(* The completed calls of `_build_task`, as derivations: `built d L b t L'`
   when the call on `d` with the dictionaries `L` returns `(b, t)` and
   leaves the dictionaries `L'`; `built_subs` is the loop over the
   sub-dependants. *)
Inductive built : DepId -> Locals -> bool -> TaskId -> Locals -> Prop :=
  | built_hit d L task_scope d1 L1 t :
      d ∉ seen L ->
      resolve_scope st (scope (G d)) = Return task_scope ->
      apply_call_cache G task_scope (apply_binds G st d) (add_seen d L) = (d1, L1) ->
      dict_get (task_cache L1) d1 = Some t ->
      built d L true t L1
  | built_task d L task_scope d1 L1 sc stack allow subtasks L2 cached_value :
      d ∉ seen L ->
      resolve_scope st (scope (G d)) = Return task_scope ->
      apply_call_cache G task_scope (apply_binds G st d) (add_seen d L) = (d1, L1) ->
      dict_get (task_cache L1) d1 = None ->
      resolve_scope st (scope (G d1)) = Return sc ->
      check_scope st sc = Return tt ->
      stack_for st sc = Return stack ->
      built_subs (dependencies (G d1)) true [] L1 allow subtasks L2 ->
      (if allow && bool_decide (sc <> Unscoped)
       then find_cached st (call (G d1)) (reverse (scopes st))
       else Return None) = Return cached_value ->
      built d L (bool_decide (is_Some cached_value)) (length (heap L2))
        (set_task_cache d1 (length (heap L2))
           (new_task (fresh_task task_scope d1 stack subtasks cached_value) L2).2)
with built_subs : list (string * DepId) -> bool -> list (string * TaskId) -> Locals ->
                  bool -> list (string * TaskId) -> Locals -> Prop :=
  | built_subs_nil allow subtasks L :
      built_subs [] allow subtasks L allow subtasks L
  | built_subs_cons name c deps allow subtasks L allow1 t L1 allow' subtasks' L' :
      built c L allow1 t L1 ->
      built_subs deps allow1 (dict_set subtasks name t) (set_task_cache c t L1)
        allow' subtasks' L' ->
      built_subs ((name, c) :: deps) allow subtasks L allow' subtasks' L'.

Scheme built_ind_mut := Minimality for built Sort Prop
  with built_subs_ind_mut := Minimality for built_subs Sort Prop.

End Built.

(* The Tasks of a round refer to Tasks that exist. *)
Definition locals_wf (L : Locals) : Prop :=
  heap_wf (heap L) /\
  Forall (fun kt => kt.2 < length (heap L)) (task_cache L).

(* The container at the start of the body of `enter_scope(s)`. *)
Definition enter_world (s : ScopeId) (w : World) : World :=
  {| w_state :=
       {| binds := binds (w_state w);
          cached_values := <[s := ∅]> (cached_values (w_state w));
          stacks := <[s := []]> (stacks (w_state w));
          scopes := scopes (w_state w) ++ [s] |};
     w_log := w_log w |}.

(* Every entered scope has its bucket and its exit stack. *)
Definition consistent (st : ContainerState) : Prop :=
  dom (cached_values st) = dom (stacks st).

(* A later state of the same Task object: only `_result` is assigned, and
   only once. *)
Definition task_le (t t' : Task) : Prop :=
  t_dependant t' = t_dependant t /\ t_scope t' = t_scope t /\
  t_call t' = t_call t /\ t_dependencies t' = t_dependencies t /\
  (forall v, t_result t = Some v -> t_result t' = Some v).

Definition heap_le (h h' : list Task) : Prop := Forall2 task_le h h'.

Section Unique.
Variable G : DepId -> Dependant.

(* Of the Tasks that are written to the cache, no two are for the same
   provider. *)
Definition unique_scoped (h : list Task) : Prop :=
  forall i j ti tj, h !! i = Some ti -> h !! j = Some tj ->
    t_scope ti <> Unscoped -> t_scope tj <> Unscoped ->
    call (G (t_dependant ti)) = call (G (t_dependant tj)) -> i = j.

(* What `_build_task` maintains about the Tasks whose scope is not
   Unscoped: `call_cache` names the description of each, `task_cache`
   has that description, and there is one Task per description. *)
Record build_inv (L : Locals) : Prop := mkBuildInv {
  inv_call_cache : forall p x, call_cache L !! p = Some x -> call (G x) = p;
  inv_canonical : forall tid t, heap L !! tid = Some t -> t_scope t <> Unscoped ->
    call_cache L !! call (G (t_dependant t)) = Some (t_dependant t) /\
    is_Some (dict_get (task_cache L) (t_dependant t));
  inv_one_task : forall i j ti tj, heap L !! i = Some ti -> heap L !! j = Some tj ->
    t_scope ti <> Unscoped -> t_scope tj <> Unscoped ->
    t_dependant ti = t_dependant tj -> i = j
}.
End Unique.

Section Cells.
Variable G : DepId -> Dependant.

(* The result of Task `tid`, if its scope caches values, is in the bucket
   of that scope under the provider of the Task. *)
Definition cell_ok (h : list Task) (st : ContainerState) (tid : TaskId) : Prop :=
  forall t s, h !! tid = Some t -> t_scope t = Named s ->
    exists val, t_result t = Some val /\
      cached st s (call (G (t_dependant t))) = Some val.
End Cells.

Section Shape.
Variable G : DepId -> Dependant.

(* The Tasks `_build_task` makes: the scope of a Task is a resolved one,
   its call is the provider of its description, adapted, or it hands out
   a cached value and is then Unscoped. *)
Definition task_shape (t : Task) : Prop :=
  t_scope t <> Inherit /\
  (forall p, call_provider (t_call t) = Some p -> p = call (G (t_dependant t))) /\
  (call_provider (t_call t) = None -> t_scope t = Unscoped) /\
  t_result t = None.
End Shape.

Section Writes.
Variable G : DepId -> Dependant.

(* The Task is one that `execute` writes to bucket `s` under provider `p`. *)
Definition writes (s : ScopeId) (p : Provider) (t : Task) : Prop :=
  call (G (t_dependant t)) = p /\ (t_scope t = Named s \/ t_scope t = Inherit).
End Writes.

Section Bounded.
Variable G : DepId -> Dependant.

(* The description graph is finite: the sub-dependants of the first `N`
   nodes are among the first `N` nodes. *)
Definition closed_below (N : nat) : Prop :=
  forall d, d < N -> Forall (fun kc => kc.2 < N) (dependencies (G d)).
End Bounded.

(* The bindings and the canonical descriptions are among the first `N`
   nodes. *)
Definition binds_below (N : nat) (st : ContainerState) : Prop :=
  forall p x, binds st !! p = Some x -> x < N.

Definition call_cache_below (N : nat) (L : Locals) : Prop :=
  forall p x, call_cache L !! p = Some x -> x < N.

(* How many of the first `N` nodes `_build_task` has not visited yet. *)
Definition unseen (N : nat) (L : Locals) : nat :=
  size (set_seq 0 N ∖ seen L : gset nat).

(* The nodes a program names are among the first `N` nodes. *)
Fixpoint op_below (N : nat) (op : Op) : Prop :=
  match op with
  | OpExecute d => d < N
  | OpBind _ source => source < N
  | OpRaise _ => True
  | OpScope _ body =>
      (fix all (ops : list Op) : Prop :=
         match ops with
         | [] => True
         | op :: ops' => op_below N op /\ all ops'
         end) body
  end.

Section FlatSpec.
Variable G : DepId -> Dependant.

(* `c` is a value of the `dependencies` of description `d`. *)
Definition sub_dependant (d c : DepId) : Prop :=
  c ∈ dict_values (dependencies (G d)).

(* How many of the first `N` nodes are not in `seen`. *)
Definition unvisited (N : nat) (seen : gset nat) : nat :=
  size (set_seq 0 N ∖ seen : gset nat).

(* A bound on the rounds of the loop of `get_flat_subdependants` that an
   entry of the queue stands for: itself, and the entries its visit
   appends, while `n` nodes are left to see. *)
Fixpoint flat_weight (n : nat) (seen : gset nat) (c : DepId) : nat :=
  match n with
  | 0 => 1
  | S n' =>
      1 + sum_list_with (flat_weight n' ({[c]} ∪ seen))
            (filter (fun sub => sub ∉ {[c]} ∪ seen)
               (dict_values (dependencies (G c))))
  end.

Definition entry_weight (N : nat) (seen : gset nat) (q : DepId) : nat :=
  flat_weight (S (unvisited N ({[q]} ∪ seen))) seen q.

Definition queue_weight (N : nat) (seen : gset nat) (queue : list DepId) : nat :=
  sum_list_with (entry_weight N seen) queue.
End FlatSpec.

(* --------------------------------------------------------------------- *)
(* 12. A small instance, used to run the properties on concrete inputs   *)
(* --------------------------------------------------------------------- *)

Module Example.

(* Providers 20 to 39 are asynchronous context managers; the others are
   coroutine functions. *)
Definition is_acm (p : Provider) : bool := bool_decide (20 <= p < 40).
Definition never (p : Provider) : bool := false.
Definition always (p : Provider) : bool := true.

(* A provider returns a number made of its name, the index of the
   invocation and its arguments; provider 21 raises, provider 9 raises. *)
Definition provider_call (p : Provider) (values : list (string * Value)) (n : nat)
  : Value + Exn :=
  if bool_decide (p = 21) || bool_decide (p = 9) then inr (ProviderError p)
  else inl (p + 50 * n + sum_list (values.*2)).

Definition guard_exit (g : Guard) (exc : option Exn) : ExitOutcome := ExitFalse.

(* The descriptions:
     0: provider 10, scope "app", depends on 1;
     1: provider 11, Unscoped, no dependencies;
     2: provider 12, scope "app", no dependencies;
     3: provider 13, Unscoped, no dependencies;
     4, 5: guards (providers 20 and 21), scope inherited;
     6: a diamond: provider 16 over 7 and 8, which both depend on node 2;
     9: provider 19, which depends on itself;
     10: a guard (provider 30), Unscoped;
     11: the same diamond as 6 with one description per use: provider 41
         over 12 and 13, which depend on 14 and on 15, two descriptions of
         provider 44. *)
Definition G (d : DepId) : Dependant :=
  match d with
  | 0 => mkDependant 10 (Named "app") [("u", 1)]
  | 1 => mkDependant 11 Unscoped []
  | 2 => mkDependant 12 (Named "app") []
  | 3 => mkDependant 13 Unscoped []
  | 4 => mkDependant 20 Inherit []
  | 5 => mkDependant 21 Inherit []
  | 6 => mkDependant 16 (Named "app") [("b", 7); ("c", 8)]
  | 7 => mkDependant 17 (Named "app") [("d", 2)]
  | 8 => mkDependant 18 (Named "app") [("d", 2)]
  | 9 => mkDependant 19 (Named "app") [("me", 9)]
  | 10 => mkDependant 30 Unscoped []
  | 11 => mkDependant 41 (Named "app") [("b", 12); ("c", 13)]
  | 12 => mkDependant 42 (Named "app") [("d", 14)]
  | 13 => mkDependant 43 (Named "app") [("d", 15)]
  | 14 => mkDependant 44 (Named "app") []
  | 15 => mkDependant 44 (Named "app") []
  | _ => mkDependant (1000 + d) Unscoped []
  end.

Definition build_task := build_task G is_acm never never never always.
Definition execute := execute G is_acm never never never always provider_call.
Definition run_op := run_op G is_acm never never never always provider_call guard_exit.
Definition run_ops := run_ops G is_acm never never never always provider_call guard_exit.

(* No scope entered yet, and scope "app" entered. *)
Definition w0 : World := mkWorld empty_state [].
Definition app_state : ContainerState :=
  {| binds := ∅; cached_values := {["app" := ∅]}; stacks := {["app" := []]};
     scopes := ["app"] |}.
Definition w_app : World := mkWorld app_state [].

(* Scope "app": guards are entered, then the next guard fails to enter. *)
Definition failing_body : list Op :=
  [OpExecute 4; OpExecute 10; OpExecute 10; OpExecute 5; OpExecute 10].

(* A body that binds, executes and enters a nested scope. *)
Definition busy_body : list Op :=
  [OpBind 12 3; OpExecute 2; OpScope "request" [OpBind 13 1; OpExecute 4]; OpRaise KeyError].

(* A call that raises every time, and two callers of `result()`: the
   second takes the lock when the first has left. *)
Definition always_raises (k : nat) : Value + Exn := inr (ProviderError 0).
Definition returns_7 (k : nat) : Value + Exn := inl 7.

Definition two_callers : list SingleFlight.Action :=
  [SingleFlight.Arrive 0; SingleFlight.Arrive 1;
   SingleFlight.Acquire 0; SingleFlight.Test 0; SingleFlight.SubtasksDone 0;
   SingleFlight.Finish 0;
   SingleFlight.Acquire 1; SingleFlight.Test 1; SingleFlight.SubtasksDone 1;
   SingleFlight.Finish 1].

(* The second caller arrives while the call of the first is in flight and
   finds the stored value. *)
Definition second_caller_waits : list SingleFlight.Action :=
  [SingleFlight.Arrive 0; SingleFlight.Acquire 0; SingleFlight.Test 0;
   SingleFlight.SubtasksDone 0; SingleFlight.Arrive 1;
   SingleFlight.Finish 0;
   SingleFlight.Acquire 1; SingleFlight.Test 1].

End Example.

(* Further inputs over the descriptions of `Example`. *)
Module Example2.

(* Scopes "app" and "request" are active and both hold a value for
   provider 12. *)
Definition nested_state : ContainerState :=
  {| binds := ∅;
     cached_values := {["app" := {[12 := 5]}; "request" := {[12 := 99]}]};
     stacks := {["app" := []; "request" := []]};
     scopes := ["app"; "request"] |}.
Definition w_nested : World := mkWorld nested_state [].

(* Scope "app" is active and provider 12 is bound to description 3. *)
Definition bound_state : ContainerState :=
  {| binds := {[12 := 3]}; cached_values := {["app" := ∅]};
     stacks := {["app" := []]}; scopes := ["app"] |}.
Definition w_bound : World := mkWorld bound_state [].

(* Only scope "request" is active. *)
Definition request_state : ContainerState :=
  {| binds := ∅; cached_values := {["request" := ∅]};
     stacks := {["request" := []]}; scopes := ["request"] |}.
Definition w_request : World := mkWorld request_state [].

(* The Tasks of description 0 over description 1, as `_build_task` makes
   them in scope "app". *)
Definition two_tasks : list Task :=
  [mkTask 1 Unscoped (Direct 11) [] None;
   mkTask 0 (Named "app") (Direct 10) [("u", 0)] None].

(* A ring of three descriptions, one provider each: 0 depends on 1, 1 on
   2 and 2 on 0. *)
Definition ring (d : DepId) : Dependant :=
  mkDependant d (Named "app")
    [("next", match d with 0 => 1 | 1 => 2 | _ => 0 end)].

Definition ring_build_task :=
  build_task ring Example.is_acm Example.never Example.never Example.never
    Example.always.
Definition ring_execute :=
  execute ring Example.is_acm Example.never Example.never Example.never
    Example.always Example.provider_call.

End Example2.

(* ===================================================================== *)
(* Properties                                                            *)
(* ===================================================================== *)

(* --------------------------------------------------------------------- *)
(* Scope resolution and bindings                                         *)
(* --------------------------------------------------------------------- *)

Lemma last_snoc_some {A} (l : list A) (x : A) : last (l ++ [x]) = Some x.
Proof. by rewrite last_snoc. Qed.

Lemma resolve_scope_inherit (st : ContainerState) :
  resolve_scope st Inherit =
  match last (scopes st) with
  | Some s => Return (Named s)
  | None => Raise UnknownScopeError
  end.
Proof.
  unfold resolve_scope. destruct (scopes st) as [|s l] eqn:Hs; [done|].
  destruct (decide (length (s :: l) = 0)); [done|].
  destruct (last (s :: l)) eqn:Hl; [done|]. by apply last_None in Hl.
Qed.

(** C7: `_resolve_scope` maps the Unscoped tag to Unscoped and a concrete
    scope id to itself; it maps Inherit to the innermost active scope (the
    last one of `scopes`), and with no active scope it fails with
    UnknownScopeError. *)
Theorem resolve_scope_spec (b : gmap nat nat) (c : gmap string (gmap nat nat))
    (k : gmap string (list Guard)) (outer : list string) (s : string) :
  (forall st, resolve_scope st Unscoped = Return Unscoped) /\
  (forall st s', resolve_scope st (Named s') = Return (Named s')) /\
  resolve_scope (mkState b c k (outer ++ [s])) Inherit = Return (Named s) /\
  resolve_scope (mkState b c k []) Inherit = Raise UnknownScopeError /\
  (forall st, resolve_scope st Inherit =
     match last (scopes st) with
     | Some s' => Return (Named s')
     | None => Raise UnknownScopeError
     end).
Proof.
  repeat split; try done.
  - by rewrite resolve_scope_inherit; simpl; rewrite last_snoc.
  - apply resolve_scope_inherit.
Qed.

Lemma cached_bind target source st s p :
  cached (bind target source st) s p =
  if decide (p = target) then None else cached st s p.
Proof.
  unfold cached, bind; simpl. rewrite lookup_fmap.
  destruct (cached_values st !! s) as [bucket|]; simpl.
  - case_decide; subst; [apply lookup_delete_eq|by apply lookup_delete_ne].
  - by case_decide.
Qed.

(** C8: `bind(target, source)` records the override, so that the builder
    replaces every description whose provider is `target` by the
    description of `source`; after it no bucket of the result cache holds
    an entry for `target`, every other entry of every bucket is as it
    was, and the buckets, the stacks and the active scopes are the same. *)
Theorem bind_spec (G : DepId -> Dependant) (target : Provider) (source : DepId)
    (st : ContainerState) :
  binds (bind target source st) !! target = Some source /\
  (forall d, apply_binds G (bind target source st) d =
     if decide (call (G d) = target) then source else apply_binds G st d) /\
  (forall s, cached (bind target source st) s target = None) /\
  (forall s p, cached (bind target source st) s p =
     if decide (p = target) then None else cached st s p) /\
  dom (cached_values (bind target source st)) = dom (cached_values st) /\
  stacks (bind target source st) = stacks st /\
  scopes (bind target source st) = scopes st.
Proof.
  split; [apply lookup_insert_eq|].
  split.
  { intros d. unfold apply_binds, bind; simpl. case_decide as Hd.
    - by rewrite Hd, lookup_insert_eq.
    - by rewrite lookup_insert_ne. }
  split.
  { intros s. rewrite cached_bind. by case_decide. }
  split; [apply cached_bind|].
  split; [|done].
  unfold bind; simpl. apply dom_fmap_L.
Qed.

(* --------------------------------------------------------------------- *)
(* What running tasks does to the container                              *)
(* --------------------------------------------------------------------- *)

Lemma ran_refl w : ran w w [].
Proof.
  constructor; try done.
  - by rewrite app_nil_r.
  - intros s l Hl. by rewrite app_nil_r.
Qed.

Lemma ran_trans w w1 w2 evs1 evs2 :
  ran w w1 evs1 -> ran w1 w2 evs2 -> ran w w2 (evs1 ++ evs2).
Proof.
  intros [Hl1 Hb1 Hc1 Hs1 Hd1 Hk1 He1] [Hl2 Hb2 Hc2 Hs2 Hd2 Hk2 He2].
  constructor; try congruence.
  - by rewrite Hl2, Hl1, app_assoc.
  - intros s l Hl. apply Hk1 in Hl. apply Hk2 in Hl.
    unfold entered. rewrite omap_app. by rewrite Hl, app_assoc.
  - intros s. unfold exited. rewrite omap_app.
    specialize (He1 s). specialize (He2 s). unfold exited in He1, He2.
    by rewrite He1, He2.
Qed.

Lemma ran_log_event w e :
  (forall s g, e <> EvEnter s g) -> (forall s g, e <> EvExit s g) ->
  ran w (log_event e w) [e].
Proof.
  intros Hne Hnx. constructor; try done.
  - intros s l Hl. simpl. rewrite Hl. f_equal.
    destruct e; simpl; try by rewrite app_nil_r. by destruct (Hne s0 g).
  - intros s. destruct e; simpl; try done. by destruct (Hnx s0 g).
Qed.

Lemma ran_push_guard w s g : ran w (push_guard s g w) [EvEnter s g].
Proof.
  constructor; try done.
  - simpl. apply set_eq. intros k. rewrite !elem_of_dom.
    rewrite lookup_alter. case_decide; subst; [|done].
    by rewrite fmap_is_Some.
  - intros s' l Hl. simpl. rewrite lookup_alter.
    case_decide; subst.
    + by rewrite Hl.
    + by rewrite app_nil_r.
Qed.

Section TaskFacts.
Variable provider_call : Provider -> list (string * Value) -> nat -> Value + Exn.
Local Abbreviation invoke := (invoke provider_call).
Local Abbreviation task_result := (task_result provider_call).
Local Abbreviation steps := (steps provider_call).
Local Abbreviation result_ok := (result_ok provider_call).

Lemma invoke_ran c values w r w' :
  invoke c values w = (r, w') -> exists evs, ran w w' evs.
Proof.
  assert (Hcall : forall p, ran w (log_event (EvCall p) w) [EvCall p]).
  { intros p. by apply ran_log_event. }
  assert (Hguard : forall p s g,
    ran w (push_guard s g (log_event (EvCall p) w)) ([EvCall p] ++ [EvEnter s g])).
  { intros p s g. eapply ran_trans; [apply Hcall|apply ran_push_guard]. }
  destruct c as [p s|p s|p s|p s|p|p|v]; simpl; intros Hinv;
    try (destruct (provider_call p values _); injection Hinv as <- <-; eauto; fail).
  - destruct (provider_call p values _); injection Hinv as <- <-; [eauto|].
    eexists. eapply ran_trans; [apply Hcall|]. by apply ran_log_event.
  - injection Hinv as <- <-. eexists. apply ran_refl.
Qed.

Lemma invoke_not_fuel c values w w' : invoke c values w <> (OutOfFuel, w').
Proof.
  destruct c; simpl; try done; by destruct (provider_call _ _ _).
Qed.

Lemma steps_trans ok h w h1 w1 h2 w2 :
  steps true h w h1 w1 -> steps ok h1 w1 h2 w2 -> steps ok h w h2 w2.
Proof.
  intros H1. remember true as b eqn:Hb. revert h2 w2 Hb.
  induction H1 as [b h w|b tid t values h w v w1 h1' w1' Ht Hr Hinv Hs IH
                   |tid t values h w e w1 Ht Hr Hinv]; intros h3 w3 Hb H; subst.
  - done.
  - eapply steps_call; eauto.
  - done.
Qed.

Lemma steps_weaken ok h w h' w' : steps true h w h' w' -> steps ok h w h' w'.
Proof.
  intros H. eapply steps_trans; [done|apply steps_refl].
Qed.

Lemma steps_ran ok h w h' w' : steps ok h w h' w' -> exists evs, ran w w' evs.
Proof.
  induction 1 as [ok h w|ok tid t values h w v w1 h2 w2 Ht Hr Hinv _ [evs2 IH]
                  |tid t values h w e w1 Ht Hr Hinv].
  - eexists. apply ran_refl.
  - apply invoke_ran in Hinv as [evs1 H1]. eexists. by eapply ran_trans.
  - by apply invoke_ran in Hinv.
Qed.

Lemma store_result_lookup tid v h i :
  store_result tid v h !! i =
  if decide (i = tid) then (fun t => set_result t v) <$> h !! i else h !! i.
Proof.
  unfold store_result. destruct (h !! tid) as [t|] eqn:Ht.
  - case_decide; subst.
    + rewrite list_lookup_insert_eq; [by rewrite Ht|]. by eapply lookup_lt_Some.
    + by rewrite list_lookup_insert_ne.
  - case_decide; subst; [by rewrite Ht|done].
Qed.

Lemma store_result_wf tid v h : heap_wf h -> heap_wf (store_result tid v h).
Proof.
  intros Hwf i t. rewrite store_result_lookup. case_decide; subst.
  - destruct (h !! tid) as [t0|] eqn:Ht; simpl; [|done].
    intros [= <-]. simpl. by eapply Hwf.
  - apply Hwf.
Qed.

Lemma steps_wf ok h w h' w' : steps ok h w h' w' -> heap_wf h -> heap_wf h'.
Proof.
  induction 1; intros Hwf; try done. apply IHsteps. by apply store_result_wf.
Qed.

Lemma run_group_ok rec :
  result_ok rec ->
  forall subtasks n h w r h' w', heap_wf h -> Forall (fun c => c < n) subtasks ->
    run_group rec subtasks h w = (r, (h', w')) ->
    steps (is_return r) h w h' w' /\ (forall i, n <= i -> h' !! i = h !! i).
Proof.
  intros Hrec subtasks n. induction subtasks as [|c rest IH]; simpl;
    intros h w r h' w' Hwf Hlt Hrun.
  - injection Hrun as <- <- <-. split; [apply steps_refl|done].
  - apply Forall_cons in Hlt as [Hc Hrest].
    destruct (rec c h w) as [r1 [h1 w1]] eqn:Hc1.
    destruct (Hrec _ _ _ _ _ _ Hwf Hc1) as (Hs1 & Hf1 & _).
    destruct r1 as [v1|e1|]; simpl in *.
    + destruct (IH h1 w1 r h' w') as [Hs2 Hf2]; [by eapply steps_wf|done|done|].
      split; [by eapply steps_trans|].
      intros i Hi. rewrite Hf2 by done. apply Hf1. lia.
    + injection Hrun as <- <- <-. split; [done|]. intros i Hi. apply Hf1. lia.
    + injection Hrun as <- <- <-. split; [done|]. intros i Hi. apply Hf1. lia.
Qed.

Lemma collect_values_ok rec :
  result_ok rec ->
  forall deps n h w r h' w', heap_wf h -> Forall (fun kc => kc.2 < n) deps ->
    collect_values rec deps h w = (r, (h', w')) ->
    steps (is_return r) h w h' w' /\ (forall i, n <= i -> h' !! i = h !! i).
Proof.
  intros Hrec deps n. induction deps as [|[k c] rest IH]; simpl;
    intros h w r h' w' Hwf Hlt Hrun.
  - injection Hrun as <- <- <-. split; [apply steps_refl|done].
  - apply Forall_cons in Hlt as [Hc Hrest]. simpl in Hc.
    destruct (rec c h w) as [r1 [h1 w1]] eqn:Hc1.
    destruct (Hrec _ _ _ _ _ _ Hwf Hc1) as (Hs1 & Hf1 & _).
    destruct r1 as [v1|e1|]; simpl in *.
    + destruct (collect_values rec rest h1 w1) as [r2 [h2 w2]] eqn:Hc2.
      destruct (IH h1 w1 r2 h2 w2) as [Hs2 Hf2]; [by eapply steps_wf|done|done|].
      assert (Hf : forall i, n <= i -> h2 !! i = h !! i).
      { intros i Hi. rewrite Hf2 by done. apply Hf1. lia. }
      destruct r2 as [vs|e2|]; injection Hrun as <- <- <-; simpl in *;
        (split; [by eapply steps_trans|done]).
    + injection Hrun as <- <- <-. split; [done|]. intros i Hi. apply Hf1. lia.
    + injection Hrun as <- <- <-. split; [done|]. intros i Hi. apply Hf1. lia.
Qed.

Lemma task_result_body_ok rec : result_ok rec -> result_ok (task_result_body provider_call rec).
Proof.
  intros Hrec tid h w r h' w' Hwf. unfold task_result_body.
  destruct (h !! tid) as [t|] eqn:Ht.
  2:{ intros [= <- <- <-]. split; [apply steps_refl|]. split; [done|]. by intros v. }
  destruct (t_result t) as [v0|] eqn:Hres.
  { intros [= <- <- <-]. split; [apply steps_refl|]. split; [done|].
    intros v [= <-]. eauto. }
  assert (Hdeps : Forall (fun kc => kc.2 < tid) (t_dependencies t)) by by eapply Hwf.
  assert (Hvals : Forall (fun c => c < tid) (dict_values (t_dependencies t))).
  { unfold dict_values. by apply Forall_fmap. }
  destruct (run_group rec _ h w) as [r1 [h1 w1]] eqn:Hg.
  destruct (run_group_ok rec Hrec _ _ _ _ _ _ _ Hwf Hvals Hg) as [Hs1 Hf1].
  destruct r1 as [[]|e1|]; simpl in *.
  2,3: intros [= <- <- <-]; (split; [done|]); split;
         [intros i Hi; apply Hf1; lia|by intros v].
  assert (Hwf1 : heap_wf h1) by by eapply steps_wf.
  destruct (collect_values rec _ h1 w1) as [r2 [h2 w2]] eqn:Hcv.
  destruct (collect_values_ok rec Hrec _ _ _ _ _ _ _ Hwf1 Hdeps Hcv) as [Hs2 Hf2].
  assert (Hf : forall i, tid <= i -> h2 !! i = h !! i).
  { intros i Hi. rewrite Hf2 by done. by apply Hf1. }
  destruct r2 as [values|e2|]; simpl in *.
  2,3: intros [= <- <- <-]; (split; [by eapply steps_trans|]); split;
         [intros i Hi; apply Hf; lia|by intros v].
  assert (Ht2 : h2 !! tid = Some t) by (rewrite Hf by done; done).
  destruct (invoke (t_call t) values w2) as [r3 w3] eqn:Hinv.
  destruct r3 as [v|e3|].
  - intros [= <- <- <-]. split; [|split].
    + eapply steps_trans; [done|]. eapply steps_trans; [done|].
      eapply steps_call; [done|done|done|apply steps_refl].
    + intros i Hi. rewrite store_result_lookup. rewrite decide_False by lia.
      apply Hf. lia.
    + intros v' [= <-]. rewrite store_result_lookup, decide_True by done.
      rewrite Ht2. simpl. eauto.
  - intros [= <- <- <-]. split; [|split].
    + simpl. eapply steps_trans; [done|]. eapply steps_trans; [done|].
      by eapply steps_fail.
    + intros i Hi. apply Hf. lia.
    + by intros v.
  - by apply invoke_not_fuel in Hinv.
Qed.

Lemma task_result_ok fuel : result_ok (task_result fuel).
Proof.
  induction fuel as [|fuel IH].
  - intros tid h w r h' w' Hwf [= <- <- <-]. split; [apply steps_refl|].
    split; [done|by intros v].
  - simpl. by apply task_result_body_ok.
Qed.

End TaskFacts.

(* --------------------------------------------------------------------- *)
(* The graph builder                                                     *)
(* --------------------------------------------------------------------- *)

Section DictFacts.
Context {K V : Type} `{EqDecision K}.
Implicit Types (m : list (K * V)).

Lemma dict_get_set m k v k' :
  dict_get (dict_set m k v) k' = if decide (k = k') then Some v else dict_get m k'.
Proof.
  induction m as [|[k0 v0] m IH]; simpl.
  - by destruct (decide (k = k')).
  - destruct (decide (k0 = k)) as [->|Hne]; simpl.
    + by destruct (decide (k = k')).
    + destruct (decide (k0 = k')) as [->|Hne'].
      * by rewrite decide_False by done.
      * apply IH.
Qed.

Lemma dict_set_Forall (P : K * V -> Prop) m k v :
  Forall P m -> P (k, v) -> Forall P (dict_set m k v).
Proof.
  intros Hm Hkv. induction Hm as [|[k0 v0] m H0 Hm IH]; simpl.
  - by constructor.
  - destruct (decide (k0 = k)); by constructor.
Qed.

Lemma dict_set_elem m k v kv :
  kv ∈ dict_set m k v -> kv = (k, v) \/ kv ∈ m.
Proof.
  induction m as [|[k0 v0] m IH]; simpl.
  - intros ->%list_elem_of_singleton. by left.
  - destruct (decide (k0 = k)) as [->|Hne].
    + intros [->|H]%elem_of_cons; [by left|]. right. by right.
    + intros [->|H]%elem_of_cons; [right; by left|].
      destruct (IH H) as [->|?]; [by left|]. right. by right.
Qed.

Lemma dict_get_elem m k v : dict_get m k = Some v -> (k, v) ∈ m.
Proof.
  induction m as [|[k0 v0] m IH]; simpl; [done|].
  destruct (decide (k0 = k)) as [->|Hne].
  - intros [= ->]. by left.
  - intros H. right. by apply IH.
Qed.

Lemma dict_set_values_elem m k v x :
  x ∈ dict_values (dict_set m k v) -> x = v \/ x ∈ dict_values m.
Proof.
  unfold dict_values. intros ([k' x'] & -> & Hin)%list_elem_of_fmap.
  apply dict_set_elem in Hin as [[= -> ->]|Hin]; [by left|].
  right. apply list_elem_of_fmap. by exists (k', x').
Qed.

Lemma dict_set_values_new m k v : v ∈ dict_values (dict_set m k v).
Proof.
  unfold dict_values. induction m as [|[k0 v0] m IH]; simpl.
  - by left.
  - destruct (decide (k0 = k)); simpl; [by left|by right].
Qed.
End DictFacts.

Section BuildFacts.
Variable G : DepId -> Dependant.
Variable is_async_context_manager : Provider -> bool.
Variable is_context_manager : Provider -> bool.
Variable is_async_gen_callable : Provider -> bool.
Variable is_gen_callable : Provider -> bool.
Variable is_coroutine_callable : Provider -> bool.
Variable st : ContainerState.

Local Abbreviation wrap_call := (wrap_call is_async_context_manager is_context_manager
  is_async_gen_callable is_gen_callable is_coroutine_callable).
Local Abbreviation build_task := (build_task G is_async_context_manager
  is_context_manager is_async_gen_callable is_gen_callable is_coroutine_callable).
Local Abbreviation build_task_body := (build_task_body G is_async_context_manager
  is_context_manager is_async_gen_callable is_gen_callable is_coroutine_callable).
Local Abbreviation built := (built G is_async_context_manager
  is_context_manager is_async_gen_callable is_gen_callable is_coroutine_callable st).
Local Abbreviation built_subs := (built_subs G is_async_context_manager
  is_context_manager is_async_gen_callable is_gen_callable is_coroutine_callable st).
Local Abbreviation fresh_task := (fresh_task G is_async_context_manager
  is_context_manager is_async_gen_callable is_gen_callable is_coroutine_callable).

Lemma bind_Return {A B} (r : Result A) (k : A -> Result B) (b : B) :
  r ≫= k = Return b -> exists a, r = Return a /\ k a = Return b.
Proof. destruct r as [a| |]; simpl; intros H; try done. by exists a. Qed.

Lemma build_subtasks_built rec :
  (forall d L b t L', rec d L = Return (b, t, L') -> built d L b t L') ->
  forall deps allow subtasks L allow' subtasks' L',
    build_subtasks rec deps allow subtasks L = Return (allow', subtasks', L') ->
    built_subs deps allow subtasks L allow' subtasks' L'.
Proof.
  intros Hrec deps. induction deps as [|[name c] deps IH]; simpl;
    intros allow subtasks L allow' subtasks' L' H.
  - injection H as <- <- <-. constructor.
  - apply bind_Return in H as ([[allow1 t] L1] & Hc & H).
    econstructor; [by apply Hrec|by apply IH].
Qed.

Lemma build_task_body_built rec :
  (forall d L b t L', rec d L = Return (b, t, L') -> built d L b t L') ->
  forall d L b t L', build_task_body st rec d L = Return (b, t, L') -> built d L b t L'.
Proof.
  intros Hrec d L b t L'. unfold build_task_body.
  case_decide as Hseen; [done|]. intros H.
  apply bind_Return in H as (task_scope & Hts & H).
  destruct (apply_call_cache G task_scope _ _) as [d1 L1] eqn:Hcc.
  destruct (dict_get (task_cache L1) d1) as [t1|] eqn:Hget.
  { injection H as <- <- <-. by eapply built_hit. }
  apply bind_Return in H as (sc & Hsc & H).
  apply bind_Return in H as ([] & Hchk & H).
  apply bind_Return in H as (stack & Hstack & H).
  apply bind_Return in H as ([[allow subtasks] L2] & Hsubs & H).
  apply bind_Return in H as (cached_value & Hcached & H).
  apply (build_subtasks_built rec Hrec) in Hsubs.
  pose proof (built_task G is_async_context_manager is_context_manager
    is_async_gen_callable is_gen_callable is_coroutine_callable st
    d L task_scope d1 L1 sc stack allow subtasks L2 cached_value
    Hseen Hts Hcc Hget Hsc Hchk Hstack Hsubs Hcached) as Hb.
  destruct cached_value as [value|]; simpl in H; injection H as <- <- <-; exact Hb.
Qed.

Lemma build_task_built fuel d L b t L' :
  build_task fuel st d L = Return (b, t, L') -> built d L b t L'.
Proof.
  revert d L b t L'. induction fuel as [|fuel IH]; simpl; [done|].
  by apply build_task_body_built.
Qed.

(* Both halves of an induction on the derivations at once. *)
Lemma built_both_ind
    (P : DepId -> Locals -> bool -> TaskId -> Locals -> Prop)
    (P0 : list (string * DepId) -> bool -> list (string * TaskId) -> Locals ->
          bool -> list (string * TaskId) -> Locals -> Prop) :
  (forall d L task_scope d1 L1 t,
     d ∉ seen L -> resolve_scope st (scope (G d)) = Return task_scope ->
     apply_call_cache G task_scope (apply_binds G st d) (add_seen d L) = (d1, L1) ->
     dict_get (task_cache L1) d1 = Some t -> P d L true t L1) ->
  (forall d L task_scope d1 L1 sc stack allow subtasks L2 cached_value,
     d ∉ seen L -> resolve_scope st (scope (G d)) = Return task_scope ->
     apply_call_cache G task_scope (apply_binds G st d) (add_seen d L) = (d1, L1) ->
     dict_get (task_cache L1) d1 = None ->
     resolve_scope st (scope (G d1)) = Return sc ->
     check_scope st sc = Return tt ->
     stack_for st sc = Return stack ->
     built_subs (dependencies (G d1)) true [] L1 allow subtasks L2 ->
     P0 (dependencies (G d1)) true [] L1 allow subtasks L2 ->
     (if allow && bool_decide (sc <> Unscoped)
      then find_cached st (call (G d1)) (reverse (scopes st))
      else Return None) = Return cached_value ->
     P d L (bool_decide (is_Some cached_value)) (length (heap L2))
       (set_task_cache d1 (length (heap L2))
          (new_task (fresh_task task_scope d1 stack subtasks cached_value) L2).2)) ->
  (forall allow subtasks L, P0 [] allow subtasks L allow subtasks L) ->
  (forall name c deps allow subtasks L allow1 t L1 allow' subtasks' L',
     built c L allow1 t L1 -> P c L allow1 t L1 ->
     built_subs deps allow1 (dict_set subtasks name t) (set_task_cache c t L1)
       allow' subtasks' L' ->
     P0 deps allow1 (dict_set subtasks name t) (set_task_cache c t L1)
       allow' subtasks' L' ->
     P0 ((name, c) :: deps) allow subtasks L allow' subtasks' L') ->
  (forall d L b t L', built d L b t L' -> P d L b t L') /\
  (forall deps allow subtasks L allow' subtasks' L',
     built_subs deps allow subtasks L allow' subtasks' L' ->
     P0 deps allow subtasks L allow' subtasks' L').
Proof.
  intros H1 H2 H3 H4. split.
  - apply built_ind_mut with (P0 := P0); assumption.
  - apply built_subs_ind_mut with (P := P); assumption.
Qed.

Lemma grows_refl L : grows L L.
Proof. constructor; try done. exists []. by rewrite app_nil_r. Qed.

Lemma grows_trans L1 L2 L3 : grows L1 L2 -> grows L2 L3 -> grows L1 L3.
Proof.
  intros [Hs1 Hc1 Ht1 [n1 Hh1]] [Hs2 Hc2 Ht2 [n2 Hh2]]. constructor.
  - set_solver.
  - by etrans.
  - auto.
  - exists (n1 ++ n2). by rewrite Hh2, Hh1, app_assoc.
Qed.

Lemma grows_add_seen d L : grows L (add_seen d L).
Proof. constructor; simpl; try done; [set_solver|]. exists []. by rewrite app_nil_r. Qed.

Lemma grows_set_task_cache d t L : grows L (set_task_cache d t L).
Proof.
  constructor; simpl; try done.
  - intros d' Hd'. rewrite dict_get_set. by case_decide.
  - exists []. by rewrite app_nil_r.
Qed.

Lemma grows_new_task t L : grows L (new_task t L).2.
Proof. constructor; simpl; try done. by exists [t]. Qed.

Lemma grows_apply_call_cache sc d L d1 L1 :
  apply_call_cache G sc d L = (d1, L1) -> grows L L1.
Proof.
  unfold apply_call_cache. case_decide.
  - intros [= <- <-]. apply grows_refl.
  - destruct (call_cache L !! call (G d)) eqn:Hcc; intros [= <- <-].
    + apply grows_refl.
    + constructor; simpl; try done.
      * by apply insert_subseteq.
      * exists []. by rewrite app_nil_r.
Qed.

Lemma grows_length L L' : grows L L' -> length (heap L) <= length (heap L').
Proof. intros [_ _ _ [new ->]]. rewrite length_app. lia. Qed.

Lemma grows_lookup L L' i t :
  grows L L' -> heap L !! i = Some t -> heap L' !! i = Some t.
Proof. intros [_ _ _ [new ->]] Hi. by apply lookup_app_l_Some. Qed.

Lemma built_grows :
  (forall d L b t L', built d L b t L' -> grows L L' /\ d ∈ seen L') /\
  (forall deps allow subtasks L allow' subtasks' L',
     built_subs deps allow subtasks L allow' subtasks' L' -> grows L L').
Proof.
  apply built_both_ind.
  - intros d L task_scope d1 L1 t _ _ Hcc _.
    apply grows_apply_call_cache in Hcc. split.
    + eapply grows_trans; [apply grows_add_seen|done].
    + apply (grows_seen _ _ Hcc). simpl. set_solver.
  - intros d L task_scope d1 L1 sc stack allow subtasks L2 cv _ _ Hcc _ _ _ _ _ IH _.
    apply grows_apply_call_cache in Hcc.
    assert (Hg : grows L L2).
    { eapply grows_trans; [apply grows_add_seen|]. by eapply grows_trans. }
    split.
    + eapply grows_trans; [done|]. eapply grows_trans; [apply grows_new_task|].
      apply grows_set_task_cache.
    + simpl. apply (grows_seen _ _ IH), (grows_seen _ _ Hcc). simpl. set_solver.
  - intros. apply grows_refl.
  - intros name c deps allow subtasks L allow1 t L1 allow' subtasks' L' _ [IH1 _] _ IH2.
    eapply grows_trans; [done|]. eapply grows_trans; [apply grows_set_task_cache|done].
Qed.

Lemma locals_wf_grows_same L L' :
  locals_wf L -> heap L' = heap L -> task_cache L' = task_cache L -> locals_wf L'.
Proof. intros [H1 H2] Hh Ht. split; by rewrite ?Hh, ?Ht. Qed.

Lemma locals_wf_apply_call_cache sc d L d1 L1 :
  apply_call_cache G sc d L = (d1, L1) -> locals_wf L -> locals_wf L1.
Proof.
  unfold apply_call_cache. case_decide; [by intros [= <- <-]|].
  destruct (call_cache L !! call (G d)); intros [= <- <-]; [done|].
  intros Hwf. by eapply locals_wf_grows_same.
Qed.

Lemma locals_wf_set_task_cache d t L :
  locals_wf L -> t < length (heap L) -> locals_wf (set_task_cache d t L).
Proof.
  intros [H1 H2] Ht. split; [done|]. simpl. by apply dict_set_Forall.
Qed.

Lemma fresh_task_dependencies task_scope d stack subtasks cv kc :
  kc ∈ t_dependencies (fresh_task task_scope d stack subtasks cv) -> kc ∈ subtasks.
Proof. destruct cv; simpl; [by intros ?%elem_of_nil|done]. Qed.

Lemma locals_wf_new_task t L :
  locals_wf L -> Forall (fun kc => kc.2 < length (heap L)) (t_dependencies t) ->
  locals_wf (new_task t L).2.
Proof.
  intros [H1 H2] Ht. split; simpl.
  - intros i t' Hi. apply lookup_app_Some in Hi as [Hi|[Hlen Hi]].
    + by eapply H1.
    + apply list_lookup_singleton_Some in Hi as [Hi <-].
      eapply Forall_impl; [done|]. simpl. intros; lia.
  - rewrite length_app. simpl. eapply Forall_impl; [done|]. simpl. intros; lia.
Qed.

Lemma built_wf :
  (forall d L b t L', built d L b t L' ->
     locals_wf L -> locals_wf L' /\ t < length (heap L')) /\
  (forall deps allow subtasks L allow' subtasks' L',
     built_subs deps allow subtasks L allow' subtasks' L' ->
     locals_wf L -> Forall (fun kc => kc.2 < length (heap L)) subtasks ->
     locals_wf L' /\ Forall (fun kc => kc.2 < length (heap L')) subtasks').
Proof.
  apply built_both_ind.
  - intros d L task_scope d1 L1 t _ _ Hcc Hget Hwf.
    assert (Hwf1 : locals_wf L1).
    { eapply locals_wf_apply_call_cache; [done|]. by eapply locals_wf_grows_same. }
    split; [done|]. destruct Hwf1 as [_ Htc].
    apply dict_get_elem in Hget. by apply (proj1 (Forall_forall _ _) Htc) in Hget.
  - intros d L task_scope d1 L1 sc stack allow subtasks L2 cv _ _ Hcc _ _ _ _ _ IH _ Hwf.
    assert (Hwf1 : locals_wf L1).
    { eapply locals_wf_apply_call_cache; [done|]. by eapply locals_wf_grows_same. }
    destruct (IH Hwf1) as [Hwf2 Hsubs]; [by constructor|].
    split; [|simpl; rewrite length_app; simpl; lia].
    apply locals_wf_set_task_cache; [|simpl; rewrite length_app; simpl; lia].
    apply locals_wf_new_task; [done|].
    apply Forall_forall. intros kc Hkc. apply fresh_task_dependencies in Hkc.
    by apply (proj1 (Forall_forall _ _) Hsubs) in Hkc.
  - intros. done.
  - intros name c deps allow subtasks L allow1 t L1 allow' subtasks' L' Hb IH1 _ IH2
      Hwf Hsubs.
    destruct (IH1 Hwf) as [Hwf1 Ht].
    apply IH2.
    + by apply locals_wf_set_task_cache.
    + simpl. apply dict_set_Forall; [|done].
      eapply Forall_impl; [done|]. simpl. intros kc Hkc.
      apply (proj1 built_grows) in Hb as [Hg _]. apply grows_length in Hg. lia.
Qed.

Lemma locals_wf_empty : locals_wf empty_locals.
Proof. split; [intros i t Hi; simpl in Hi; by destruct i|constructor]. Qed.

End BuildFacts.

(* --------------------------------------------------------------------- *)
(* One Task per cached provider                                          *)
(* --------------------------------------------------------------------- *)

Section UniqueFacts.
Variable G : DepId -> Dependant.
Variable is_async_context_manager : Provider -> bool.
Variable is_context_manager : Provider -> bool.
Variable is_async_gen_callable : Provider -> bool.
Variable is_gen_callable : Provider -> bool.
Variable is_coroutine_callable : Provider -> bool.
Variable st : ContainerState.

Local Abbreviation built := (built G is_async_context_manager
  is_context_manager is_async_gen_callable is_gen_callable is_coroutine_callable st).
Local Abbreviation built_subs := (built_subs G is_async_context_manager
  is_context_manager is_async_gen_callable is_gen_callable is_coroutine_callable st).
Local Abbreviation fresh_task := (fresh_task G is_async_context_manager
  is_context_manager is_async_gen_callable is_gen_callable is_coroutine_callable).
Local Abbreviation built_both_ind := (built_both_ind G is_async_context_manager
  is_context_manager is_async_gen_callable is_gen_callable is_coroutine_callable st).
Local Abbreviation built_grows := (built_grows G is_async_context_manager
  is_context_manager is_async_gen_callable is_gen_callable is_coroutine_callable st).
Local Abbreviation build_inv := (build_inv G).

Lemma built_not_seen d L b t L' : built d L b t L' -> d ∉ seen L.
Proof. by inversion 1. Qed.

Lemma apply_call_cache_same sc d L d1 L1 :
  apply_call_cache G sc d L = (d1, L1) ->
  seen L1 = seen L /\ task_cache L1 = task_cache L /\ heap L1 = heap L.
Proof.
  unfold apply_call_cache. case_decide; [by intros [= <- <-]|].
  by destruct (call_cache L !! call (G d)); intros [= <- <-].
Qed.

Lemma fresh_task_dependant ts d stack subtasks cv :
  t_dependant (fresh_task ts d stack subtasks cv) = d.
Proof. by destruct cv. Qed.

(* While the sub-dependants of `d'` are being built, no Task is made for
   `d'`: making one would walk the sub-dependants of `d'` again, and the
   first of them has been seen. *)
Lemma built_blocked :
  (forall d L b t L', built d L b t L' ->
     forall d' n c1 rest, dependencies (G d') = (n, c1) :: rest ->
       c1 ∈ seen L \/ c1 = d ->
       forall tid t', heap L' !! tid = Some t' -> length (heap L) <= tid ->
         t_dependant t' <> d') /\
  (forall deps allow subtasks L allow' subtasks' L',
     built_subs deps allow subtasks L allow' subtasks' L' ->
     forall d' n c1 rest, dependencies (G d') = (n, c1) :: rest ->
       c1 ∈ seen L \/ (exists n' rest', deps = (n', c1) :: rest') ->
       forall tid t', heap L' !! tid = Some t' -> length (heap L) <= tid ->
         t_dependant t' <> d').
Proof.
  apply built_both_ind.
  - intros d L ts d1 L1 t _ _ Hcc _ d' n c1 rest _ _ tid t' Ht Hlen.
    apply apply_call_cache_same in Hcc as (_ & _ & Hh). simpl in Hh.
    rewrite Hh in Ht. apply lookup_lt_Some in Ht. lia.
  - intros d L ts d1 L1 sc stack allow subtasks L2 cv _ _ Hcc _ _ _ _ Hsubs IH _
      d' n c1 rest Hdeps Hc1 tid t' Ht Hlen.
    apply apply_call_cache_same in Hcc as (Hs & _ & Hh). simpl in Hs, Hh.
    assert (Hin : c1 ∈ seen L1) by (rewrite Hs; set_solver).
    assert (Hne : d1 <> d').
    { intros ->. rewrite Hdeps in Hsubs. inversion Hsubs as [|? ? ? ? ? ? ? ? ? ? ? ? Hb]; subst.
      by apply built_not_seen in Hb. }
    simpl in Ht. apply lookup_app_Some in Ht as [Ht|[Hlen2 Ht]].
    + eapply IH; [done|by left|done|]. by rewrite Hh.
    + apply list_lookup_singleton_Some in Ht as [_ <-].
      by rewrite fresh_task_dependant.
  - intros allow subtasks L d' n c1 rest _ _ tid t' Ht Hlen.
    apply lookup_lt_Some in Ht. lia.
  - intros name c deps allow subtasks L allow1 t L1 allow' subtasks' L' Hb IH1 Hsubs IH2
      d' n c1 rest Hdeps Hc1 tid t' Ht Hlen.
    destruct (proj1 built_grows _ _ _ _ _ Hb) as [Hg Hc].
    assert (Hg2 : grows (set_task_cache c t L1) L').
    { by apply (proj2 built_grows) in Hsubs. }
    destruct (decide (tid < length (heap L1))) as [Hlt|Hge].
    + destruct (lookup_lt_is_Some_2 _ _ Hlt) as [t1 Ht1].
      assert (heap L' !! tid = Some t1) by (by eapply (grows_lookup _ L')).
      assert (t1 = t') as -> by congruence.
      eapply IH1; [done| |done|done].
      destruct Hc1 as [?|(n' & rest' & [= _ <- _])]; [by left|by right].
    + eapply IH2; [done| |done|simpl; lia].
      left. simpl. destruct Hc1 as [?|(n' & rest' & [= _ <- _])]; [|done].
      by apply (grows_seen _ _ Hg).
Qed.

Lemma build_inv_same_heap L L' :
  build_inv L -> heap L' = heap L -> call_cache L ⊆ call_cache L' ->
  (forall p x, call_cache L' !! p = Some x -> call (G x) = p) ->
  (forall d, is_Some (dict_get (task_cache L) d) -> is_Some (dict_get (task_cache L') d)) ->
  build_inv L'.
Proof.
  intros [Hcc Hcan Hone] Hh Hsub Hcc' Htc. constructor; [done| |].
  - rewrite Hh. intros tid t Ht Hsc. destruct (Hcan _ _ Ht Hsc) as [H1 H2].
    split; [by eapply lookup_weaken|auto].
  - rewrite Hh. apply Hone.
Qed.

Lemma build_inv_apply_call_cache sc d L d1 L1 :
  apply_call_cache G sc d L = (d1, L1) -> build_inv L ->
  build_inv L1 /\
  (sc <> Unscoped -> call_cache L1 !! call (G d1) = Some d1).
Proof.
  unfold apply_call_cache. intros Hcc HI. destruct HI as [Hwf Hcan Hone].
  case_decide as Hsc; [injection Hcc as <- <-; done|].
  destruct (call_cache L !! call (G d)) as [x|] eqn:Hx; injection Hcc as <- <-.
  - split; [done|]. intros _. by rewrite (Hwf _ _ Hx).
  - split; [|intros _; apply lookup_insert_eq].
    apply (build_inv_same_heap L); try done.
    + simpl. by apply insert_subseteq.
    + simpl. intros p x. rewrite lookup_insert. case_decide; subst.
      * by intros [= <-].
      * apply Hwf.
Qed.

Lemma build_inv_set_task_cache d t L : build_inv L -> build_inv (set_task_cache d t L).
Proof.
  intros HI. apply (build_inv_same_heap L); try done.
  - apply HI.
  - intros d' Hd'. simpl. rewrite dict_get_set. by case_decide.
Qed.

Lemma build_inv_add_seen d L : build_inv L -> build_inv (add_seen d L).
Proof.
  intros HI. apply (build_inv_same_heap L); try done. apply HI.
Qed.

Lemma built_inv :
  (forall d L b t L', built d L b t L' -> build_inv L -> build_inv L') /\
  (forall deps allow subtasks L allow' subtasks' L',
     built_subs deps allow subtasks L allow' subtasks' L' ->
     build_inv L -> build_inv L').
Proof.
  apply built_both_ind.
  - intros d L ts d1 L1 t _ _ Hcc _ HI.
    eapply proj1, build_inv_apply_call_cache; [done|]. by apply build_inv_add_seen.
  - intros d L ts d1 L1 sc stack allow subtasks L2 cv _ Hts Hcc Hmiss _ _ _ Hsubs IH _ HI.
    assert (HI0 : build_inv (add_seen d L)) by by apply build_inv_add_seen.
    destruct (build_inv_apply_call_cache _ _ _ _ _ Hcc HI0) as [HI1 Hcan1].
    pose proof (IH HI1) as HI2.
    pose proof (proj2 built_grows _ _ _ _ _ _ _ Hsubs) as Hg.
    (* no Task whose scope is not Unscoped is for `d1` yet *)
    assert (Hnone : forall tid t, heap L2 !! tid = Some t -> t_scope t <> Unscoped ->
                      t_dependant t <> d1).
    { intros tid t Ht Hsc <-.
      destruct (decide (tid < length (heap L1))) as [Hlt|Hge].
      - destruct (lookup_lt_is_Some_2 _ _ Hlt) as [t1 Ht1].
        assert (heap L2 !! tid = Some t1) by (by eapply (grows_lookup _ L2)).
        assert (t1 = t) as -> by congruence.
        destruct (inv_canonical _ _ HI1 _ _ Ht1 Hsc) as [_ [x Hx]]. congruence.
      - destruct (dependencies (G (t_dependant t))) as [|[n c1] rest] eqn:Hdeps.
        + inversion Hsubs; subst. apply lookup_lt_Some in Ht. lia.
        + eapply (proj2 built_blocked _ _ _ _ _ _ _ Hsubs (t_dependant t)); eauto.
          lia. }
    destruct HI2 as [Hwf2 Hcan2 Hone2].
    constructor; simpl.
    + done.
    + intros tid t Ht Hsc. apply lookup_app_Some in Ht as [Ht|[Hlen Ht]].
      * destruct (Hcan2 _ _ Ht Hsc) as [H1 [x H2]]. split; [done|].
        rewrite dict_get_set. case_decide; eauto.
      * apply list_lookup_singleton_Some in Ht as [_ <-].
        rewrite fresh_task_dependant. rewrite dict_get_set, decide_True by done.
        split; [|eauto]. destruct cv as [value|]; simpl in Hsc; [done|].
        eapply lookup_weaken; [by apply Hcan1|apply Hg].
    + intros i j ti tj Hi Hj Hsi Hsj Heq.
      apply lookup_app_Some in Hi as [Hi|[Hleni Hi]];
        apply lookup_app_Some in Hj as [Hj|[Hlenj Hj]].
      * by eapply Hone2.
      * apply list_lookup_singleton_Some in Hj as [Hj <-].
        rewrite fresh_task_dependant in Heq. by destruct (Hnone _ _ Hi Hsi).
      * apply list_lookup_singleton_Some in Hi as [Hi <-].
        rewrite fresh_task_dependant in Heq. by destruct (Hnone _ _ Hj Hsj).
      * apply list_lookup_singleton_Some in Hi as [Hi _].
        apply list_lookup_singleton_Some in Hj as [Hj _]. lia.
  - done.
  - intros name c deps allow subtasks L allow1 t L1 allow' subtasks' L' _ IH1 _ IH2 HI.
    apply IH2, build_inv_set_task_cache, IH1, HI.
Qed.

Lemma build_inv_empty : build_inv empty_locals.
Proof.
  constructor; simpl.
  - intros p x. by rewrite lookup_empty.
  - intros tid t Ht. by destruct tid.
  - intros i j ti tj Hi. by destruct i.
Qed.

Lemma build_inv_unique L : build_inv L -> unique_scoped G (heap L).
Proof.
  intros [Hwf Hcan Hone] i j ti tj Hi Hj Hsi Hsj Heq.
  eapply Hone; try done.
  destruct (Hcan _ _ Hi Hsi) as [H1 _]. destruct (Hcan _ _ Hj Hsj) as [H2 _].
  rewrite Heq in H1. congruence.
Qed.

End UniqueFacts.

(* --------------------------------------------------------------------- *)
(* The Task of a description that is the only one for its provider       *)
(* --------------------------------------------------------------------- *)

Section RootFacts.
Variable G : DepId -> Dependant.
Variable is_async_context_manager : Provider -> bool.
Variable is_context_manager : Provider -> bool.
Variable is_async_gen_callable : Provider -> bool.
Variable is_gen_callable : Provider -> bool.
Variable is_coroutine_callable : Provider -> bool.
Variable st : ContainerState.

Local Abbreviation built := (built G is_async_context_manager
  is_context_manager is_async_gen_callable is_gen_callable is_coroutine_callable st).
Local Abbreviation built_subs := (built_subs G is_async_context_manager
  is_context_manager is_async_gen_callable is_gen_callable is_coroutine_callable st).
Local Abbreviation fresh_task := (fresh_task G is_async_context_manager
  is_context_manager is_async_gen_callable is_gen_callable is_coroutine_callable).
Local Abbreviation built_both_ind := (built_both_ind G is_async_context_manager
  is_context_manager is_async_gen_callable is_gen_callable is_coroutine_callable st).
Local Abbreviation built_grows := (built_grows G is_async_context_manager
  is_context_manager is_async_gen_callable is_gen_callable is_coroutine_callable st).
Local Abbreviation built_inv := (built_inv G is_async_context_manager
  is_context_manager is_async_gen_callable is_gen_callable is_coroutine_callable st).
Local Abbreviation build_inv := (build_inv G).

(* The description `d0` is the only one with its provider, and no binding
   substitutes it for another description. *)
Variable d0 : DepId.
Hypothesis provider_unique : forall d, call (G d) = call (G d0) -> d = d0.
Hypothesis not_bound_to : forall p, binds st !! p <> Some d0.





End RootFacts.

(* --------------------------------------------------------------------- *)
(* execute: what one call does to the container                          *)
(* --------------------------------------------------------------------- *)

Lemma ran_extends w w' evs : ran w w' evs -> extends w w' evs.
Proof. intros []. constructor; try done. congruence. Qed.

Lemma extends_refl w : extends w w [].
Proof. apply ran_extends, ran_refl. Qed.

Lemma extends_trans w w1 w2 evs1 evs2 :
  extends w w1 evs1 -> extends w1 w2 evs2 -> extends w w2 (evs1 ++ evs2).
Proof.
  intros [Hl1 Hb1 Hs1 Hd1 Hc1 Hk1 He1] [Hl2 Hb2 Hs2 Hd2 Hc2 Hk2 He2].
  constructor; try congruence.
  - by rewrite Hl2, Hl1, app_assoc.
  - intros s l Hl. apply Hk1 in Hl. apply Hk2 in Hl.
    unfold entered. rewrite omap_app. by rewrite Hl, app_assoc.
  - intros s. unfold exited. rewrite omap_app.
    specialize (He1 s). specialize (He2 s). unfold exited in He1, He2.
    by rewrite He1, He2.
Qed.

Lemma cache_store_extends s p v w r w' :
  cache_store s p v w = (r, w') -> extends w w' [].
Proof.
  unfold cache_store. destruct (cached_values (w_state w) !! s) as [bucket|] eqn:Hb;
    intros [= <- <-]; [|apply extends_refl].
  constructor; simpl; try done.
  - by rewrite app_nil_r.
  - rewrite dom_insert_L. apply elem_of_dom_2 in Hb. set_solver.
  - intros s' l Hl. by rewrite app_nil_r.
Qed.

Section ExecuteFacts.
Variable G : DepId -> Dependant.
Variable is_async_context_manager : Provider -> bool.
Variable is_context_manager : Provider -> bool.
Variable is_async_gen_callable : Provider -> bool.
Variable is_gen_callable : Provider -> bool.
Variable is_coroutine_callable : Provider -> bool.
Variable provider_call : Provider -> list (string * Value) -> nat -> Value + Exn.

Local Abbreviation build_task := (build_task G is_async_context_manager
  is_context_manager is_async_gen_callable is_gen_callable is_coroutine_callable).
Local Abbreviation built := (built G is_async_context_manager
  is_context_manager is_async_gen_callable is_gen_callable is_coroutine_callable).
Local Abbreviation task_result := (task_result provider_call).
Local Abbreviation steps := (steps provider_call).
Local Abbreviation commit := (commit G).
Local Abbreviation commit_all := (commit_all G provider_call).
Local Abbreviation execute := (execute G is_async_context_manager
  is_context_manager is_async_gen_callable is_gen_callable is_coroutine_callable
  provider_call).

Lemma commit_extends t v w r w' : commit t v w = (r, w') -> extends w w' [].
Proof.
  unfold commit. destruct (resolve_scope (w_state w) (t_scope t)) as [[| |s]|e|];
    try (intros [= <- <-]; apply extends_refl).
  apply cache_store_extends.
Qed.

Lemma task_result_extends fuel tid h w r h' w' :
  heap_wf h -> task_result fuel tid h w = (r, (h', w')) ->
  heap_wf h' /\ exists evs, extends w w' evs.
Proof.
  intros Hwf Hres. apply task_result_ok in Hres as (Hs & _); [|done].
  split; [by eapply steps_wf|].
  apply steps_ran in Hs as [evs Hran]. exists evs. by apply ran_extends.
Qed.

Lemma commit_all_extends fuel tasks h w r h' w' :
  heap_wf h -> commit_all fuel tasks h w = (r, (h', w')) ->
  exists evs, extends w w' evs.
Proof.
  revert h w. induction tasks as [|tid rest IH]; simpl; intros h w Hwf Hc.
  - injection Hc as <- <- <-. eexists. apply extends_refl.
  - destruct (h !! tid) as [t|]; [|injection Hc as <- <- <-; eexists; apply extends_refl].
    destruct (resolve_scope (w_state w) (t_scope t)) as [[| |s]|e|];
      try (injection Hc as <- <- <-; eexists; apply extends_refl);
      try (by eapply IH).
    destruct (task_result fuel tid h w) as [r1 [h1 w1]] eqn:Hres.
    apply task_result_extends in Hres as [Hwf1 [evs1 He1]]; [|done].
    destruct r1 as [v|e|]; try (injection Hc as <- <- <-; by eexists).
    destruct (cache_store s _ v w1) as [r2 w2] eqn:Hst.
    apply cache_store_extends in Hst.
    destruct r2 as [[]|e|].
    + apply IH in Hc as [evs2 He2]; [|done]. eexists.
      eapply extends_trans; [done|]. eapply extends_trans; done.
    + injection Hc as <- <- <-. eexists. eapply extends_trans; done.
    + injection Hc as <- <- <-. eexists. eapply extends_trans; done.
Qed.

Lemma execute_extends fuel d w r w' :
  execute fuel d w = (r, w') -> exists evs, extends w w' evs.
Proof.
  unfold execute.
  destruct (build_task fuel (w_state w) d empty_locals) as [[[b tid] L]|e|] eqn:Hb;
    try (intros [= <- <-]; eexists; apply extends_refl).
  apply build_task_built in Hb.
  apply (proj1 (built_wf _ _ _ _ _ _ _)) in Hb as [[Hwf _] _]; [|apply locals_wf_empty].
  destruct (task_result fuel tid (heap L) w) as [r1 [h1 w1]] eqn:Hres.
  apply task_result_extends in Hres as [Hwf1 [evs1 He1]]; [|done].
  destruct r1 as [v|e|]; try (intros [= <- <-]; by eexists).
  destruct (h1 !! tid) as [t|]; [|intros [= <- <-]; by eexists].
  destruct (commit t v w1) as [r2 w2] eqn:Hc. apply commit_extends in Hc.
  assert (He2 : extends w w2 (evs1 ++ [])) by by eapply extends_trans.
  destruct r2 as [[]|e|]; try (intros [= <- <-]; by eexists).
  destruct (commit_all fuel _ h1 w2) as [r3 [h3 w3]] eqn:Hca.
  apply commit_all_extends in Hca as [evs3 He3]; [|done].
  assert (extends w w3 ((evs1 ++ []) ++ evs3)) by by eapply extends_trans.
  destruct r3 as [[]|e|]; intros [= <- <-]; by eexists.
Qed.

End ExecuteFacts.

(* --------------------------------------------------------------------- *)
(* execute: what is written to the result cache                          *)
(* --------------------------------------------------------------------- *)

#[export] Instance task_le_preorder : PreOrder task_le.
Proof.
  split.
  - intros t. by repeat split.
  - intros t1 t2 t3 (H1 & H2 & H3 & H4 & H5) (H1' & H2' & H3' & H4' & H5').
    repeat split; try congruence. auto.
Qed.

Lemma heap_le_refl h : heap_le h h.
Proof.
  unfold heap_le. apply Forall2_same_length_lookup_2; [done|].
  intros i x y Hx Hy. assert (x = y) as -> by congruence. reflexivity.
Qed.

Lemma heap_le_trans h1 h2 h3 : heap_le h1 h2 -> heap_le h2 h3 -> heap_le h1 h3.
Proof. unfold heap_le. intros H1 H2. by etrans. Qed.

Lemma heap_le_lookup_l h h' i t :
  heap_le h h' -> h !! i = Some t -> exists t', h' !! i = Some t' /\ task_le t t'.
Proof. apply Forall2_lookup_l. Qed.

Lemma heap_le_lookup_r h h' i t' :
  heap_le h h' -> h' !! i = Some t' -> exists t, h !! i = Some t /\ task_le t t'.
Proof. apply Forall2_lookup_r. Qed.

Lemma heap_le_store tid t v h :
  h !! tid = Some t -> t_result t = None -> heap_le h (store_result tid v h).
Proof.
  intros Ht Hr. unfold heap_le. apply Forall2_same_length_lookup_2.
  - unfold store_result. rewrite Ht. by rewrite length_insert.
  - intros i x y Hx. rewrite store_result_lookup. case_decide; subst.
    + rewrite Hx. intros [= <-]. assert (x = t) as -> by congruence.
      repeat split; try done. simpl. congruence.
    + intros Hy. assert (x = y) as -> by congruence. done.
Qed.

Lemma unique_scoped_le G h h' : heap_le h h' -> unique_scoped G h -> unique_scoped G h'.
Proof.
  intros Hle Hu i j ti tj Hi Hj Hsi Hsj Heq.
  destruct (heap_le_lookup_r _ _ _ _ Hle Hi) as (ti0 & Hi0 & (Hd1 & Hs1 & _)).
  destruct (heap_le_lookup_r _ _ _ _ Hle Hj) as (tj0 & Hj0 & (Hd2 & Hs2 & _)).
  eapply (Hu i j ti0 tj0); try done; congruence.
Qed.

Lemma cached_cache_store s p v w w' :
  cache_store s p v w = (Return tt, w') ->
  (forall s' p', cached (w_state w') s' p' =
     if decide (s' = s /\ p' = p) then Some v else cached (w_state w) s' p') /\
  w_log w' = w_log w /\ binds (w_state w') = binds (w_state w) /\
  scopes (w_state w') = scopes (w_state w) /\ stacks (w_state w') = stacks (w_state w).
Proof.
  unfold cache_store.
  destruct (cached_values (w_state w) !! s) as [bucket|] eqn:Hb; [|done].
  intros [= <-]. simpl. split; [|done].
  intros s' p'. unfold cached. simpl. rewrite lookup_insert.
  destruct (decide (s = s')) as [<-|Hs]; simpl.
  - rewrite Hb. simpl. rewrite lookup_insert.
    destruct (decide (p = p')) as [<-|Hp].
    + by rewrite decide_True.
    + rewrite decide_False; [done|]. by intros [_ ?].
  - rewrite decide_False; [done|]. by intros [? _].
Qed.

Section CommitFacts.
Variable G : DepId -> Dependant.
Variable provider_call : Provider -> list (string * Value) -> nat -> Value + Exn.

Local Abbreviation task_result := (task_result provider_call).
Local Abbreviation steps := (steps provider_call).
Local Abbreviation commit_all := (commit_all G provider_call).
Local Abbreviation cell_ok := (cell_ok G).
Local Abbreviation unique_scoped := (unique_scoped G).

Lemma steps_heap_le ok h w h' w' : steps ok h w h' w' -> heap_le h h'.
Proof.
  induction 1 as [ok h w|ok tid t values h w v w1 h2 w2 Ht Hr Hinv _ IH
                  |tid t values h w e w1 Ht Hr Hinv].
  - apply heap_le_refl.
  - eapply heap_le_trans; [by eapply heap_le_store|done].
  - apply heap_le_refl.
Qed.

Lemma steps_cached ok h w h' w' :
  steps ok h w h' w' -> cached_values (w_state w') = cached_values (w_state w).
Proof. intros [evs Hran]%steps_ran. apply Hran. Qed.

Lemma cell_ok_le h h' st tid : heap_le h h' -> cell_ok h st tid -> cell_ok h' st tid.
Proof.
  intros Hle Hok t' s Ht' Hs.
  destruct (heap_le_lookup_r _ _ _ _ Hle Ht') as (t & Ht & (Hd & Hsc & _ & _ & Hres)).
  destruct (Hok t s Ht) as (val & Hval & Hc); [congruence|].
  exists val. split; [auto|]. by rewrite Hd.
Qed.

Lemma resolve_scope_Named st sc s :
  resolve_scope st sc = Return (Named s) -> sc <> Unscoped /\ (forall s', sc = Named s' -> s' = s).
Proof.
  destruct sc as [| |s0]; simpl; [done| |].
  - intros _. split; [done|]. by intros s'.
  - intros [= ->]. split; [done|]. by intros s' [= ->].
Qed.

(* The loop of `execute` over task_cache.values(). *)
Lemma commit_all_cells fuel tasks h w h' w' :
  heap_wf h -> unique_scoped h ->
  commit_all fuel tasks h w = (Return tt, (h', w')) ->
  heap_le h h' /\
  (forall tid, cell_ok h (w_state w) tid -> cell_ok h' (w_state w') tid) /\
  (forall tid, tid ∈ tasks -> cell_ok h' (w_state w') tid).
Proof.
  revert h w. induction tasks as [|tid1 rest IH]; simpl; intros h w Hwf Hu Hc.
  - injection Hc as <- <-. split; [apply heap_le_refl|]. split; [done|].
    by intros tid ?%elem_of_nil.
  - destruct (h !! tid1) as [t1|] eqn:Ht1; [|done].
    destruct (resolve_scope (w_state w) (t_scope t1)) as [sc| |] eqn:Hsc; [|done|done].
    assert (Hskip : (forall s, sc <> Named s) ->
              commit_all fuel rest h w = (Return tt, (h', w')) ->
              heap_le h h' /\
              (forall tid, cell_ok h (w_state w) tid -> cell_ok h' (w_state w') tid) /\
              (forall tid, tid ∈ tid1 :: rest -> cell_ok h' (w_state w') tid)).
    { intros Hn Hc'. destruct (IH _ _ Hwf Hu Hc') as (Hle & Hpres & Hnew).
      split; [done|]. split; [done|].
      intros tid [->|Hin]%elem_of_cons; [|by auto].
      apply Hpres. intros t s Ht Hs. assert (t = t1) as -> by congruence.
      rewrite Hs in Hsc. simpl in Hsc. injection Hsc as <-. by destruct (Hn s). }
    destruct sc as [| |s1]; [by apply Hskip|by apply Hskip|]. clear Hskip.
    destruct (task_result fuel tid1 h w) as [r1 [h1 w1]] eqn:Hres.
    destruct (task_result_ok provider_call fuel _ _ _ _ _ _ Hwf Hres) as (Hs1 & _ & Hres1).
    destruct r1 as [v1| |]; [|done|done]. simpl in Hs1.
    destruct (Hres1 v1 eq_refl) as (t1' & Ht1' & Hv1).
    pose proof (steps_heap_le _ _ _ _ _ Hs1) as Hle1.
    pose proof (steps_cached _ _ _ _ _ Hs1) as Hc1.
    destruct (heap_le_lookup_l _ _ _ _ Hle1 Ht1) as (t1'' & Ht1'' & (Hd1 & Hsc1 & _)).
    assert (t1'' = t1') as -> by congruence.
    destruct (cache_store s1 _ v1 w1) as [r2 w2] eqn:Hst.
    destruct r2 as [[]| |]; [|done|done].
    destruct (cached_cache_store _ _ _ _ _ Hst) as (Hcell & _).
    assert (Hu1 : unique_scoped h1) by by eapply unique_scoped_le.
    destruct (IH h1 w2) as (Hle2 & Hpres2 & Hnew2);
      [by eapply steps_wf|done|done|].
    destruct (resolve_scope_Named _ _ _ Hsc) as [Hne1 Hs1'].
    (* the write keeps what was there for the other Tasks *)
    assert (Hkeep : forall tid, cell_ok h1 (w_state w1) tid -> cell_ok h1 (w_state w2) tid).
    { intros tid Hok t s Ht Hs. destruct (Hok t s Ht Hs) as (val & Hval & Hcv).
      exists val. split; [done|]. rewrite Hcell. case_decide as Heq; [|done].
      destruct Heq as [-> Hp]. rewrite <- Hd1 in Hp.
      assert (tid = tid1) as ->.
      { eapply (Hu1 tid tid1 t t1'); try done; congruence. }
      congruence. }
    split; [by eapply heap_le_trans|]. split.
    + intros tid Hok. apply Hpres2, Hkeep. eapply cell_ok_le; [done|].
      intros t s Ht Hs. destruct (Hok t s Ht Hs) as (val & ? & Hcv).
      exists val. split; [done|]. unfold cached in *. by rewrite Hc1.
    + intros tid [->|Hin]%elem_of_cons; [|by auto].
      apply Hpres2. intros t s Ht Hs. assert (t = t1') as -> by congruence.
      exists v1. split; [done|]. rewrite Hcell, decide_True; [done|].
      split; [|by rewrite Hd1]. apply Hs1'. congruence.
Qed.

End CommitFacts.

(* --------------------------------------------------------------------- *)
(* Scopes                                                                *)
(* --------------------------------------------------------------------- *)

Lemma extends_scoped_run w w' evs : extends w w' evs -> scoped_run w w' evs.
Proof. intros []. constructor; done. Qed.

Lemma scoped_run_refl w : scoped_run w w [].
Proof. apply extends_scoped_run, extends_refl. Qed.

Lemma scoped_run_trans w w1 w2 evs1 evs2 :
  scoped_run w w1 evs1 -> scoped_run w1 w2 evs2 -> scoped_run w w2 (evs1 ++ evs2).
Proof.
  intros [Hl1 Hs1 Hd1 Hc1 Hk1 He1] [Hl2 Hs2 Hd2 Hc2 Hk2 He2].
  constructor; try congruence.
  - by rewrite Hl2, Hl1, app_assoc.
  - intros s l Hl. apply Hk1 in Hl. apply Hk2 in Hl.
    unfold entered. rewrite omap_app. by rewrite Hl, app_assoc.
  - intros s Hs. unfold exited. rewrite omap_app.
    specialize (He1 s Hs). rewrite <- Hd1 in Hs. specialize (He2 s Hs).
    unfold exited in He1, He2. by rewrite He1, He2.
Qed.

Lemma scoped_run_consistent w w' evs :
  scoped_run w w' evs -> consistent (w_state w) -> consistent (w_state w').
Proof. intros [] Hc. unfold consistent in *. congruence. Qed.

Lemma entered_exits s s' l : entered s (EvExit s' <$> l) = [].
Proof. induction l; simpl; done. Qed.

Lemma exited_exits_ne s s' l : s <> s' -> exited s (EvExit s' <$> l) = [].
Proof.
  intros Hne. induction l as [|g l IH]; simpl; [done|].
  unfold exited. simpl. rewrite decide_False by done. exact IH.
Qed.

Lemma exited_exits s l : exited s (EvExit s <$> l) = l.
Proof.
  induction l as [|g l IH]; simpl; [done|].
  unfold exited. simpl. rewrite decide_True by done. f_equal. exact IH.
Qed.

(* An induction principle for programs that reaches inside the bodies. *)
Lemma Op_nested_ind (P : Op -> Prop) :
  (forall d, P (OpExecute d)) ->
  (forall target source, P (OpBind target source)) ->
  (forall e, P (OpRaise e)) ->
  (forall s body, Forall P body -> P (OpScope s body)) ->
  forall op, P op.
Proof.
  intros He Hb Hr Hs. fix IH 1. intros [d|target source|e|s body].
  - apply He.
  - apply Hb.
  - apply Hr.
  - apply Hs. induction body as [|op body IHbody]; constructor; [apply IH|done].
Qed.

Section ScopeFacts.
Variable G : DepId -> Dependant.
Variable is_async_context_manager : Provider -> bool.
Variable is_context_manager : Provider -> bool.
Variable is_async_gen_callable : Provider -> bool.
Variable is_gen_callable : Provider -> bool.
Variable is_coroutine_callable : Provider -> bool.
Variable provider_call : Provider -> list (string * Value) -> nat -> Value + Exn.
Variable guard_exit : Guard -> option Exn -> ExitOutcome.

Local Abbreviation execute := (execute G is_async_context_manager
  is_context_manager is_async_gen_callable is_gen_callable is_coroutine_callable
  provider_call).
Local Abbreviation run_op := (run_op G is_async_context_manager
  is_context_manager is_async_gen_callable is_gen_callable is_coroutine_callable
  provider_call guard_exit).
Local Abbreviation run_ops := (run_ops G is_async_context_manager
  is_context_manager is_async_gen_callable is_gen_callable is_coroutine_callable
  provider_call guard_exit).
Local Abbreviation enter_scope := (enter_scope guard_exit).
Local Abbreviation aexit := (aexit guard_exit).

Lemma run_op_scope fuel s body w :
  run_op fuel (OpScope s body) w = enter_scope (run_ops fuel body) s w.
Proof. reflexivity. Qed.

Lemma exit_callbacks_log s l es w es' w' :
  foldl (exit_callback guard_exit s) (es, w) l = (es', w') ->
  w_state w' = w_state w /\ w_log w' = w_log w ++ (EvExit s <$> l).
Proof.
  revert es w. induction l as [|g l IH]; simpl; intros es w H.
  - injection H as <- <-. by rewrite app_nil_r.
  - unfold exit_callback at 2 in H. simpl in H.
    destruct (guard_exit g (exc_details es)); apply IH in H as [-> ->]; simpl;
      by rewrite <- app_assoc.
Qed.

Lemma aexit_log s stack exc w r w' :
  aexit s stack exc w = (r, w') ->
  w_state w' = w_state w /\ w_log w' = w_log w ++ (EvExit s <$> reverse stack) /\
  r <> OutOfFuel.
Proof.
  unfold aexit.
  destruct (foldl _ _ (reverse stack)) as [es w1] eqn:Hf.
  apply exit_callbacks_log in Hf as [Hst Hlog].
  destruct (pending_raise es); [destruct (exc_details es)|destruct exc;
    [destruct (suppressed_exc es)|]]; intros [= <- <-]; done.
Qed.

(* Entering a scope that is not active, around a body that leaves the
   scopes it enters. *)
Lemma enter_scope_run body s w r w' :
  (forall w0 r0 w0', consistent (w_state w0) -> body w0 = (r0, w0') ->
     exists evs, scoped_run w0 w0' evs) ->
  consistent (w_state w) ->
  s ∉ dom (stacks (w_state w)) ->
  enter_scope body s w = (r, w') ->
  exists rb w1 w2 evs,
    w1 = {| w_state := {| binds := binds (w_state w);
                          cached_values := <[s := ∅]> (cached_values (w_state w));
                          stacks := <[s := []]> (stacks (w_state w));
                          scopes := scopes (w_state w) ++ [s] |};
            w_log := w_log w |} /\
    body w1 = (rb, w2) /\
    scoped_run w1 w2 evs /\
    stacks (w_state w2) !! s = Some (entered s evs) /\
    w_state w' = {| binds := binds (w_state w);
                    cached_values := delete s (cached_values (w_state w2));
                    stacks := delete s (stacks (w_state w2));
                    scopes := scopes (w_state w) |} /\
    (rb = OutOfFuel -> r = OutOfFuel /\ w_log w' = w_log w2) /\
    (rb <> OutOfFuel -> r <> OutOfFuel /\
       w_log w' = w_log w2 ++ (EvExit s <$> reverse (entered s evs))).
Proof.
  intros Hbody Hcons Hs. unfold enter_scope. rewrite decide_False by done.
  set (w1 := {| w_state := _; w_log := w_log w |}).
  destruct (body w1) as [rb w2] eqn:Hb.
  assert (Hc1 : consistent (w_state w1)).
  { unfold consistent in *. simpl. rewrite !dom_insert_L. by rewrite Hcons. }
  destruct (Hbody _ _ _ Hc1 Hb) as [evs Hrun].
  assert (Hstack : stacks (w_state w2) !! s = Some (entered s evs)).
  { rewrite (sr_stacks _ _ _ Hrun s []); [done|]. simpl. apply lookup_insert_eq. }
  assert (Hscopes : removelast (scopes (w_state w2)) = scopes (w_state w)).
  { rewrite (sr_scopes _ _ _ Hrun). simpl. apply removelast_last. }
  rewrite Hstack, Hscopes. simpl. intros Hexit.
  exists rb, w1, w2, evs. split; [done|]. split; [done|]. split; [done|].
  split; [done|].
  destruct rb as [[]|e|].
  - apply aexit_log in Hexit as (Hst & Hlog & Hr). simpl in *.
    split; [done|]. split; [done|]. by intros _.
  - apply aexit_log in Hexit as (Hst & Hlog & Hr). simpl in *.
    split; [done|]. split; [done|]. by intros _.
  - injection Hexit as <- <-. simpl. split; [done|]. split; [done|]. by intros [].
Qed.

Lemma enter_scope_scoped_run body s w r w' :
  (forall w0 r0 w0', consistent (w_state w0) -> body w0 = (r0, w0') ->
     exists evs, scoped_run w0 w0' evs) ->
  consistent (w_state w) ->
  enter_scope body s w = (r, w') ->
  exists evs, scoped_run w w' evs.
Proof.
  intros Hbody Hcons Hrun.
  destruct (decide (s ∈ dom (stacks (w_state w)))) as [Hin|Hnin].
  { unfold enter_scope in Hrun. rewrite decide_True in Hrun by done.
    injection Hrun as <- <-. eexists. apply scoped_run_refl. }
  destruct (enter_scope_run _ _ _ _ _ Hbody Hcons Hnin Hrun)
    as (rb & w1 & w2 & evs & -> & Hb & Hsr & Hstack & Hst & Hfuel & Hexit).
  destruct Hsr as [Hl Hsc Hds Hdc Hk He]. simpl in *.
  assert (Hnc : s ∉ dom (cached_values (w_state w))) by (by rewrite Hcons).
  assert (Hlog : exists tail, w_log w' = w_log w2 ++ (EvExit s <$> tail)).
  { destruct rb as [[]|e|].
    - destruct Hexit as [_ ->]; [done|]. by eexists.
    - destruct Hexit as [_ ->]; [done|]. by eexists.
    - exists []. destruct Hfuel as [_ ->]; [done|]. by rewrite app_nil_r. }
  destruct Hlog as [tail Hlog].
  exists (evs ++ (EvExit s <$> tail)). constructor; rewrite ?Hst; simpl.
  - by rewrite Hlog, Hl, app_assoc.
  - done.
  - rewrite dom_delete_L, Hds, dom_insert_L. set_solver.
  - rewrite dom_delete_L, Hdc, dom_insert_L. set_solver.
  - intros s' l Hl'. assert (s' <> s) by (intros ->; by apply elem_of_dom_2 in Hl').
    rewrite lookup_delete_ne by done.
    unfold entered. rewrite omap_app. fold (entered s' evs).
    fold (entered s' (EvExit s <$> tail)). rewrite entered_exits, app_nil_r.
    apply Hk. by rewrite lookup_insert_ne.
  - intros s' Hs'. assert (s' <> s) by (by intros ->).
    unfold exited. rewrite omap_app. fold (exited s' evs).
    fold (exited s' (EvExit s <$> tail)). rewrite exited_exits_ne by done.
    rewrite He; [done|]. rewrite dom_insert_L. set_solver.
Qed.

Lemma run_ops_scoped_run_of fuel ops :
  Forall (fun op => forall w r w', consistent (w_state w) -> run_op fuel op w = (r, w') ->
            exists evs, scoped_run w w' evs) ops ->
  forall w r w', consistent (w_state w) -> run_ops fuel ops w = (r, w') ->
    exists evs, scoped_run w w' evs.
Proof.
  unfold run_ops.
  induction 1 as [|op ops Hop Hops IH]; simpl; intros w r w' Hcons Hrun.
  - injection Hrun as <- <-. eexists. apply scoped_run_refl.
  - destruct (run_op fuel op w) as [r1 w1] eqn:H1.
    destruct (Hop _ _ _ Hcons H1) as [evs1 Hsr1].
    destruct r1 as [[]|e|]; try (injection Hrun as <- <-; by eexists).
    apply IH in Hrun as [evs2 Hsr2]; [|by eapply scoped_run_consistent].
    eexists. by eapply scoped_run_trans.
Qed.

Lemma run_op_scoped_run fuel op :
  forall w r w', consistent (w_state w) -> run_op fuel op w = (r, w') ->
    exists evs, scoped_run w w' evs.
Proof.
  induction op as [d|target source|e|s body IH] using Op_nested_ind; intros w r w' Hcons.
  - simpl. destruct (execute fuel d w) as [r1 w1] eqn:He.
    apply execute_extends in He as [evs He]. apply extends_scoped_run in He.
    destruct r1; intros [= <- <-]; by eexists.
  - simpl. intros [= <- <-]. exists []. constructor; simpl; try done.
    + by rewrite app_nil_r.
    + apply dom_fmap_L.
    + intros s l Hl. by rewrite app_nil_r.
  - simpl. intros [= <- <-]. eexists. apply scoped_run_refl.
  - rewrite run_op_scope. apply enter_scope_scoped_run; [|done].
    by apply run_ops_scoped_run_of.
Qed.

Lemma run_ops_scoped_run fuel ops w r w' :
  consistent (w_state w) -> run_ops fuel ops w = (r, w') ->
  exists evs, scoped_run w w' evs.
Proof.
  apply run_ops_scoped_run_of. apply Forall_forall. intros op _.
  apply run_op_scoped_run.
Qed.

End ScopeFacts.

(* --------------------------------------------------------------------- *)
(* The recursion budget: on a finite graph, more budget than nodes is    *)
(* enough, and the outcome does not depend on the budget                 *)
(* --------------------------------------------------------------------- *)

Lemma resolve_scope_not_fuel st sc : resolve_scope st sc <> OutOfFuel.
Proof.
  destruct sc; simpl; try done. case_decide; [done|]. by destruct (last _).
Qed.

Lemma check_scope_not_fuel st sc : check_scope st sc <> OutOfFuel.
Proof. destruct sc; simpl; try done. by case_decide. Qed.

Lemma find_cached_not_fuel st p l : find_cached st p l <> OutOfFuel.
Proof.
  induction l as [|s l IH]; simpl; [done|].
  destruct (cached_values st !! s) as [bucket|]; [|done].
  by destruct (bucket !! p).
Qed.

Lemma stack_for_not_fuel st sc : stack_for st sc <> OutOfFuel.
Proof.
  unfold stack_for. destruct sc as [| |s]; simpl; try done.
  - destruct (last (scopes st)); simpl; [|done]. by case_decide.
  - by case_decide.
Qed.

Lemma cache_store_not_fuel s p v w : (cache_store s p v w).1 <> OutOfFuel.
Proof. unfold cache_store. by destruct (cached_values (w_state w) !! s). Qed.

Lemma unseen_mono N L L' : seen L ⊆ seen L' -> unseen N L' <= unseen N L.
Proof. intros Hsub. apply subseteq_size. set_solver. Qed.

Lemma unseen_add_seen N d L :
  d < N -> d ∉ seen L -> unseen N (add_seen d L) < unseen N L.
Proof.
  intros Hd Hseen. apply subset_size. simpl. split; [set_solver|].
  intros Hsub. assert (Hin : d ∈ (set_seq 0 N ∖ seen L : gset nat)).
  { apply elem_of_difference. split; [|done]. apply elem_of_set_seq. lia. }
  apply Hsub in Hin. set_solver.
Qed.

Lemma unseen_empty N : unseen N empty_locals = N.
Proof.
  unfold unseen. simpl. rewrite difference_empty_L. apply size_set_seq.
Qed.

Section FuelFacts.
Variable G : DepId -> Dependant.
Variable is_async_context_manager : Provider -> bool.
Variable is_context_manager : Provider -> bool.
Variable is_async_gen_callable : Provider -> bool.
Variable is_gen_callable : Provider -> bool.
Variable is_coroutine_callable : Provider -> bool.
Variable provider_call : Provider -> list (string * Value) -> nat -> Value + Exn.
Variable guard_exit : Guard -> option Exn -> ExitOutcome.

Local Abbreviation build_task := (build_task G is_async_context_manager
  is_context_manager is_async_gen_callable is_gen_callable is_coroutine_callable).
Local Abbreviation built := (built G is_async_context_manager
  is_context_manager is_async_gen_callable is_gen_callable is_coroutine_callable).
Local Abbreviation built_subs := (built_subs G is_async_context_manager
  is_context_manager is_async_gen_callable is_gen_callable is_coroutine_callable).
Local Abbreviation task_result := (task_result provider_call).
Local Abbreviation commit_all := (commit_all G provider_call).
Local Abbreviation execute := (execute G is_async_context_manager
  is_context_manager is_async_gen_callable is_gen_callable is_coroutine_callable
  provider_call).
Local Abbreviation run_op := (run_op G is_async_context_manager
  is_context_manager is_async_gen_callable is_gen_callable is_coroutine_callable
  provider_call guard_exit).
Local Abbreviation run_ops := (run_ops G is_async_context_manager
  is_context_manager is_async_gen_callable is_gen_callable is_coroutine_callable
  provider_call guard_exit).

Lemma apply_binds_below N st d :
  binds_below N st -> d < N -> apply_binds G st d < N.
Proof.
  intros Hb Hd. unfold apply_binds.
  destruct (binds st !! call (G d)) as [x|] eqn:Hx; [by eapply Hb|done].
Qed.

Lemma apply_call_cache_below N sc d L d1 L1 :
  d < N -> call_cache_below N L -> apply_call_cache G sc d L = (d1, L1) ->
  d1 < N /\ call_cache_below N L1 /\ seen L1 = seen L /\ heap L1 = heap L.
Proof.
  intros Hd Hcc. unfold apply_call_cache. case_decide; [by intros [= <- <-]|].
  destruct (call_cache L !! call (G d)) as [x|] eqn:Hx; intros [= <- <-].
  - split; [by eapply Hcc|done].
  - split; [done|]. split; [|done]. intros p x. simpl.
    destruct (decide (p = call (G d))) as [->|Hne].
    + rewrite lookup_insert_eq. by intros [= <-].
    + rewrite lookup_insert_ne by done. apply Hcc.
Qed.

(* A call of `_build_task` on one of the first `N` nodes stays among
   them, and allocates at most as many Tasks as it visits nodes. *)
Lemma built_below N st :
  closed_below G N -> binds_below N st ->
  (forall d L b t L', built st d L b t L' -> d < N -> call_cache_below N L ->
     call_cache_below N L' /\
     length (heap L') + unseen N L' <= length (heap L) + unseen N L) /\
  (forall deps allow subtasks L allow' subtasks' L',
     built_subs st deps allow subtasks L allow' subtasks' L' ->
     Forall (fun kc => kc.2 < N) deps -> call_cache_below N L ->
     call_cache_below N L' /\
     length (heap L') + unseen N L' <= length (heap L) + unseen N L).
Proof.
  intros Hg Hb. apply built_both_ind.
  - intros d L task_scope d1 L1 t Hseen _ Hcc _ Hd Hbelow.
    eapply apply_call_cache_below in Hcc as (_ & Hcc1 & Hs & Hh);
      [|by apply apply_binds_below|done].
    split; [done|]. rewrite Hh. simpl.
    pose proof (unseen_add_seen N d L Hd Hseen) as Hlt.
    unfold unseen in *. rewrite Hs. lia.
  - intros d L task_scope d1 L1 sc stack allow subtasks L2 cv Hseen _ Hcc _ _ _ _ _ IH _
      Hd Hbelow.
    eapply apply_call_cache_below in Hcc as (Hd1 & Hcc1 & Hs & Hh);
      [|by apply apply_binds_below|done].
    destruct (IH (Hg d1 Hd1) Hcc1) as [Hcc2 Hlen].
    split; [done|]. simpl. rewrite length_app. simpl.
    pose proof (unseen_add_seen N d L Hd Hseen) as Hlt.
    rewrite Hh in Hlen. simpl in Hlen.
    unfold unseen in *. simpl in *. rewrite Hs in Hlen. lia.
  - intros. split; [done|lia].
  - intros name c deps allow subtasks L allow1 t L1 allow' subtasks' L' _ IH1 _ IH2
      Hdeps Hbelow.
    apply Forall_cons in Hdeps as [Hc Hdeps]. simpl in Hc.
    destruct (IH1 Hc Hbelow) as [Hcc1 Hlen1].
    destruct (IH2 Hdeps Hcc1) as [Hcc2 Hlen2].
    split; [done|]. simpl in Hlen2. unfold unseen in *. simpl in *. lia.
Qed.

Lemma build_subtasks_enough_fuel N st m rec :
  closed_below G N -> binds_below N st ->
  (forall c L, c < N -> call_cache_below N L -> unseen N L < m ->
     rec c L <> OutOfFuel) ->
  (forall c L b t L', rec c L = Return (b, t, L') -> built st c L b t L') ->
  forall deps allow subtasks L,
    Forall (fun kc => kc.2 < N) deps -> call_cache_below N L -> unseen N L < m ->
    build_subtasks rec deps allow subtasks L <> OutOfFuel.
Proof.
  intros Hg Hb Hrec Hbuilt deps.
  induction deps as [|[name c] deps IH]; simpl; intros allow subtasks L Hdeps Hcc Hm;
    [done|].
  apply Forall_cons in Hdeps as [Hc Hdeps]. simpl in Hc.
  destruct (rec c L) as [[[allow1 t] L1]|e|] eqn:Hr; simpl;
    [|done|by destruct (Hrec c L Hc Hcc Hm)].
  apply Hbuilt in Hr.
  destruct (proj1 (built_below N st Hg Hb) _ _ _ _ _ Hr Hc Hcc) as [Hcc1 _].
  apply IH; [done|done|].
  apply (proj1 (built_grows _ _ _ _ _ _ _)) in Hr as [Hgr _].
  pose proof (unseen_mono N L L1 (grows_seen _ _ Hgr)) as Hle.
  unfold unseen in *. simpl. lia.
Qed.

(* `_build_task` returns or raises when the budget exceeds the number of
   nodes it has not visited. *)
Lemma build_task_enough_fuel N st :
  closed_below G N -> binds_below N st ->
  forall fuel d L, d < N -> call_cache_below N L -> unseen N L < fuel ->
    build_task fuel st d L <> OutOfFuel.
Proof.
  intros Hg Hb fuel. induction fuel as [|fuel IH]; intros d L Hd Hcc Hm; [lia|].
  simpl. unfold build_task_body. case_decide as Hseen; [done|].
  destruct (resolve_scope st (scope (G d))) as [ts|e|] eqn:Hts; simpl;
    [|done|by apply resolve_scope_not_fuel in Hts].
  destruct (apply_call_cache G ts _ _) as [d1 L1] eqn:Hac.
  eapply apply_call_cache_below in Hac as (Hd1 & Hcc1 & Hs & Hh);
    [|by apply apply_binds_below|done].
  destruct (dict_get (task_cache L1) d1) as [t|]; [done|].
  destruct (resolve_scope st (scope (G d1))) as [sc|e|] eqn:Hsc; simpl;
    [|done|by apply resolve_scope_not_fuel in Hsc].
  destruct (check_scope st sc) as [[]|e|] eqn:Hchk; simpl;
    [|done|by apply check_scope_not_fuel in Hchk].
  destruct (stack_for st sc) as [stack|e|] eqn:Hstack; simpl;
    [|done|by apply stack_for_not_fuel in Hstack].
  destruct (build_subtasks _ _ _ _ _) as [[[allow subtasks] L2]|e|] eqn:Hsubs;
    simpl; [|done|].
  - destruct (if allow && bool_decide (sc <> Unscoped) then _ else _)
      as [[value|]|e|] eqn:Hfc; simpl; try done.
    destruct (allow && bool_decide (sc <> Unscoped)); [|done].
    by apply find_cached_not_fuel in Hfc.
  - exfalso. revert Hsubs.
    apply (build_subtasks_enough_fuel N st fuel); [done|done| | | |done|].
    + intros c L0 Hc Hcc0 Hm0. by apply IH.
    + intros c L0 b t L'. apply build_task_built.
    + by apply Hg.
    + pose proof (unseen_add_seen N d L Hd Hseen) as Hlt.
      unfold unseen in *. rewrite Hs. lia.
Qed.

Lemma run_group_enough_fuel rec m :
  result_ok provider_call rec ->
  (forall t h w, heap_wf h -> t < m -> (rec t h w).1 <> OutOfFuel) ->
  forall subtasks h w, heap_wf h -> Forall (fun t => t < m) subtasks ->
    (run_group rec subtasks h w).1 <> OutOfFuel.
Proof.
  intros Hok Hrec subtasks. induction subtasks as [|t rest IH]; simpl;
    intros h w Hwf Hlt; [done|].
  apply Forall_cons in Hlt as [Ht Hrest].
  destruct (rec t h w) as [r [h1 w1]] eqn:Hr.
  destruct (Hok _ _ _ _ _ _ Hwf Hr) as (Hs & _).
  destruct r as [v|e|]; simpl; [|done|].
  - apply IH; [by eapply steps_wf|done].
  - specialize (Hrec t h w Hwf Ht). by rewrite Hr in Hrec.
Qed.

Lemma collect_values_enough_fuel rec m :
  result_ok provider_call rec ->
  (forall t h w, heap_wf h -> t < m -> (rec t h w).1 <> OutOfFuel) ->
  forall deps h w, heap_wf h -> Forall (fun kc => kc.2 < m) deps ->
    (collect_values rec deps h w).1 <> OutOfFuel.
Proof.
  intros Hok Hrec deps. induction deps as [|[k t] rest IH]; simpl;
    intros h w Hwf Hlt; [done|].
  apply Forall_cons in Hlt as [Ht Hrest]. simpl in Ht.
  destruct (rec t h w) as [r [h1 w1]] eqn:Hr.
  destruct (Hok _ _ _ _ _ _ Hwf Hr) as (Hs & _).
  destruct r as [v|e|]; simpl; [|done|].
  - specialize (IH h1 w1 (steps_wf _ _ _ _ _ _ Hs Hwf) Hrest).
    destruct (collect_values rec rest h1 w1) as [[vs|e|] hw]; simpl in *; done.
  - specialize (Hrec t h w Hwf Ht). by rewrite Hr in Hrec.
Qed.

(* `result()` returns or raises when the budget exceeds the index of the
   Task: its sub-tasks were allocated before it. *)
Lemma task_result_enough_fuel fuel tid h w :
  heap_wf h -> tid < fuel -> (task_result fuel tid h w).1 <> OutOfFuel.
Proof.
  revert tid h w. induction fuel as [|fuel IH]; intros tid h w Hwf Hlt; [lia|].
  simpl. unfold task_result_body.
  destruct (h !! tid) as [t|] eqn:Ht; [|done].
  destruct (t_result t) as [v0|]; [done|].
  assert (Hdeps : Forall (fun kc => kc.2 < fuel) (t_dependencies t)).
  { eapply Forall_impl; [by eapply Hwf|]. simpl. lia. }
  assert (Hvals : Forall (fun c => c < fuel) (dict_values (t_dependencies t))).
  { unfold dict_values. by apply Forall_fmap. }
  assert (Hvals' : Forall (fun c => c < tid) (dict_values (t_dependencies t))).
  { unfold dict_values. apply Forall_fmap. by eapply Hwf. }
  pose proof (run_group_enough_fuel (task_result fuel) fuel
    (task_result_ok provider_call fuel) IH _ h w Hwf Hvals) as Hg.
  destruct (run_group _ _ h w) as [r1 [h1 w1]] eqn:Hrg.
  destruct (run_group_ok provider_call _ (task_result_ok provider_call fuel)
    _ _ _ _ _ _ _ Hwf Hvals' Hrg) as [Hs1 _].
  destruct r1 as [[]|e1|]; simpl in *; [|done|done].
  assert (Hwf1 : heap_wf h1) by by eapply steps_wf.
  pose proof (collect_values_enough_fuel (task_result fuel) fuel
    (task_result_ok provider_call fuel) IH _ h1 w1 Hwf1 Hdeps) as Hc.
  destruct (collect_values _ _ h1 w1) as [r2 [h2 w2]] eqn:Hcv.
  destruct r2 as [values|e2|]; simpl in *; [|done|done].
  destruct (invoke provider_call (t_call t) values w2) as [r3 w3] eqn:Hinv.
  destruct r3 as [v|e3|]; simpl; [done|done|].
  by apply invoke_not_fuel in Hinv.
Qed.

Lemma commit_all_enough_fuel fuel tasks h w :
  heap_wf h -> Forall (fun t => t < fuel) tasks ->
  (commit_all fuel tasks h w).1 <> OutOfFuel.
Proof.
  revert h w. induction tasks as [|tid rest IH]; simpl; intros h w Hwf Hlt; [done|].
  apply Forall_cons in Hlt as [Ht Hrest].
  destruct (h !! tid) as [t|] eqn:Hh; [|done].
  destruct (resolve_scope (w_state w) (t_scope t)) as [[| |s]|e|] eqn:Hrs;
    [by apply IH|by apply IH| |done|by apply resolve_scope_not_fuel in Hrs].
  pose proof (task_result_enough_fuel fuel tid h w Hwf Ht) as Hr.
  destruct (task_result fuel tid h w) as [r [h1 w1]] eqn:Htr.
  destruct (task_result_ok provider_call fuel _ _ _ _ _ _ Hwf Htr) as (Hs & _).
  destruct r as [v|e|]; simpl in *; [|done|done].
  pose proof (cache_store_not_fuel s (call (G (t_dependant t))) v w1) as Hcs.
  destruct (cache_store s _ v w1) as [[[]|e|] w2]; simpl in *; [|done|done].
  apply IH; [by eapply steps_wf|done].
Qed.

(* `execute` returns or raises when the budget exceeds the number of
   nodes of the graph. *)
Lemma execute_enough_fuel N fuel d w :
  closed_below G N -> binds_below N (w_state w) -> d < N -> N < fuel ->
  (execute fuel d w).1 <> OutOfFuel.
Proof.
  intros Hg Hb Hd Hfuel. unfold execute.
  assert (Hcc : call_cache_below N empty_locals) by (intros p x Hx; done).
  pose proof (build_task_enough_fuel N (w_state w) Hg Hb fuel d empty_locals Hd Hcc)
    as Hbuild.
  rewrite unseen_empty in Hbuild. specialize (Hbuild Hfuel).
  destruct (build_task fuel (w_state w) d empty_locals) as [[[b root] L]|e|] eqn:Hbt;
    [|done|done].
  apply build_task_built in Hbt.
  destruct (proj1 (built_wf _ _ _ _ _ _ _) _ _ _ _ _ Hbt locals_wf_empty)
    as [[Hwf Htc] Hroot].
  destruct (proj1 (built_below N _ Hg Hb) _ _ _ _ _ Hbt Hd Hcc) as [_ Hlen].
  rewrite unseen_empty in Hlen. simpl in Hlen.
  assert (Hheap : length (heap L) < fuel) by lia.
  pose proof (task_result_enough_fuel fuel root (heap L) w Hwf) as Hr.
  destruct (task_result fuel root (heap L) w) as [r [h1 w1]] eqn:Htr.
  destruct (task_result_ok provider_call fuel _ _ _ _ _ _ Hwf Htr) as (Hs & _).
  destruct r as [v|e|]; simpl in *.
  2: done.
  2: { destruct Hr; [lia|done]. }
  assert (Hca : forall w2,
    (commit_all fuel (dict_values (task_cache L)) h1 w2).1 <> OutOfFuel).
  { intros w2. apply commit_all_enough_fuel; [by eapply steps_wf|].
    unfold dict_values. apply Forall_fmap.
    eapply Forall_impl; [exact Htc|]. simpl. intros. lia. }
  destruct (h1 !! root) as [t|]; [|done].
  unfold commit.
  destruct (resolve_scope (w_state w1) (t_scope t)) as [[| |s]|e|] eqn:Hrs; simpl;
    [| | |done|by apply resolve_scope_not_fuel in Hrs].
  1,2: specialize (Hca w1);
       destruct (commit_all fuel _ h1 w1) as [[[]|e|] [h3 w3]]; simpl in *; done.
  pose proof (cache_store_not_fuel s (call (G (t_dependant t))) v w1) as Hcs.
  destruct (cache_store s _ v w1) as [[[]|e|] w2] eqn:Hst; simpl in *; [|done|done].
  specialize (Hca w2).
  destruct (commit_all fuel _ h1 w2) as [[[]|e|] [h3 w3]]; simpl in *; done.
Qed.

Lemma op_below_scope N s body :
  op_below N (OpScope s body) <-> Forall (op_below N) body.
Proof.
  simpl. induction body as [|op body IH]; [by split|].
  rewrite Forall_cons, IH. done.
Qed.

Lemma run_seq_enough_fuel N run ops :
  Forall (fun op => forall w, binds_below N (w_state w) ->
            (run op w).1 <> OutOfFuel /\ binds_below N (w_state (run op w).2)) ops ->
  forall w, binds_below N (w_state w) ->
    (run_seq run ops w).1 <> OutOfFuel /\
    binds_below N (w_state (run_seq run ops w).2).
Proof.
  induction 1 as [|op ops Hop _ IH]; simpl; intros w Hb; [done|].
  destruct (Hop w Hb) as [Hne Hb1].
  destruct (run op w) as [[[]|e|] w1]; simpl in *; [by apply IH|done|done].
Qed.

(* A program returns or raises when the budget exceeds the number of
   nodes of the graph. *)
Lemma run_op_enough_fuel N fuel op :
  closed_below G N -> N < fuel -> op_below N op ->
  forall w, binds_below N (w_state w) ->
    (run_op fuel op w).1 <> OutOfFuel /\
    binds_below N (w_state (run_op fuel op w).2).
Proof.
  intros Hg Hfuel.
  induction op as [d|target source|e|s body IH] using Op_nested_ind; intros Hop w Hb.
  - simpl in *. pose proof (execute_enough_fuel N fuel d w Hg Hb Hop Hfuel) as Hne.
    destruct (execute fuel d w) as [r w1] eqn:He.
    apply execute_extends in He as [evs Hx].
    assert (Hb1 : binds_below N (w_state w1)).
    { unfold binds_below. by rewrite (ext_binds _ _ _ Hx). }
    by destruct r.
  - simpl in *. split; [done|]. intros p x. simpl.
    destruct (decide (p = target)) as [->|Hne].
    + rewrite lookup_insert_eq. by intros [= <-].
    + rewrite lookup_insert_ne by done. apply Hb.
  - done.
  - apply op_below_scope in Hop.
    change (run_op fuel (OpScope s body) w)
      with (enter_scope guard_exit (run_seq (run_op fuel) body) s w).
    unfold enter_scope. case_decide; [done|].
    set (w1 := {| w_state := _; w_log := w_log w |}).
    assert (Hbody : Forall (fun op => forall w, binds_below N (w_state w) ->
              (run_op fuel op w).1 <> OutOfFuel /\
              binds_below N (w_state (run_op fuel op w).2)) body).
    { eapply Forall_impl; [apply Forall_and; split; [exact IH|exact Hop]|].
      simpl. intros op [H1 H2]. by apply H1. }
    destruct (run_seq_enough_fuel N _ _ Hbody w1 Hb) as [Hne _].
    destruct (run_seq (run_op fuel) body w1) as [rb w2]. simpl in Hne.
    destruct rb as [[]|e|]; [| |done].
    + destruct (aexit _ _ _ None _) as [r w'] eqn:Hx.
      apply aexit_log in Hx as (Hst & _ & Hr). simpl. by rewrite Hst.
    + destruct (aexit _ _ _ (Some e) _) as [r w'] eqn:Hx.
      apply aexit_log in Hx as (Hst & _ & Hr). simpl. by rewrite Hst.
Qed.

(* More budget does not change an outcome that is not the budget running
   out. *)
Lemma build_subtasks_mono rec rec' :
  (forall c L r, rec c L = r -> r <> OutOfFuel -> rec' c L = r) ->
  forall deps allow subtasks L r,
    build_subtasks rec deps allow subtasks L = r -> r <> OutOfFuel ->
    build_subtasks rec' deps allow subtasks L = r.
Proof.
  intros Hrec deps. induction deps as [|[name c] deps IH]; simpl;
    intros allow subtasks L r Hr Hne; [done|].
  destruct (rec c L) as [[[allow1 t] L1]|e|] eqn:Hc; simpl in Hr.
  - rewrite (Hrec _ _ _ Hc) by done. simpl. by apply IH.
  - by rewrite (Hrec _ _ _ Hc).
  - congruence.
Qed.

Lemma build_task_body_mono st rec rec' :
  (forall c L r, rec c L = r -> r <> OutOfFuel -> rec' c L = r) ->
  forall d L r,
    build_task_body G is_async_context_manager is_context_manager
      is_async_gen_callable is_gen_callable is_coroutine_callable st rec d L = r ->
    r <> OutOfFuel ->
    build_task_body G is_async_context_manager is_context_manager
      is_async_gen_callable is_gen_callable is_coroutine_callable st rec' d L = r.
Proof.
  intros Hrec d L r. unfold build_task_body. case_decide; [done|].
  destruct (resolve_scope st (scope (G d))) as [ts|e|]; simpl; [|done|done].
  destruct (apply_call_cache G ts _ _) as [d1 L1].
  destruct (dict_get (task_cache L1) d1); [done|].
  destruct (resolve_scope st (scope (G d1))) as [sc|e|]; simpl; [|done|done].
  destruct (check_scope st sc) as [[]|e|]; simpl; [|done|done].
  destruct (stack_for st sc) as [stack|e|]; simpl; [|done|done].
  destruct (build_subtasks rec _ _ _ _) as [[[allow subtasks] L2]|e|] eqn:Hs;
    simpl; intros Hr Hne.
  - by rewrite (build_subtasks_mono rec rec' Hrec _ _ _ _ _ Hs).
  - by rewrite (build_subtasks_mono rec rec' Hrec _ _ _ _ _ Hs).
  - congruence.
Qed.

Lemma build_task_mono st fuel fuel' d L r :
  fuel <= fuel' -> build_task fuel st d L = r -> r <> OutOfFuel ->
  build_task fuel' st d L = r.
Proof.
  revert fuel' d L r. induction fuel as [|fuel IH]; intros fuel' d L r Hle; simpl;
    [congruence|].
  destruct fuel' as [|fuel']; [lia|]. simpl. apply build_task_body_mono.
  intros c L0 r0. apply IH. lia.
Qed.

Lemma run_group_mono rec rec' :
  (forall t h w r hw, rec t h w = (r, hw) -> r <> OutOfFuel -> rec' t h w = (r, hw)) ->
  forall subtasks h w r hw,
    run_group rec subtasks h w = (r, hw) -> r <> OutOfFuel ->
    run_group rec' subtasks h w = (r, hw).
Proof.
  intros Hrec subtasks. induction subtasks as [|t rest IH]; simpl;
    intros h w r hw Hr Hne; [done|].
  destruct (rec t h w) as [[v|e|] [h1 w1]] eqn:Hc.
  - rewrite (Hrec _ _ _ _ _ Hc) by done. by apply IH.
  - by rewrite (Hrec _ _ _ _ _ Hc).
  - congruence.
Qed.

Lemma collect_values_mono rec rec' :
  (forall t h w r hw, rec t h w = (r, hw) -> r <> OutOfFuel -> rec' t h w = (r, hw)) ->
  forall deps h w r hw,
    collect_values rec deps h w = (r, hw) -> r <> OutOfFuel ->
    collect_values rec' deps h w = (r, hw).
Proof.
  intros Hrec deps. induction deps as [|[k t] rest IH]; simpl;
    intros h w r hw Hr Hne; [done|].
  destruct (rec t h w) as [[v|e|] [h1 w1]] eqn:Hc.
  - rewrite (Hrec _ _ _ _ _ Hc) by done.
    destruct (collect_values rec rest h1 w1) as [[vs|e|] hw2] eqn:Hcv.
    + by rewrite (IH _ _ _ _ Hcv).
    + by rewrite (IH _ _ _ _ Hcv).
    + congruence.
  - by rewrite (Hrec _ _ _ _ _ Hc).
  - congruence.
Qed.

Lemma task_result_body_mono rec rec' :
  (forall t h w r hw, rec t h w = (r, hw) -> r <> OutOfFuel -> rec' t h w = (r, hw)) ->
  forall tid h w r hw,
    task_result_body provider_call rec tid h w = (r, hw) -> r <> OutOfFuel ->
    task_result_body provider_call rec' tid h w = (r, hw).
Proof.
  intros Hrec tid h w r hw. unfold task_result_body.
  destruct (h !! tid) as [t|]; [|done].
  destruct (t_result t); [done|].
  destruct (run_group rec _ h w) as [[[]|e|] [h1 w1]] eqn:Hg; intros Hr Hne.
  - rewrite (run_group_mono rec rec' Hrec _ _ _ _ _ Hg) by done.
    destruct (collect_values rec _ h1 w1) as [[values|e|] [h2 w2]] eqn:Hcv.
    + by rewrite (collect_values_mono rec rec' Hrec _ _ _ _ _ Hcv).
    + by rewrite (collect_values_mono rec rec' Hrec _ _ _ _ _ Hcv).
    + congruence.
  - by rewrite (run_group_mono rec rec' Hrec _ _ _ _ _ Hg).
  - congruence.
Qed.

Lemma task_result_mono fuel fuel' tid h w r hw :
  fuel <= fuel' -> task_result fuel tid h w = (r, hw) -> r <> OutOfFuel ->
  task_result fuel' tid h w = (r, hw).
Proof.
  revert fuel' tid h w r hw. induction fuel as [|fuel IH];
    intros fuel' tid h w r hw Hle; simpl; [congruence|].
  destruct fuel' as [|fuel']; [lia|]. simpl. apply task_result_body_mono.
  intros t h0 w0 r0 hw0. apply IH. lia.
Qed.

Lemma commit_all_mono fuel fuel' tasks h w r hw :
  fuel <= fuel' -> commit_all fuel tasks h w = (r, hw) -> r <> OutOfFuel ->
  commit_all fuel' tasks h w = (r, hw).
Proof.
  intros Hle. revert h w. induction tasks as [|tid rest IH]; simpl; intros h w;
    [done|].
  destruct (h !! tid) as [t|]; [|done].
  destruct (resolve_scope (w_state w) (t_scope t)) as [[| |s]|e|];
    [by apply IH|by apply IH| |done|done].
  destruct (task_result fuel tid h w) as [[v|e|] [h1 w1]] eqn:Hr; intros Hc Hne.
  - rewrite (task_result_mono _ _ _ _ _ _ _ Hle Hr) by done.
    destruct (cache_store s _ v w1) as [[[]|e|] w2]; [by apply IH|done|done].
  - by rewrite (task_result_mono _ _ _ _ _ _ _ Hle Hr).
  - congruence.
Qed.

Lemma execute_mono fuel fuel' d w r w' :
  fuel <= fuel' -> execute fuel d w = (r, w') -> r <> OutOfFuel ->
  execute fuel' d w = (r, w').
Proof.
  intros Hle. unfold execute.
  destruct (build_task fuel (w_state w) d empty_locals) as [[[b root] L]|e|] eqn:Hb;
    intros He Hne.
  - rewrite (build_task_mono _ _ _ _ _ _ Hle Hb) by done.
    destruct (task_result fuel root (heap L) w) as [[v|e|] [h1 w1]] eqn:Hr.
    + rewrite (task_result_mono _ _ _ _ _ _ _ Hle Hr) by done.
      destruct (h1 !! root) as [t|]; [|done].
      destruct (commit G t v w1) as [[[]|e|] w2]; [|done|done].
      destruct (commit_all fuel _ h1 w2) as [[[]|e|] [h3 w3]] eqn:Hca.
      * by rewrite (commit_all_mono _ _ _ _ _ _ _ Hle Hca).
      * by rewrite (commit_all_mono _ _ _ _ _ _ _ Hle Hca).
      * congruence.
    + by rewrite (task_result_mono _ _ _ _ _ _ _ Hle Hr).
    + congruence.
  - by rewrite (build_task_mono _ _ _ _ _ _ Hle Hb).
  - congruence.
Qed.

Lemma run_seq_mono run run' ops :
  Forall (fun op => forall w r w', run op w = (r, w') -> r <> OutOfFuel ->
            run' op w = (r, w')) ops ->
  forall w r w', run_seq run ops w = (r, w') -> r <> OutOfFuel ->
    run_seq run' ops w = (r, w').
Proof.
  induction 1 as [|op ops Hop _ IH]; simpl; intros w r w' Hr Hne; [done|].
  destruct (run op w) as [[[]|e|] w1] eqn:Hc.
  - rewrite (Hop _ _ _ Hc) by done. by apply IH.
  - by rewrite (Hop _ _ _ Hc).
  - congruence.
Qed.

Lemma run_op_mono fuel fuel' op :
  fuel <= fuel' ->
  forall w r w', run_op fuel op w = (r, w') -> r <> OutOfFuel ->
    run_op fuel' op w = (r, w').
Proof.
  intros Hle.
  induction op as [d|target source|e|s body IH] using Op_nested_ind; intros w r w'.
  - simpl. destruct (execute fuel d w) as [[v|e|] w1] eqn:He; intros Hr Hne.
    + by rewrite (execute_mono _ _ _ _ _ _ Hle He).
    + by rewrite (execute_mono _ _ _ _ _ _ Hle He).
    + congruence.
  - done.
  - done.
  - change (run_op fuel (OpScope s body) w)
      with (enter_scope guard_exit (run_seq (run_op fuel) body) s w).
    change (run_op fuel' (OpScope s body) w)
      with (enter_scope guard_exit (run_seq (run_op fuel') body) s w).
    unfold enter_scope. case_decide; [done|].
    set (w1 := {| w_state := _; w_log := w_log w |}).
    destruct (run_seq (run_op fuel) body w1) as [rb w2] eqn:Hb.
    destruct rb as [[]|e|]; intros Hr Hne.
    + by rewrite (run_seq_mono _ _ _ IH _ _ _ Hb).
    + by rewrite (run_seq_mono _ _ _ IH _ _ _ Hb).
    + congruence.
Qed.

(* `execute` on a finite graph has one outcome, a value or an exception,
   whatever the budget above the number of nodes. *)
Lemma execute_total N d w :
  closed_below G N -> binds_below N (w_state w) -> d < N ->
  exists r w', r <> OutOfFuel /\
    forall fuel, N < fuel -> execute fuel d w = (r, w').
Proof.
  intros Hg Hb Hd.
  pose proof (execute_enough_fuel N (S N) d w Hg Hb Hd (Nat.lt_succ_diag_r N)) as Hne.
  destruct (execute (S N) d w) as [r w'] eqn:He. simpl in Hne.
  exists r, w'. split; [done|]. intros fuel Hfuel.
  eapply execute_mono; [|done|done]. lia.
Qed.

Lemma run_op_total N op w :
  closed_below G N -> binds_below N (w_state w) -> op_below N op ->
  exists r w', r <> OutOfFuel /\
    forall fuel, N < fuel -> run_op fuel op w = (r, w').
Proof.
  intros Hg Hb Hop.
  destruct (run_op_enough_fuel N (S N) op Hg (Nat.lt_succ_diag_r N) Hop w Hb)
    as [Hne _].
  destruct (run_op (S N) op w) as [r w'] eqn:He. simpl in Hne.
  exists r, w'. split; [done|]. intros fuel Hfuel.
  eapply run_op_mono; [|done|done]. lia.
Qed.


End FuelFacts.

(* --------------------------------------------------------------------- *)
(* Counting the invocations of a provider                                *)
(* --------------------------------------------------------------------- *)

Lemma calls_of_app p l1 l2 : calls_of p (l1 ++ l2) = calls_of p l1 + calls_of p l2.
Proof. unfold calls_of. by rewrite filter_app, length_app. Qed.

Lemma calls_of_call p q : calls_of p [EvCall q] = if bool_decide (q = p) then 1 else 0.
Proof.
  unfold calls_of. case_bool_decide as H; subst.
  - by rewrite filter_cons_True.
  - rewrite filter_cons_False; [done|]. by intros [= ->].
Qed.

Lemma calls_of_other p e : (forall q, e <> EvCall q) -> calls_of p [e] = 0.
Proof.
  intros He. unfold calls_of. rewrite filter_cons_False; [done|].
  intros ->. by destruct (He p).
Qed.


Lemma sum_list_with_insert {A} (f : A -> nat) (l : list A) i x y :
  l !! i = Some x ->
  sum_list_with f (<[i := y]> l) + f x = sum_list_with f l + f y.
Proof.
  revert i. induction l as [|a l IH]; intros [|i]; simpl; try done.
  - intros [= ->]. lia.
  - intros Hi. specialize (IH i Hi). lia.
Qed.

Lemma pending_store p tid t v h :
  h !! tid = Some t -> t_result t = None ->
  pending p (store_result tid v h) +
    (if bool_decide (call_provider (t_call t) = Some p) then 1 else 0) = pending p h.
Proof.
  intros Ht Hr. unfold pending, store_result. rewrite Ht.
  pose proof (sum_list_with_insert (fun t => if invokes p t then 1 else 0)
                h tid t (set_result t v) Ht) as H.
  assert (Hx : invokes p t = bool_decide (call_provider (t_call t) = Some p)).
  { unfold invokes. rewrite Hr. rewrite (bool_decide_true (None = None)) by done.
    apply andb_true_r. }
  assert (Hy : invokes p (set_result t v) = false).
  { unfold invokes. simpl. apply andb_false_r. }
  simpl in H. rewrite Hx, Hy in H. lia.
Qed.

Lemma pending_zero p h :
  (forall t, t ∈ h -> invokes p t = false) -> pending p h = 0.
Proof.
  unfold pending. induction h as [|t h IH]; simpl; [done|].
  intros H. rewrite (H t) by by left. rewrite IH; [done|].
  intros t' Ht'. apply H. by right.
Qed.

Section CountFacts.
Variable G : DepId -> Dependant.
Variable provider_call : Provider -> list (string * Value) -> nat -> Value + Exn.

Local Abbreviation invoke := (invoke provider_call).
Local Abbreviation task_result := (task_result provider_call).
Local Abbreviation steps := (steps provider_call).
Local Abbreviation commit := (commit G).
Local Abbreviation commit_all := (commit_all G provider_call).

(* Calling an adapted call is one invocation of its provider. *)
Lemma invoke_calls p c values w r w' :
  invoke c values w = (r, w') ->
  calls_of p (w_log w') =
  calls_of p (w_log w) + (if bool_decide (call_provider c = Some p) then 1 else 0).
Proof.
  assert (Hq : forall q, (if bool_decide (q = p) then 1 else 0) =
                         (if bool_decide (Some q = Some p) then 1 else 0)).
  { intros q. repeat case_bool_decide; congruence. }
  destruct c as [q s|q s|q s|q s|q|q|v]; simpl; intros Hinv.
  all: try (destruct (provider_call q values _); injection Hinv as <- <-; simpl;
            rewrite ?calls_of_app, ?calls_of_call, ?Hq;
            rewrite ?calls_of_other by done; lia).
  injection Hinv as <- <-. lia.
Qed.


Lemma steps_conserve p h w h' w' :
  steps true h w h' w' ->
  calls_of p (w_log w') + pending p h' = calls_of p (w_log w) + pending p h.
Proof.
  remember true as ok eqn:Hok.
  induction 1 as [ok h w|ok tid t values h w v w1 h2 w2 Ht Hr Hinv _ IH
                  |tid t values h w e w1 Ht Hr Hinv]; [done| |done].
  specialize (IH Hok). apply (invoke_calls p) in Hinv.
  pose proof (pending_store p tid t v h Ht Hr). lia.
Qed.

Lemma commit_all_conserve p fuel tasks h w h' w' :
  heap_wf h ->
  commit_all fuel tasks h w = (Return tt, (h', w')) ->
  calls_of p (w_log w') + pending p h' = calls_of p (w_log w) + pending p h.
Proof.
  revert h w. induction tasks as [|tid1 rest IH]; simpl; intros h w Hwf Hc.
  - by injection Hc as <- <-.
  - destruct (h !! tid1) as [t1|] eqn:Ht1; [|done].
    destruct (resolve_scope (w_state w) (t_scope t1)) as [[| |s1]| |]; try done;
      try (by apply IH).
    destruct (task_result fuel tid1 h w) as [r1 [h1 w1]] eqn:Hres.
    destruct (task_result_ok provider_call fuel _ _ _ _ _ _ Hwf Hres) as (Hs1 & _).
    destruct r1 as [v1| |]; [|done|done]. simpl in Hs1.
    destruct (cache_store s1 _ v1 w1) as [r2 w2] eqn:Hst.
    destruct r2 as [[]| |]; [|done|done].
    apply cached_cache_store in Hst as (_ & Hlog & _).
    apply IH in Hc; [|by eapply steps_wf].
    apply (steps_conserve p) in Hs1. rewrite Hlog in Hc. lia.
Qed.

Lemma writes_le h h' s p :
  heap_le h h' -> (forall t, t ∈ h -> ~ writes G s p t) ->
  forall t, t ∈ h' -> ~ writes G s p t.
Proof.
  intros Hle Hn t' [i Hi]%list_elem_of_lookup [Hp Hs].
  destruct (heap_le_lookup_r _ _ _ _ Hle Hi) as (t & Ht & (Hd & Hsc & _)).
  apply (Hn t); [by eapply list_elem_of_lookup_2|].
  split; [by rewrite <- Hd|by rewrite <- Hsc].
Qed.

Lemma commit_frame t v w w2 s p :
  commit t v w = (Return tt, w2) -> ~ writes G s p t ->
  cached (w_state w2) s p = cached (w_state w) s p.
Proof.
  unfold commit. intros Hc Hn.
  destruct (resolve_scope (w_state w) (t_scope t)) as [[| |s1]| |] eqn:Hsc;
    try done; try by injection Hc as <-.
  apply cached_cache_store in Hc as (Hcell & _). rewrite Hcell.
  case_decide as Heq; [|done]. destruct Heq as [-> ->]. destruct Hn.
  split; [done|]. apply resolve_scope_Named in Hsc as [Hne Hs].
  destruct (t_scope t) as [| |s']; [done|by right|]. left. f_equal. by apply Hs.
Qed.

Lemma commit_all_frame fuel tasks h w h' w' s p :
  heap_wf h ->
  commit_all fuel tasks h w = (Return tt, (h', w')) ->
  (forall t, t ∈ h -> ~ writes G s p t) ->
  cached (w_state w') s p = cached (w_state w) s p.
Proof.
  revert h w. induction tasks as [|tid1 rest IH]; simpl; intros h w Hwf Hc Hn.
  - by injection Hc as <- <-.
  - destruct (h !! tid1) as [t1|] eqn:Ht1; [|done].
    destruct (resolve_scope (w_state w) (t_scope t1)) as [sc| |] eqn:Hsc; [|done|done].
    destruct sc as [| |s1]; try (by eapply IH).
    destruct (task_result fuel tid1 h w) as [r1 [h1 w1]] eqn:Hres.
    destruct (task_result_ok provider_call fuel _ _ _ _ _ _ Hwf Hres) as (Hs1 & _).
    destruct r1 as [v1| |]; [|done|done]. simpl in Hs1.
    destruct (cache_store s1 _ v1 w1) as [r2 w2] eqn:Hst.
    destruct r2 as [[]| |]; [|done|done].
    pose proof (steps_heap_le _ _ _ _ _ _ Hs1) as Hle1.
    rewrite (IH h1 w2); [|by eapply steps_wf|done|by eapply writes_le].
    apply cached_cache_store in Hst as (Hcell & _). rewrite Hcell.
    case_decide as Heq.
    + destruct Heq as [-> ->]. destruct (Hn t1); [by eapply list_elem_of_lookup_2|].
      split; [done|]. apply resolve_scope_Named in Hsc as [Hne Hs].
      destruct (t_scope t1) as [| |s']; [done|by right|]. left. f_equal. by apply Hs.
    + unfold cached. by rewrite (steps_cached _ _ _ _ _ _ Hs1).
Qed.

End CountFacts.

(* --------------------------------------------------------------------- *)
(* execute, step by step                                                 *)
(* --------------------------------------------------------------------- *)

Lemma call_provider_wrap_call (c1 c2 c3 c4 c5 : Provider -> bool) p s :
  call_provider (wrap_call c1 c2 c3 c4 c5 p s) = Some p.
Proof.
  unfold wrap_call.
  by destruct (c1 p), (c2 p), (c3 p), (c4 p), (c5 p).
Qed.

#[global] Arguments wrap_call : simpl never.

Section ExecuteSteps.
Variable G : DepId -> Dependant.
Variable is_async_context_manager : Provider -> bool.
Variable is_context_manager : Provider -> bool.
Variable is_async_gen_callable : Provider -> bool.
Variable is_gen_callable : Provider -> bool.
Variable is_coroutine_callable : Provider -> bool.
Variable provider_call : Provider -> list (string * Value) -> nat -> Value + Exn.

Local Abbreviation wrap_call := (wrap_call is_async_context_manager is_context_manager
  is_async_gen_callable is_gen_callable is_coroutine_callable).
Local Abbreviation build_task := (build_task G is_async_context_manager
  is_context_manager is_async_gen_callable is_gen_callable is_coroutine_callable).
Local Abbreviation built := (built G is_async_context_manager
  is_context_manager is_async_gen_callable is_gen_callable is_coroutine_callable).
Local Abbreviation built_subs := (built_subs G is_async_context_manager
  is_context_manager is_async_gen_callable is_gen_callable is_coroutine_callable).
Local Abbreviation fresh_task := (fresh_task G is_async_context_manager
  is_context_manager is_async_gen_callable is_gen_callable is_coroutine_callable).
Local Abbreviation task_result := (task_result provider_call).
Local Abbreviation steps := (steps provider_call).
Local Abbreviation commit := (commit G).
Local Abbreviation commit_all := (commit_all G provider_call).
Local Abbreviation execute := (execute G is_async_context_manager
  is_context_manager is_async_gen_callable is_gen_callable is_coroutine_callable
  provider_call).
Local Abbreviation task_shape := (task_shape G).

Lemma execute_Return fuel d w v w' :
  execute fuel d w = (Return v, w') ->
  exists b root L h1 w1 t w2 h3,
    build_task fuel (w_state w) d empty_locals = Return (b, root, L) /\
    task_result fuel root (heap L) w = (Return v, (h1, w1)) /\
    h1 !! root = Some t /\
    commit t v w1 = (Return tt, w2) /\
    commit_all fuel (dict_values (task_cache L)) h1 w2 = (Return tt, (h3, w')).
Proof.
  unfold execute.
  destruct (build_task fuel (w_state w) d empty_locals) as [[[b root] L]| |] eqn:Hb;
    [|done|done].
  destruct (task_result fuel root (heap L) w) as [r1 [h1 w1]] eqn:Hres.
  destruct r1 as [v1| |]; [|done|done].
  destruct (h1 !! root) as [t|] eqn:Ht; [|done].
  destruct (commit t v1 w1) as [r2 w2] eqn:Hc. destruct r2 as [[]| |]; [|done|done].
  destruct (commit_all fuel _ h1 w2) as [r3 [h3 w3]] eqn:Hca.
  destruct r3 as [[]| |]; [|done|done]. intros [= <- <-].
  by exists b, root, L, h1, w1, t, w2, h3.
Qed.

Lemma resolve_scope_not_Inherit st sc sc' :
  resolve_scope st sc = Return sc' -> sc' <> Inherit.
Proof.
  destruct sc as [| |s]; simpl; try by intros [= <-].
  case_decide; [done|]. destruct (last (scopes st)); [|done]. by intros [= <-].
Qed.

Lemma fresh_task_shape st ts0 ts d stack subtasks cv :
  resolve_scope st ts0 = Return ts ->
  task_shape (fresh_task ts d stack subtasks cv).
Proof.
  intros Hts. destruct cv as [value|]; simpl.
  - by repeat split.
  - repeat split; simpl; try done.
    + by eapply resolve_scope_not_Inherit.
    + rewrite call_provider_wrap_call. by intros p [= <-].
    + by rewrite call_provider_wrap_call.
Qed.

Lemma built_shape st :
  (forall d L b t L', built st d L b t L' ->
     Forall task_shape (heap L) -> Forall task_shape (heap L')) /\
  (forall deps allow subtasks L allow' subtasks' L',
     built_subs st deps allow subtasks L allow' subtasks' L' ->
     Forall task_shape (heap L) -> Forall task_shape (heap L')).
Proof.
  apply built_both_ind.
  - intros d L ts d1 L1 t _ _ Hcc _ HF.
    apply apply_call_cache_same in Hcc as (_ & _ & ->). done.
  - intros d L ts d1 L1 sc stack allow subtasks L2 cv _ Hts Hcc _ _ _ _ _ IH _ HF.
    apply apply_call_cache_same in Hcc as (_ & _ & Hh). simpl.
    apply Forall_app. split; [apply IH; by rewrite Hh|].
    apply Forall_singleton. by eapply fresh_task_shape.
  - done.
  - intros name c deps allow subtasks L allow1 t L1 allow' subtasks' L' _ IH1 _ IH2 HF.
    by apply IH2, IH1.
Qed.

Lemma built_root_in_cache st d L b t L' :
  built st d L b t L' -> t ∈ dict_values (task_cache L').
Proof.
  inversion 1; subst.
  - unfold dict_values. apply list_elem_of_fmap. exists (d1, t).
    split; [done|]. by apply dict_get_elem.
  - simpl. apply dict_set_values_new.
Qed.

(* All of execute at once: the round that was built, the Tasks at the end,
   and the cache at the end. *)
Lemma execute_cells fuel d w v w' :
  execute fuel d w = (Return v, w') ->
  exists b root L h,
    build_task fuel (w_state w) d empty_locals = Return (b, root, L) /\
    heap_le (heap L) h /\
    Forall task_shape (heap L) /\
    root ∈ dict_values (task_cache L) /\
    (exists t, h !! root = Some t /\ t_result t = Some v) /\
    (forall tid, tid ∈ dict_values (task_cache L) ->
      (exists t, h !! tid = Some t) /\ cell_ok G h (w_state w') tid) /\
    (forall p, calls_of p (w_log w') + pending p h =
               calls_of p (w_log w) + pending p (heap L)) /\
    (forall s p, (forall t, t ∈ heap L -> ~ writes G s p t) ->
       cached (w_state w') s p = cached (w_state w) s p) /\
    (exists h1 w1, task_result fuel root (heap L) w = (Return v, (h1, w1))).
Proof.
  intros (b & root & L & h1 & w1 & t & w2 & h3 & Hb & Hres & Ht & Hc & Hca)%execute_Return.
  pose proof (build_task_built _ _ _ _ _ _ _ _ _ _ _ _ _ Hb) as Hbuilt.
  destruct (proj1 (built_wf _ _ _ _ _ _ _) _ _ _ _ _ Hbuilt locals_wf_empty)
    as [[Hwf Htc] Hroot].
  pose proof (proj1 (built_inv _ _ _ _ _ _ _) _ _ _ _ _ Hbuilt (build_inv_empty G)) as HI.
  apply build_inv_unique in HI.
  destruct (task_result_ok provider_call fuel _ _ _ _ _ _ Hwf Hres) as (Hs1 & _ & Hres1).
  simpl in Hs1. destruct (Hres1 v eq_refl) as (t' & Ht' & Hv).
  assert (t' = t) as -> by congruence.
  pose proof (steps_heap_le _ _ _ _ _ _ Hs1) as Hle1.
  destruct (commit_all_cells G provider_call fuel _ _ _ _ _
              (steps_wf _ _ _ _ _ _ Hs1 Hwf) (unique_scoped_le _ _ _ Hle1 HI) Hca)
    as (Hle3 & _ & Hcells).
  exists b, root, L, h3. split; [done|]. split; [by eapply heap_le_trans|].
  split.
  { apply (proj1 (built_shape _) _ _ _ _ _ Hbuilt). constructor. }
  split; [by eapply built_root_in_cache|]. split.
  { destruct (heap_le_lookup_l _ _ _ _ Hle3 Ht) as (t3 & Ht3 & (_ & _ & _ & _ & Hr)).
    exists t3. auto. }
  split.
  { intros tid Hin. split; [|by apply Hcells].
    unfold dict_values in Hin. apply list_elem_of_fmap in Hin as ([k tid'] & -> & Hin).
    apply (proj1 (Forall_forall _ _) Htc) in Hin. simpl in Hin.
    destruct (lookup_lt_is_Some_2 _ _ Hin) as [t0 Ht0].
    destruct (heap_le_lookup_l _ _ _ _ (heap_le_trans _ _ _ Hle1 Hle3) Ht0)
      as (t3 & Ht3 & _).
    eauto. }
  split.
  { intros p. pose proof (steps_conserve provider_call p _ _ _ _ Hs1) as Hc1.
    pose proof (commit_all_conserve G provider_call p fuel _ _ _ _ _
                  (steps_wf _ _ _ _ _ _ Hs1 Hwf) Hca) as Hc3.
    apply commit_extends in Hc. destruct Hc as [Hlog _ _ _ _ _ _].
    rewrite app_nil_r in Hlog. rewrite Hlog in Hc3. lia. }
  split; [|eauto].
  intros s p Hnw.
  assert (Hnw1 : forall t, t ∈ h1 -> ~ writes G s p t) by by eapply writes_le.
  rewrite (commit_all_frame G provider_call fuel _ _ _ _ _ s p
             (steps_wf _ _ _ _ _ _ Hs1 Hwf) Hca Hnw1).
  rewrite (commit_frame G _ _ _ _ s p Hc).
  - unfold cached. by rewrite (steps_cached _ _ _ _ _ _ Hs1).
  - apply Hnw1. by eapply list_elem_of_lookup_2.
Qed.

End ExecuteSteps.

(* --------------------------------------------------------------------- *)
(* Task.result under concurrent callers: the invariant                   *)
(* --------------------------------------------------------------------- *)

Section SingleFlightFacts.
Import SingleFlight.
Variable outcome : nat -> Value + Exn.
Local Abbreviation step := (step outcome).
Local Abbreviation run := (run outcome).

Lemma sf_Inv_init : Inv outcome init.
Proof.
  constructor; simpl; try done. by left.
Qed.

Ltac other_caller := unfold set_pc; case_decide; subst.

Lemma sf_step_Inv a σ σ' : Inv outcome σ -> step a σ = Some σ' -> Inv outcome σ'.
Proof.
  intros [Hh Hu Hv Hr Hc Hz] Hstep. unfold in_flight in Hc.
  destruct a as [i|i|i|i|i e|i]; simpl in Hstep.
  - (* Arrive *)
    destruct (pc σ i) eqn:Hpc; try done. injection Hstep as <-.
    constructor; unfold in_flight; simpl; try done; try (right; by eauto).
    + intros j. other_caller; [done|]. apply Hh.
    + intros j. other_caller; [by intros [?|?]|]. apply Hu.
    + intros j v. other_caller; [done|]. apply Hv.
    + destruct (lock σ) as [j|] eqn:Hl; [|done]. other_caller; [|done].
      by rewrite Hpc in Hc.
  - (* Acquire *)
    destruct (pc σ i) eqn:Hpc; try done. destruct (lock σ) eqn:Hlock; try done.
    injection Hstep as <-.
    constructor; unfold in_flight; simpl; try done; try (right; by eauto).
    + intros j. other_caller; [done|]. intros Hj. apply Hh in Hj. congruence.
    + intros j. other_caller; [by intros [?|?]|]. apply Hu.
    + intros j v. other_caller; [done|]. apply Hv.
    + other_caller; [done|done].
  - (* Test *)
    destruct (pc σ i) eqn:Hpc; try done.
    assert (Hi : lock σ = Some i) by (apply Hh; by rewrite Hpc).
    rewrite Hi, Hpc in Hc. simpl in Hc.
    destruct (result σ) as [v|] eqn:Hres; injection Hstep as <-.
    + constructor; unfold in_flight; simpl; try done; try (right; by eauto).
      * intros j. other_caller; [done|]. intros Hj. apply Hh in Hj. congruence.
      * intros j. other_caller; [by intros [?|?]|]. apply Hu.
      * intros j v'. other_caller; [congruence|]. apply Hv.
    + constructor; unfold in_flight; simpl; try done; try (right; by eauto).
      * intros j. other_caller; [done|]. apply Hh.
      * intros j v'. other_caller; [done|]. apply Hv.
      * rewrite Hi. other_caller; [done|done].
  - (* SubtasksDone *)
    destruct (pc σ i) eqn:Hpc; try done. injection Hstep as <-.
    assert (Hi : lock σ = Some i) by (apply Hh; by rewrite Hpc).
    rewrite Hi, Hpc in Hc. simpl in Hc.
    constructor; unfold in_flight; simpl; try done; try (right; by eauto).
    + intros j. other_caller; [done|]. apply Hh.
    + intros j _. apply (Hu i). by left.
    + intros j v. other_caller; [done|]. apply Hv.
    + rewrite Hi. other_caller; [simpl; lia|done].
  - (* SubtaskFails *)
    destruct (pc σ i) eqn:Hpc; try done. injection Hstep as <-.
    assert (Hi : lock σ = Some i) by (apply Hh; by rewrite Hpc).
    rewrite Hi, Hpc in Hc. simpl in Hc.
    constructor; unfold in_flight; simpl; try done; try (right; by eauto).
    + intros j. other_caller; [done|]. intros Hj. apply Hh in Hj. congruence.
    + intros j. other_caller; [by intros [?|?]|]. apply Hu.
    + intros j v. other_caller; [done|]. apply Hv.
  - (* Finish *)
    destruct (pc σ i) eqn:Hpc; try done.
    assert (Hi : lock σ = Some i) by (apply Hh; by rewrite Hpc).
    assert (Hnone : result σ = None) by (apply (Hu i); right; by rewrite Hpc).
    rewrite Hi, Hpc in Hc. simpl in Hc. rewrite Hnone in Hr.
    destruct (outcome k) as [v|e] eqn:Hout; injection Hstep as <-.
    + constructor; unfold in_flight; simpl; try done; try (right; by eauto).
      * intros j. other_caller; [done|]. intros Hj. apply Hh in Hj. congruence.
      * intros j. other_caller; [by intros [?|?]|].
        intros [Hj|Hj].
        -- assert (lock σ = Some j) by (apply Hh; by rewrite Hj). congruence.
        -- assert (lock σ = Some j) by (apply Hh; by destruct (pc σ j)). congruence.
      * intros j v'. other_caller; [congruence|].
        intros Hj. apply Hv in Hj. congruence.
      * lia.
      * lia.
    + constructor; unfold in_flight; simpl; try done; try (right; by eauto).
      * intros j. other_caller; [done|]. intros Hj. apply Hh in Hj. congruence.
      * intros j v'. other_caller; [done|]. apply Hv.
      * by rewrite Hnone.
      * lia.
Qed.

Lemma sf_run_Inv sched σ σ' : Inv outcome σ -> run sched σ = Some σ' -> Inv outcome σ'.
Proof.
  revert σ. induction sched as [|a sched IH]; simpl; intros σ HI Hrun.
  - by injection Hrun as <-.
  - destruct (step a σ) as [σ1|] eqn:Hstep; [|done].
    eapply IH; [|done]. by eapply sf_step_Inv.
Qed.

(* Once `_result` is set it stays, and no step invokes the call. *)
Lemma sf_step_after_result a σ σ' v :
  Inv outcome σ -> result σ = Some v -> step a σ = Some σ' ->
  result σ' = Some v /\ invoked σ' = invoked σ.
Proof.
  intros [Hh Hu Hv Hr Hc Hz] Hres Hstep.
  destruct a as [i|i|i|i|i e|i]; simpl in Hstep.
  - destruct (pc σ i); try done. by injection Hstep as <-.
  - destruct (pc σ i); try done. destruct (lock σ); try done. by injection Hstep as <-.
  - destruct (pc σ i); try done. rewrite Hres in Hstep. by injection Hstep as <-.
  - destruct (pc σ i) eqn:Hpc; try done.
    assert (result σ = None) by (apply (Hu i); by left). congruence.
  - destruct (pc σ i); try done. by injection Hstep as <-.
  - destruct (pc σ i) eqn:Hpc; try done.
    assert (result σ = None) by (apply (Hu i); right; by rewrite Hpc). congruence.
Qed.

Lemma sf_run_after_result sched σ σ' v :
  Inv outcome σ -> result σ = Some v -> run sched σ = Some σ' ->
  result σ' = Some v /\ invoked σ' = invoked σ.
Proof.
  revert σ. induction sched as [|a sched IH]; simpl; intros σ HI Hres Hrun.
  - by injection Hrun as <-.
  - destruct (step a σ) as [σ1|] eqn:Hstep; [|done].
    destruct (sf_step_after_result _ _ _ _ HI Hres Hstep) as [Hres1 Hinv1].
    destruct (IH σ1) as [? ?]; [by eapply sf_step_Inv|done|done|].
    split; [done|congruence].
Qed.

Lemma sf_returned_in_flight σ : Inv outcome σ -> returned σ + in_flight σ <= 1.
Proof.
  intros [Hh Hu Hv Hr Hc Hz]. rewrite Hr. unfold in_flight.
  destruct (lock σ) as [i|]; [|destruct (result σ); lia].
  destruct (in_call (pc σ i)) eqn:Hi; [|destruct (result σ); lia].
  rewrite (Hu i); [lia|by right].
Qed.

(** C4, amended: whatever the schedule of the callers of `result()` of one
    Task, the adapted call returns at most once: it is invoked at most
    once more than it has raised, so at most once when it does not raise;
    every caller that gets a value gets the stored one, so all get the
    same; and once the value is stored no later call to `result()`, also
    of a caller that was waiting for the lock, invokes the call again.  An
    invocation that raises stores nothing, and the next caller invokes the
    call again. *)
Theorem result_is_single_flight (sched : list Action) (σ : State) :
  run sched init = Some σ ->
  returned σ <= 1 /\
  invoked σ <= raised σ + 1 /\
  ((forall k e, outcome k <> inr e) -> invoked σ <= 1) /\
  (forall i v, pc σ i = Done (inl v) -> result σ = Some v) /\
  (forall i j v v', pc σ i = Done (inl v) -> pc σ j = Done (inl v') -> v = v') /\
  (forall v sched' σ', result σ = Some v -> run sched' σ = Some σ' ->
     result σ' = Some v /\ invoked σ' = invoked σ).
Proof.
  intros Hrun. pose proof (sf_run_Inv _ _ _ sf_Inv_init Hrun) as HI.
  pose proof (sf_returned_in_flight _ HI) as Hle.
  pose proof (inv_count _ _ HI) as Hc.
  split; [lia|]. split; [lia|]. split.
  { intros Hnever. destruct (inv_raised _ _ HI) as [Hz|(k & e & Hk)]; [lia|].
    by destruct (Hnever k e). }
  split; [apply HI|]. split.
  { intros i j v v' Hi Hj. apply (inv_value _ _ HI) in Hi, Hj. congruence. }
  intros v sched' σ' Hres Hrun'. by eapply sf_run_after_result.
Qed.

End SingleFlightFacts.

(* --------------------------------------------------------------------- *)
(* One execute, for a description that is the only one of its provider   *)
(* --------------------------------------------------------------------- *)







Section Once.
Variable G : DepId -> Dependant.
Variable is_async_context_manager : Provider -> bool.
Variable is_context_manager : Provider -> bool.
Variable is_async_gen_callable : Provider -> bool.
Variable is_gen_callable : Provider -> bool.
Variable is_coroutine_callable : Provider -> bool.
Variable provider_call : Provider -> list (string * Value) -> nat -> Value + Exn.

Local Abbreviation build_task := (build_task G is_async_context_manager
  is_context_manager is_async_gen_callable is_gen_callable is_coroutine_callable).
Local Abbreviation fresh_task := (fresh_task G is_async_context_manager
  is_context_manager is_async_gen_callable is_gen_callable is_coroutine_callable).
Local Abbreviation invoke := (invoke provider_call).
Local Abbreviation task_result := (task_result provider_call).
Local Abbreviation steps := (steps provider_call).
Local Abbreviation execute := (execute G is_async_context_manager
  is_context_manager is_async_gen_callable is_gen_callable is_coroutine_callable
  provider_call).



End Once.

(* --------------------------------------------------------------------- *)
(* get_flat_subdependants: the nodes under a description                 *)
(* --------------------------------------------------------------------- *)

Lemma sum_filter_le {A} (P Q : A -> Prop) `{forall x, Decision (P x)}
    `{forall x, Decision (Q x)} (f g : A -> nat) (l : list A) :
  (forall x, x ∈ l -> P x -> Q x /\ f x <= g x) ->
  sum_list_with f (filter P l) <= sum_list_with g (filter Q l).
Proof.
  induction l as [|a l IH]; intros Hl; [done|].
  assert (IH' : sum_list_with f (filter P l) <= sum_list_with g (filter Q l)).
  { apply IH. intros x Hx. apply Hl. by right. }
  rewrite !filter_cons. destruct (decide (P a)) as [Hp|Hp].
  - destruct (Hl a ltac:(left) Hp) as [Hq Hle].
    rewrite decide_True by done. simpl. lia.
  - destruct (decide (Q a)); simpl; lia.
Qed.

Lemma unvisited_add N q A :
  q < N -> q ∉ A -> S (unvisited N ({[q]} ∪ A)) = unvisited N A.
Proof.
  intros Hq Hn. unfold unvisited.
  assert (Heq : (set_seq 0 N ∖ A : gset nat) =
                {[q]} ∪ (set_seq 0 N ∖ ({[q]} ∪ A))).
  { apply set_eq. intros x. rewrite elem_of_union, !elem_of_difference,
      elem_of_union, elem_of_singleton, elem_of_set_seq.
    destruct (decide (x = q)) as [->|Hne]; [|naive_solver].
    split; [by left|]. intros _. split; [lia|done]. }
  rewrite Heq.
  pose proof (size_union (C:=gset nat) {[q]} (set_seq 0 N ∖ ({[q]} ∪ A))) as Hsz.
  rewrite size_singleton in Hsz. rewrite Hsz; [done|]. clear Heq Hsz. set_solver.
Qed.

Section FlatFacts.
Variable G : DepId -> Dependant.

Local Abbreviation flat_loop := (flat_loop G).
Local Abbreviation flat_weight := (flat_weight G).
Local Abbreviation entry_weight := (entry_weight G).
Local Abbreviation queue_weight := (queue_weight G).
Local Abbreviation sub_dependant := (sub_dependant G).

Lemma flat_weight_add n q A c :
  flat_weight n ({[q]} ∪ A) c <= flat_weight (S n) A c.
Proof.
  revert q A c. induction n as [|n IH]; intros q A c.
  - simpl. lia.
  - change (flat_weight (S n) ({[q]} ∪ A) c) with
      (1 + sum_list_with (flat_weight n ({[c]} ∪ ({[q]} ∪ A)))
             (filter (fun sub => sub ∉ {[c]} ∪ ({[q]} ∪ A))
                (dict_values (dependencies (G c))))).
    change (flat_weight (S (S n)) A c) with
      (1 + sum_list_with (flat_weight (S n) ({[c]} ∪ A))
             (filter (fun sub => sub ∉ {[c]} ∪ A)
                (dict_values (dependencies (G c))))).
    apply le_n_S. apply sum_filter_le. intros x _ Hx. split; [set_solver|].
    assert (({[c]} ∪ ({[q]} ∪ A) : gset nat) = {[q]} ∪ ({[c]} ∪ A)) as ->
      by set_solver.
    apply IH.
Qed.

Lemma entry_weight_mono N q seen x :
  q < N -> entry_weight N ({[q]} ∪ seen) x <= entry_weight N seen x.
Proof.
  intros Hq. unfold entry_weight.
  destruct (decide (q ∈ seen)) as [Hin|Hnin].
  { assert (({[q]} ∪ seen : gset nat) = seen) as -> by set_solver. done. }
  destruct (decide (q = x)) as [->|Hne].
  - assert (({[x]} ∪ ({[x]} ∪ seen) : gset nat) = {[x]} ∪ seen) as Heq
      by set_solver.
    rewrite Heq.
    change (flat_weight (S (unvisited N ({[x]} ∪ seen))) ({[x]} ∪ seen) x) with
      (1 + sum_list_with (flat_weight (unvisited N ({[x]} ∪ seen))
                            ({[x]} ∪ ({[x]} ∪ seen)))
             (filter (fun sub => sub ∉ {[x]} ∪ ({[x]} ∪ seen))
                (dict_values (dependencies (G x))))).
    rewrite Heq. done.
  - assert (({[x]} ∪ ({[q]} ∪ seen) : gset nat) = {[q]} ∪ ({[x]} ∪ seen)) as ->
      by set_solver.
    rewrite <- (unvisited_add N q ({[x]} ∪ seen)) by set_solver.
    apply flat_weight_add.
Qed.

Lemma queue_weight_mono N q seen queue :
  q < N -> queue_weight N ({[q]} ∪ seen) queue <= queue_weight N seen queue.
Proof.
  intros Hq. unfold queue_weight.
  induction queue as [|x queue IH]; cbn [sum_list_with]; [done|].
  pose proof (entry_weight_mono N q seen x Hq). lia.
Qed.

Lemma queue_weight_new N seen l :
  Forall (fun c => c < N) l -> Forall (fun c => c ∉ seen) l ->
  queue_weight N seen l = sum_list_with (flat_weight (unvisited N seen) seen) l.
Proof.
  unfold queue_weight.
  induction l as [|c l IH]; intros Hlt Hnin; cbn [sum_list_with]; [done|].
  apply Forall_cons in Hlt as [Hc Hlt]. apply Forall_cons in Hnin as [Hn Hnin].
  rewrite IH by done. f_equal. unfold entry_weight.
  by rewrite (unvisited_add N c seen).
Qed.

(* One round of the loop uses up one unit of the weight of the queue. *)
Lemma queue_weight_step N seen q rest :
  closed_below G N -> q < N ->
  S (queue_weight N ({[q]} ∪ seen)
       (rest ++ filter (fun sub => sub ∉ {[q]} ∪ seen)
                  (dict_values (dependencies (G q))))) <=
  queue_weight N seen (q :: rest).
Proof.
  intros Hg Hq.
  set (new := filter (fun sub => sub ∉ {[q]} ∪ seen)
                (dict_values (dependencies (G q)))).
  assert (Hnew : queue_weight N ({[q]} ∪ seen) new =
    sum_list_with (flat_weight (unvisited N ({[q]} ∪ seen)) ({[q]} ∪ seen)) new).
  { apply queue_weight_new.
    - apply Forall_forall. intros c Hc. apply list_elem_of_filter in Hc as [_ Hc].
      unfold dict_values in Hc. apply list_elem_of_fmap in Hc as (kc & -> & Hkc).
      by apply (proj1 (Forall_forall _ _) (Hg q Hq)) in Hkc.
    - apply Forall_forall. intros c Hc.
      by apply list_elem_of_filter in Hc as [Hc _]. }
  assert (Happ : queue_weight N ({[q]} ∪ seen) (rest ++ new) =
    queue_weight N ({[q]} ∪ seen) rest + queue_weight N ({[q]} ∪ seen) new)
    by apply sum_list_with_app.
  assert (Hq0 : queue_weight N seen (q :: rest) =
    1 + sum_list_with (flat_weight (unvisited N ({[q]} ∪ seen)) ({[q]} ∪ seen)) new
      + queue_weight N seen rest) by reflexivity.
  pose proof (queue_weight_mono N q seen rest Hq) as Hrest. lia.
Qed.

(* The loop ends, on a finite graph, within the weight of its queue. *)
Lemma flat_loop_enough_fuel N :
  closed_below G N ->
  forall fuel seen queue, Forall (fun c => c < N) queue ->
    queue_weight N seen queue <= fuel ->
    exists S, flat_loop fuel seen queue = Return S.
Proof.
  intros Hg fuel. induction fuel as [|fuel IH]; intros seen queue Hlt Hw.
  - destruct queue as [|q rest]; [by eexists|].
    exfalso. unfold queue_weight, entry_weight in Hw. simpl in Hw. lia.
  - destruct queue as [|q rest]; [by eexists|]. simpl.
    apply Forall_cons in Hlt as [Hq Hrest].
    pose proof (queue_weight_step N seen q rest Hg Hq) as Hstep.
    apply IH; [|lia].
    apply Forall_app. split; [done|].
    apply Forall_forall. intros c Hc. apply list_elem_of_filter in Hc as [_ Hc].
    unfold dict_values in Hc. apply list_elem_of_fmap in Hc as (kc & -> & Hkc).
    by apply (proj1 (Forall_forall _ _) (Hg q Hq)) in Hkc.
Qed.

(* What the loop keeps: the nodes seen or queued are under the root, and
   the sub-dependants of a node seen are seen or queued. *)
Lemma flat_loop_inv root fuel :
  forall seen queue S,
    flat_loop fuel seen queue = Return S ->
    (forall x, x ∈ seen \/ x ∈ queue -> rtc sub_dependant root x) ->
    (forall x c, x ∈ seen -> sub_dependant x c -> c ∈ seen \/ c ∈ queue) ->
    (forall x, x ∈ seen \/ x ∈ queue -> x ∈ S) /\
    (forall x, x ∈ S -> rtc sub_dependant root x) /\
    (forall x c, x ∈ S -> sub_dependant x c -> c ∈ S).
Proof.
  induction fuel as [|fuel IH]; intros seen queue S Hrun Hreach Hclosed.
  - destruct queue as [|q rest]; [|done]. injection Hrun as <-.
    split; [|split].
    + intros x [Hx|Hx]; [done|]. by apply elem_of_nil in Hx.
    + intros x Hx. apply Hreach. by left.
    + intros x c Hx Hc. destruct (Hclosed x c Hx Hc) as [?|Hin]; [done|].
      by apply elem_of_nil in Hin.
  - destruct queue as [|q rest].
    { injection Hrun as <-. split; [|split].
      + intros x [Hx|Hx]; [done|]. by apply elem_of_nil in Hx.
      + intros x Hx. apply Hreach. by left.
      + intros x c Hx Hc. destruct (Hclosed x c Hx Hc) as [?|Hin]; [done|].
        by apply elem_of_nil in Hin. }
    simpl in Hrun. apply IH in Hrun as (Hsub & Hsound & Hcl).
    + split; [|done]. intros x [Hx|Hx].
      * apply Hsub. left. set_solver.
      * apply elem_of_cons in Hx as [->|Hx].
        -- apply Hsub. left. set_solver.
        -- apply Hsub. right. apply elem_of_app. by left.
    + intros x [Hx|Hx].
      * apply elem_of_union in Hx as [Hx|Hx].
        -- apply elem_of_singleton in Hx as ->. apply Hreach. right. by left.
        -- apply Hreach. by left.
      * apply elem_of_app in Hx as [Hx|Hx].
        -- apply Hreach. right. by right.
        -- apply list_elem_of_filter in Hx as [_ Hx].
           eapply rtc_r; [|exact Hx]. apply Hreach. right. by left.
    + intros x c Hx Hc. apply elem_of_union in Hx as [Hx|Hx].
      * apply elem_of_singleton in Hx as ->.
        destruct (decide (c ∈ ({[q]} ∪ seen : gset nat))) as [Hin|Hnin];
          [by left|].
        right. apply elem_of_app. right. by apply list_elem_of_filter.
      * destruct (Hclosed x c Hx Hc) as [Hin|Hin]; [left; set_solver|].
        apply elem_of_cons in Hin as [->|Hin]; [left; set_solver|].
        right. apply elem_of_app. by left.
Qed.

End FlatFacts.

(* --------------------------------------------------------------------- *)
(* What `execute` does with a description that has no sub-dependants     *)
(* --------------------------------------------------------------------- *)

Lemma cache_store_twice s p v w w1 :
  cache_store s p v w = (Return tt, w1) -> cache_store s p v w1 = (Return tt, w1).
Proof.
  unfold cache_store. destruct (cached_values (w_state w) !! s) as [bucket|] eqn:Hb;
    [|done].
  intros [= <-]. simpl. rewrite lookup_insert_eq. f_equal.
  by rewrite insert_insert_eq, insert_insert_eq.
Qed.

Lemma find_cached_innermost st p inner s rest v :
  Forall (fun s' => exists bucket, cached_values st !! s' = Some bucket /\
                      bucket !! p = None) inner ->
  cached st s p = Some v ->
  find_cached st p (inner ++ s :: rest) = Return (Some v).
Proof.
  intros Hinner Hs. induction Hinner as [|s' inner (bucket & Hb & Hp) _ IH]; simpl.
  - unfold cached in Hs. destruct (cached_values st !! s) as [bucket|]; [|done].
    simpl in Hs. by rewrite Hs.
  - by rewrite Hb, Hp.
Qed.

Section LeafFacts.
Variable G : DepId -> Dependant.
Variable is_async_context_manager : Provider -> bool.
Variable is_context_manager : Provider -> bool.
Variable is_async_gen_callable : Provider -> bool.
Variable is_gen_callable : Provider -> bool.
Variable is_coroutine_callable : Provider -> bool.
Variable provider_call : Provider -> list (string * Value) -> nat -> Value + Exn.

Local Abbreviation wrap_call' := (wrap_call is_async_context_manager is_context_manager
  is_async_gen_callable is_gen_callable is_coroutine_callable).
Local Abbreviation build_task := (build_task G is_async_context_manager
  is_context_manager is_async_gen_callable is_gen_callable is_coroutine_callable).
Local Abbreviation fresh_task := (fresh_task G is_async_context_manager
  is_context_manager is_async_gen_callable is_gen_callable is_coroutine_callable).
Local Abbreviation execute := (execute G is_async_context_manager
  is_context_manager is_async_gen_callable is_gen_callable is_coroutine_callable
  provider_call).

Lemma build_task_leaf fuel st d ts sc stack cv :
  resolve_scope st (scope (G d)) = Return ts ->
  dependencies (G (apply_binds G st d)) = [] ->
  resolve_scope st (scope (G (apply_binds G st d))) = Return sc ->
  check_scope st sc = Return tt ->
  stack_for st sc = Return stack ->
  (if bool_decide (sc <> Unscoped)
   then find_cached st (call (G (apply_binds G st d))) (reverse (scopes st))
   else Return None) = Return cv ->
  exists L,
    build_task (S fuel) st d empty_locals = Return (bool_decide (is_Some cv), 0, L) /\
    heap L = [fresh_task ts (apply_binds G st d) stack [] cv] /\
    task_cache L = [(apply_binds G st d, 0)].
Proof.
  intros Hts Hleaf Hsc Hchk Hstack Hcv. simpl. unfold build_task_body.
  rewrite decide_False by set_solver. rewrite Hts. simpl.
  unfold apply_call_cache.
  destruct (decide (ts = Unscoped)) as [Hu|Hu]; simpl.
  - rewrite Hsc. simpl. rewrite Hchk. simpl. rewrite Hstack. simpl.
    rewrite Hleaf. simpl. rewrite Hcv. simpl.
    destruct cv as [value|]; simpl; eexists; (split; [reflexivity|]); done.
  - rewrite lookup_empty. simpl.
    rewrite Hsc. simpl. rewrite Hchk. simpl. rewrite Hstack. simpl.
    rewrite Hleaf. simpl. rewrite Hcv. simpl.
    destruct cv as [value|]; simpl; eexists; (split; [reflexivity|]); done.
Qed.

(* `execute` of a description without sub-dependants, step by step: the
   value found in the cache, or one invocation and the write to the bucket
   of the scope the description resolves to. *)
Lemma execute_leaf fuel d w ts sc stack cv :
  resolve_scope (w_state w) (scope (G d)) = Return ts ->
  dependencies (G (apply_binds G (w_state w) d)) = [] ->
  resolve_scope (w_state w) (scope (G (apply_binds G (w_state w) d))) = Return sc ->
  check_scope (w_state w) sc = Return tt ->
  stack_for (w_state w) sc = Return stack ->
  (if bool_decide (sc <> Unscoped)
   then find_cached (w_state w) (call (G (apply_binds G (w_state w) d)))
          (reverse (scopes (w_state w)))
   else Return None) = Return cv ->
  execute (S fuel) d w =
    match cv with
    | Some value => (Return value, w)
    | None =>
        match invoke provider_call
                (wrap_call' (call (G (apply_binds G (w_state w) d))) stack) [] w with
        | (Return v, w1) =>
            match ts with
            | Named s =>
                match cache_store s (call (G (apply_binds G (w_state w) d))) v w1 with
                | (Return _, w2) => (Return v, w2)
                | (Raise e, w2) => (Raise e, w2)
                | (OutOfFuel, w2) => (OutOfFuel, w2)
                end
            | _ => (Return v, w1)
            end
        | (Raise e, w1) => (Raise e, w1)
        | (OutOfFuel, w1) => (OutOfFuel, w1)
        end
    end.
Proof.
  intros Hts Hleaf Hsc Hchk Hstack Hcv.
  pose proof (resolve_scope_not_Inherit _ _ _ Hts) as Hni.
  destruct (build_task_leaf fuel _ d ts sc stack cv Hts Hleaf Hsc Hchk Hstack Hcv)
    as (L & Hb & Hheap & Htc).
  unfold execute. rewrite Hb, Hheap, Htc.
  destruct cv as [value|]; [reflexivity|].
  cbn [fresh_task]. simpl.
  unfold task_result_body. simpl.
  destruct (invoke _ _ _ w) as [[v|e|] w1] eqn:Hinv; [|done|done].
  simpl. unfold commit. simpl.
  destruct ts as [| |s]; [done|done|]. simpl.
  destruct (cache_store s _ v w1) as [[[]|e|] w2] eqn:Hst; [|done|done].
  apply cache_store_twice in Hst as Hst2.
  assert (Hres : resolve_scope (w_state w2) (Named s) = Return (Named s)) by done.
  simpl. unfold task_result_body. simpl. by rewrite Hst2.
Qed.

End LeafFacts.

(* --------------------------------------------------------------------- *)
(* Invocations within one round, and the arguments of a call             *)
(* --------------------------------------------------------------------- *)

Lemma pending_le_one p h :
  (forall i j ti tj, h !! i = Some ti -> h !! j = Some tj ->
     invokes p ti = true -> invokes p tj = true -> i = j) ->
  pending p h <= 1.
Proof.
  induction h as [|t h IH]; intros Hu; [simpl; lia|].
  change (pending p (t :: h)) with ((if invokes p t then 1 else 0) + pending p h).
  destruct (invokes p t) eqn:Ht.
  - rewrite pending_zero; [lia|]. intros t' [j Hj]%list_elem_of_lookup.
    destruct (invokes p t') eqn:Ht'; [|done].
    by specialize (Hu 0 (S j) t t' eq_refl Hj Ht Ht').
  - apply IH. intros i j ti tj Hi Hj Hti Htj.
    specialize (Hu (S i) (S j) ti tj Hi Hj Hti Htj). lia.
Qed.

Lemma resolve_scope_Unscoped st sc :
  resolve_scope st sc = Return Unscoped -> sc = Unscoped.
Proof.
  destruct sc as [| |s]; simpl; [done| |done].
  case_decide; [done|]. by destruct (last (scopes st)).
Qed.

Section MoreFacts.
Variable G : DepId -> Dependant.
Variable is_async_context_manager : Provider -> bool.
Variable is_context_manager : Provider -> bool.
Variable is_async_gen_callable : Provider -> bool.
Variable is_gen_callable : Provider -> bool.
Variable is_coroutine_callable : Provider -> bool.
Variable provider_call : Provider -> list (string * Value) -> nat -> Value + Exn.

Local Abbreviation built := (built G is_async_context_manager
  is_context_manager is_async_gen_callable is_gen_callable is_coroutine_callable).
Local Abbreviation built_subs := (built_subs G is_async_context_manager
  is_context_manager is_async_gen_callable is_gen_callable is_coroutine_callable).
Local Abbreviation invoke := (invoke provider_call).
Local Abbreviation task_result := (task_result provider_call).

Lemma invoke_returns c p values w v :
  call_provider c = Some p ->
  provider_call p values (calls_of p (w_log w)) = inl v ->
  exists w1, invoke c values w = (Return v, w1).
Proof.
  destruct c; simpl; intros [= ->] Hv; rewrite Hv; eauto.
Qed.

(* When every description of provider `p` has a caching scope and no
   binding leads to one, every Task that invokes `p` has a caching scope. *)
Lemma built_scoped_only st p :
  (forall d, call (G d) = p -> scope (G d) <> Unscoped) ->
  (forall q x, binds st !! q = Some x -> call (G x) <> p) ->
  (forall d L b t L', built st d L b t L' ->
     Forall (fun t => call_provider (t_call t) = Some p -> t_scope t <> Unscoped)
       (heap L) ->
     Forall (fun t => call_provider (t_call t) = Some p -> t_scope t <> Unscoped)
       (heap L')) /\
  (forall deps allow subtasks L allow' subtasks' L',
     built_subs st deps allow subtasks L allow' subtasks' L' ->
     Forall (fun t => call_provider (t_call t) = Some p -> t_scope t <> Unscoped)
       (heap L) ->
     Forall (fun t => call_provider (t_call t) = Some p -> t_scope t <> Unscoped)
       (heap L')).
Proof.
  intros Hall Hbinds. apply built_both_ind.
  - intros d L ts d1 L1 t _ _ Hcc _ HF.
    apply apply_call_cache_same in Hcc as (_ & _ & ->). done.
  - intros d L ts d1 L1 sc stack allow subtasks L2 cv _ Hts Hcc _ _ _ _ _ IH _ HF.
    pose proof Hcc as Hcc'.
    apply apply_call_cache_same in Hcc' as (_ & _ & Hh). simpl.
    apply Forall_app. split; [apply IH; by rewrite Hh|].
    apply Forall_singleton. destruct cv as [value|]; simpl; [done|].
    rewrite call_provider_wrap_call. intros [= Hp] ->.
    unfold apply_call_cache in Hcc. rewrite decide_True in Hcc by done.
    injection Hcc as <- _. unfold apply_binds in Hp.
    destruct (binds st !! call (G d)) as [x|] eqn:Hx.
    + by apply (Hbinds _ _ Hx).
    + apply resolve_scope_Unscoped in Hts. by apply (Hall d).
  - done.
  - intros name c deps allow subtasks L allow1 t L1 allow' subtasks' L' _ IH1 _ IH2 HF.
    apply IH2. simpl. by apply IH1.
Qed.

(* The keyword arguments `result()` collects: one per dependency, under
   its name and in order, each the result stored in the sub-task. *)
Lemma collect_values_args rec :
  result_ok provider_call rec ->
  forall deps n h w values h' w', heap_wf h -> Forall (fun kc => kc.2 < n) deps ->
    collect_values rec deps h w = (Return values, (h', w')) ->
    Forall2 (fun kc kv => kc.1 = kv.1 /\
               exists t, h' !! kc.2 = Some t /\ t_result t = Some kv.2) deps values.
Proof.
  intros Hrec deps n. induction deps as [|[k c] rest IH]; simpl;
    intros h w values h' w' Hwf Hlt Hrun.
  - injection Hrun as <- <- <-. constructor.
  - apply Forall_cons in Hlt as [Hc Hrest]. simpl in Hc.
    destruct (rec c h w) as [r1 [h1 w1]] eqn:Hc1.
    destruct (Hrec _ _ _ _ _ _ Hwf Hc1) as (Hs1 & _ & Hv1).
    destruct r1 as [v1|e1|]; [|done|done].
    destruct (collect_values rec rest h1 w1) as [r2 [h2 w2]] eqn:Hc2.
    destruct r2 as [vs|e2|]; [|done|done]. injection Hrun as <- <- <-.
    assert (Hwf1 : heap_wf h1) by by eapply steps_wf.
    destruct (collect_values_ok provider_call rec Hrec _ _ _ _ _ _ _ Hwf1 Hrest Hc2)
      as [Hs2 _].
    constructor; [|by eapply IH].
    split; [done|]. simpl.
    destruct (Hv1 v1 eq_refl) as (t & Ht & Hres).
    apply steps_heap_le in Hs2.
    destruct (heap_le_lookup_l _ _ _ _ Hs2 Ht) as (t' & Ht' & (_ & _ & _ & _ & Hr)).
    exists t'. split; [done|]. by apply Hr.
Qed.

End MoreFacts.

(* --------------------------------------------------------------------- *)
(* Cycles: a description that is among its own sub-dependants            *)
(* --------------------------------------------------------------------- *)

Section CycleFacts.
Variable G : DepId -> Dependant.
Variable is_async_context_manager : Provider -> bool.
Variable is_context_manager : Provider -> bool.
Variable is_async_gen_callable : Provider -> bool.
Variable is_gen_callable : Provider -> bool.
Variable is_coroutine_callable : Provider -> bool.
Variable st : ContainerState.
Hypothesis no_binds : binds st = ∅.
Hypothesis providers_inj : forall d d', call (G d) = call (G d') -> d = d'.

Local Abbreviation built := (built G is_async_context_manager
  is_context_manager is_async_gen_callable is_gen_callable is_coroutine_callable st).
Local Abbreviation built_subs := (built_subs G is_async_context_manager
  is_context_manager is_async_gen_callable is_gen_callable is_coroutine_callable st).
Local Abbreviation has_task L x := (is_Some (dict_get (task_cache L) x)).

(* With one description per provider and no bindings, the description
   that is built is the one that was asked for. *)
Lemma canonical_self ts d L d1 L1 :
  build_inv G L ->
  apply_call_cache G ts (apply_binds G st d) L = (d1, L1) -> d1 = d.
Proof.
  intros HI. unfold apply_binds. rewrite no_binds, lookup_empty.
  unfold apply_call_cache. case_decide; [by intros [= <- _]|].
  destruct (call_cache L !! call (G d)) as [x|] eqn:Hx; intros [= <- _]; [|done].
  apply providers_inj. by apply (inv_call_cache _ _ HI).
Qed.

(* The descriptions that have a Task have been seen, and so have their
   sub-dependants, which have a Task too; a call of `_build_task` gives a
   Task to the description it is called on, and to no description that
   had been seen before. *)
Lemma built_has_task :
  (forall d L b t L', built d L b t L' ->
     build_inv G L ->
     (forall x, has_task L x -> x ∈ seen L) ->
     (forall x c, has_task L x -> sub_dependant G x c -> has_task L c) ->
     (forall x, has_task L' x -> x ∈ seen L') /\
     (forall x c, has_task L' x -> sub_dependant G x c -> has_task L' c) /\
     has_task L' d /\
     (forall x, has_task L' x -> has_task L x \/ x ∉ seen L)) /\
  (forall deps allow subtasks L allow' subtasks' L',
     built_subs deps allow subtasks L allow' subtasks' L' ->
     build_inv G L ->
     (forall x, has_task L x -> x ∈ seen L) ->
     (forall x c, has_task L x -> sub_dependant G x c -> has_task L c) ->
     (forall x, has_task L' x -> x ∈ seen L') /\
     (forall x c, has_task L' x -> sub_dependant G x c -> has_task L' c) /\
     (forall c, c ∈ dict_values deps -> has_task L' c) /\
     (forall x, has_task L' x -> has_task L x \/ x ∉ seen L)).
Proof.
  apply built_both_ind.
  - intros d L ts d1 L1 t Hseen _ Hcc Hget HI Hs Hc. exfalso.
    pose proof Hcc as Hcc'. apply canonical_self in Hcc' as ->;
      [|by apply build_inv_add_seen].
    apply apply_call_cache_same in Hcc as (_ & Htc & _). rewrite Htc in Hget.
    simpl in Hget. apply Hseen, Hs. by rewrite Hget.
  - intros d L ts d1 L1 sc stack allow subtasks L2 cv Hseen _ Hcc _ _ _ _ Hsubs IH _
      HI Hs Hc.
    pose proof Hcc as Hcc'. apply canonical_self in Hcc' as ->;
      [|by apply build_inv_add_seen].
    destruct (build_inv_apply_call_cache _ _ _ _ _ _ Hcc (build_inv_add_seen _ _ _ HI))
      as [HI1 _].
    apply apply_call_cache_same in Hcc as (Hs1 & Htc & _). simpl in Hs1, Htc.
    destruct IH as (Hs2 & Hc2 & Hkids & Hnew); [done| | |].
    { intros x Hx. rewrite Htc in Hx. rewrite Hs1. apply Hs in Hx. set_solver. }
    { intros x c Hx Hxc. rewrite Htc in Hx |- *. by eapply Hc. }
    apply (proj2 (built_grows _ _ _ _ _ _ _)) in Hsubs as Hgr.
    assert (Hd2 : d ∈ seen L2).
    { apply (grows_seen _ _ Hgr). rewrite Hs1. set_solver. }
    simpl. split; [|split; [|split]].
    + intros x. rewrite dict_get_set. case_decide; subst; [done|]. apply Hs2.
    + intros x c. rewrite !dict_get_set. intros Hx Hxc.
      destruct (decide (d = c)); [done|].
      destruct (decide (d = x)) as [<-|Hne]; [by apply Hkids|by eapply Hc2].
    + by rewrite dict_get_set, decide_True.
    + intros x. rewrite dict_get_set. case_decide; subst; [by right|].
      intros Hx. destruct (Hnew x Hx) as [Hold|Hns].
      * left. by rewrite Htc in Hold.
      * right. rewrite Hs1 in Hns. set_solver.
  - intros allow subtasks L _ Hs Hc. split; [done|]. split; [done|].
    split; [|by left]. intros c Hin. by apply elem_of_nil in Hin.
  - intros name c deps allow subtasks L allow1 t L1 allow' subtasks' L' Hb IH1 Hsubs IH2
      HI Hs Hc.
    destruct (IH1 HI Hs Hc) as (Hs1 & Hc1 & Hdone & Hnew1).
    pose proof (proj1 (built_inv _ _ _ _ _ _ _) _ _ _ _ _ Hb HI) as HI1.
    apply (proj1 (built_grows _ _ _ _ _ _ _)) in Hb as [Hgr1 _].
    assert (Hsame : forall x, has_task (set_task_cache c t L1) x <-> has_task L1 x).
    { intros x. simpl. rewrite dict_get_set. case_decide; subst; [|done].
      split; [done|by eauto]. }
    destruct IH2 as (Hs2 & Hc2 & Hkids & Hnew2).
    { by apply build_inv_set_task_cache. }
    { intros x Hx. apply Hsame in Hx. by apply Hs1. }
    { intros x c' Hx Hxc. apply Hsame. apply Hsame in Hx. by eapply Hc1. }
    apply (proj2 (built_grows _ _ _ _ _ _ _)) in Hsubs as Hgr2.
    split; [done|]. split; [done|]. split.
    + intros c' Hin. unfold dict_values in Hin. rewrite fmap_cons in Hin.
      apply elem_of_cons in Hin as [->|Hin]; [|by apply Hkids].
      simpl. apply (grows_task_cache _ _ Hgr2). by apply Hsame.
    + intros x Hx. destruct (Hnew2 x Hx) as [Hold|Hns].
      * apply Hsame in Hold. by apply Hnew1.
      * right. intros Hin. apply Hns. simpl. by apply (grows_seen _ _ Hgr1).
Qed.

(* A description that is among its own sub-dependants, directly or
   through others, is never given a Task. *)
Lemma cyclic_never_built d b t L' :
  tc (sub_dependant G) d d -> ~ built d empty_locals b t L'.
Proof.
  intros Hcycle Hb.
  assert (Hkid : exists c, sub_dependant G d c /\ rtc (sub_dependant G) c d).
  { inversion Hcycle as [x y Hxy|x y z Hxy Hyz]; subst.
    - exists d. split; [done|apply rtc_refl].
    - exists y. split; [done|]. by apply tc_rtc. }
  destruct Hkid as (c & Hdc & Hcd).
  inversion Hb as [d0 L0 ts d1 L1 t0 Hseen Hts Hcc Hhit
                  |d0 L0 ts d1 L1 sc stack allow subtasks L2 cv Hseen Hts Hcc Hmiss Hsc
                     Hchk Hstack Hsubs Hcv]; subst.
  - pose proof Hcc as Hcc'. apply canonical_self in Hcc' as ->;
      [|apply build_inv_add_seen, build_inv_empty].
    apply apply_call_cache_same in Hcc as (_ & Htc & _). by rewrite Htc in Hhit.
  - pose proof Hcc as Hcc'. apply canonical_self in Hcc' as ->;
      [|apply build_inv_add_seen, build_inv_empty].
    destruct (build_inv_apply_call_cache _ _ _ _ _ _ Hcc
                (build_inv_add_seen _ _ _ (build_inv_empty G))) as [HI1 _].
    apply apply_call_cache_same in Hcc as (Hs1 & Htc & _). simpl in Hs1, Htc.
    destruct (proj2 built_has_task _ _ _ _ _ _ _ Hsubs HI1) as (_ & Hc2 & Hkids & Hnew).
    { intros x Hx. rewrite Htc in Hx. by destruct Hx. }
    { intros x c' Hx. rewrite Htc in Hx. by destruct Hx. }
    assert (Hc : has_task L2 c) by by apply Hkids.
    assert (Hd : has_task L2 d).
    { clear Hdc. induction Hcd as [x|x y z Hxy _ IH]; [done|].
      apply IH; try done. by eapply Hc2. }
    destruct (Hnew d Hd) as [Hold|Hns].
    + rewrite Htc in Hold. by destruct Hold.
    + apply Hns. rewrite Hs1. set_solver.
Qed.

End CycleFacts.

(* ===================================================================== *)
(* The properties of the specification                                   *)
(* ===================================================================== *)

Section Claims.
Variable G : DepId -> Dependant.
Variable is_async_context_manager : Provider -> bool.
Variable is_context_manager : Provider -> bool.
Variable is_async_gen_callable : Provider -> bool.
Variable is_gen_callable : Provider -> bool.
Variable is_coroutine_callable : Provider -> bool.
Variable provider_call : Provider -> list (string * Value) -> nat -> Value + Exn.
Variable guard_exit : Guard -> option Exn -> ExitOutcome.

Local Abbreviation wrap_call := (wrap_call is_async_context_manager is_context_manager
  is_async_gen_callable is_gen_callable is_coroutine_callable).
Local Abbreviation build_task := (build_task G is_async_context_manager
  is_context_manager is_async_gen_callable is_gen_callable is_coroutine_callable).
Local Abbreviation execute := (execute G is_async_context_manager
  is_context_manager is_async_gen_callable is_gen_callable is_coroutine_callable
  provider_call).
Local Abbreviation run_op := (run_op G is_async_context_manager
  is_context_manager is_async_gen_callable is_gen_callable is_coroutine_callable
  provider_call guard_exit).
Local Abbreviation run_ops := (run_ops G is_async_context_manager
  is_context_manager is_async_gen_callable is_gen_callable is_coroutine_callable
  provider_call guard_exit).

(** C5: when a scope exits, the exit stack of the scope runs the exit of
    every guard that was entered on it, once each, in the reverse of the
    order in which they were entered, and it runs none of them before;
    this holds whether the body of the scope returned or raised, so also
    when the body ended because a later guard failed to enter.  Here `evs`
    is what happened inside the body, `entered s evs` the guards entered
    on the stack of `s` in order, and the trace after the exit is the
    trace of the body followed by their exits in reverse. *)
Theorem scope_exit_unwinds_in_reverse (fuel : nat) (s : ScopeId) (body : list Op)
    (w w' : World) (r : Result unit) :
  consistent (w_state w) ->
  s ∉ dom (stacks (w_state w)) ->
  run_op fuel (OpScope s body) w = (r, w') ->
  r <> OutOfFuel ->
  exists rb w2 evs,
    run_ops fuel body (enter_world s w) = (rb, w2) /\
    w_log w2 = w_log w ++ evs /\
    stacks (w_state w2) !! s = Some (entered s evs) /\
    exited s evs = [] /\
    w_log w' = w_log w ++ evs ++ (EvExit s <$> reverse (entered s evs)) /\
    exited s (evs ++ (EvExit s <$> reverse (entered s evs))) = reverse (entered s evs).
Proof.
  intros Hcons Hs Hrun Hr. rewrite run_op_scope in Hrun.
  eapply enter_scope_run in Hrun as
    (rb & w1 & w2 & evs & -> & Hb & Hsr & Hstack & Hst & Hfuel & Hexit);
    [|intros; by eapply run_ops_scoped_run|done|done].
  assert (Hrb : rb <> OutOfFuel).
  { intros ->. by destruct Hfuel as [? _]. }
  destruct (Hexit Hrb) as [_ Hlog].
  assert (Hex : exited s evs = []).
  { apply (sr_exited _ _ _ Hsr). simpl. rewrite dom_insert_L. set_solver. }
  exists rb, w2, evs. split; [done|]. split; [apply (sr_log _ _ _ Hsr)|].
  split; [done|]. split; [done|]. split.
  - rewrite Hlog, (sr_log _ _ _ Hsr). simpl. by rewrite app_assoc.
  - unfold exited. rewrite omap_app. fold (exited s evs).
    fold (exited s (EvExit s <$> reverse (entered s evs))).
    by rewrite Hex, exited_exits.
Qed.

(** C6: leaving a scope puts the container back, whether the body
    returned or raised: the active scopes are those before the entry (the
    scope id is popped), the scope has no bucket in the result cache and no
    exit stack any more, the other buckets and stacks are the same ones,
    and the binding table is the one of the entry, whatever was bound
    inside. *)
Theorem scope_exit_restores (fuel : nat) (s : ScopeId) (body : list Op)
    (w w' : World) (r : Result unit) :
  consistent (w_state w) ->
  s ∉ dom (stacks (w_state w)) ->
  run_op fuel (OpScope s body) w = (r, w') ->
  scopes (w_state (enter_world s w)) = scopes (w_state w) ++ [s] /\
  scopes (w_state w') = scopes (w_state w) /\
  binds (w_state w') = binds (w_state w) /\
  cached_values (w_state w') !! s = None /\
  stacks (w_state w') !! s = None /\
  dom (cached_values (w_state w')) = dom (cached_values (w_state w)) /\
  dom (stacks (w_state w')) = dom (stacks (w_state w)).
Proof.
  intros Hcons Hs Hrun. rewrite run_op_scope in Hrun.
  pose proof Hrun as Hrun'.
  eapply enter_scope_run in Hrun as
    (rb & w1 & w2 & evs & -> & Hb & Hsr & Hstack & Hst & Hfuel & Hexit);
    [|intros; by eapply run_ops_scoped_run|done|done].
  eapply enter_scope_scoped_run in Hrun' as [evs' Hsr'];
    [|intros; by eapply run_ops_scoped_run|done].
  split; [done|]. split; [apply (sr_scopes _ _ _ Hsr')|].
  rewrite Hst. simpl. split; [done|]. split; [apply lookup_delete_eq|].
  split; [apply lookup_delete_eq|].
  rewrite <- (sr_dom_cached _ _ _ Hsr'), <- (sr_dom_stacks _ _ _ Hsr'), Hst. done.
Qed.

(** C10: building the Task of a dependency whose scope resolves to
    Unscoped needs an active scope.  `_check_scope` lets Unscoped pass, and
    the call is then bound to the exit stack of the innermost active scope
    (`self.state.scopes[-1]`): with no active scope that indexing raises
    IndexError, not UnknownScopeError; and whenever the build returns, the
    Task it made is bound to the stack of the innermost scope. *)
Theorem unscoped_needs_active_scope (st : ContainerState) (d : DepId) (L : Locals) :
  scope (G d) = Unscoped ->
  scope (G (apply_binds G st d)) = Unscoped ->
  d ∉ seen L ->
  dict_get (task_cache L) (apply_binds G st d) = None ->
  (forall sc, check_scope st sc = Return tt <-> sc = Unscoped \/
     exists s, sc = Named s /\ s ∈ dom (stacks st)) /\
  (scopes st = [] ->
     forall fuel, build_task (S fuel) st d L = Raise IndexError) /\
  (forall fuel b t L', build_task fuel st d L = Return (b, t, L') ->
     exists s task, last (scopes st) = Some s /\ heap L' !! t = Some task /\
       t_call task = wrap_call (call (G (apply_binds G st d))) s /\
       t_scope task = Unscoped).
Proof.
  intros Hsc Hsc1 Hseen Hget. split; [|split].
  - intros [| |s]; simpl.
    + split; [by left|done].
    + split; [done|]. by intros [?|(s & ? & _)].
    + case_decide; split; try done.
      * intros _. right. by exists s.
      * by intros [?|(s' & [= <-] & ?)].
  - intros Hempty fuel. simpl. unfold build_task_body.
    rewrite decide_False by done. rewrite Hsc. simpl.
    rewrite Hget, Hsc1. simpl. unfold stack_for. by rewrite Hempty.
  - intros fuel b t L' Hb. apply build_task_built in Hb.
    inversion Hb as [d0 L0 ts d1 L1 t0 _ Hts Hcc Hhit
                    |d0 L0 ts d1 L1 sc stack allow subtasks L2 cv _ Hts Hcc Hmiss Hsc2
                       Hchk Hstack Hsubs Hcv]; subst.
    + rewrite Hsc in Hts. injection Hts as <-.
      unfold apply_call_cache in Hcc. rewrite decide_True in Hcc by done.
      injection Hcc as <- <-. simpl in Hhit. congruence.
    + rewrite Hsc in Hts. injection Hts as <-.
      unfold apply_call_cache in Hcc. rewrite decide_True in Hcc by done.
      injection Hcc as <- <-. rewrite Hsc1 in Hsc2. injection Hsc2 as <-.
      rewrite andb_false_r in Hcv. injection Hcv as <-.
      unfold stack_for in Hstack. simpl in Hstack.
      destruct (last (scopes st)) as [s|] eqn:Hlast; [|done]. simpl in Hstack.
      case_decide; [|done]. injection Hstack as <-.
      exists s. eexists. split; [done|]. simpl. split.
      * rewrite lookup_app_r by done. by rewrite Nat.sub_diag.
      * done.
Qed.




End Claims.

(* ===================================================================== *)
(* Further properties of the code                                        *)
(* ===================================================================== *)

Section Extras.
Variable G : DepId -> Dependant.
Variable is_async_context_manager : Provider -> bool.
Variable is_context_manager : Provider -> bool.
Variable is_async_gen_callable : Provider -> bool.
Variable is_gen_callable : Provider -> bool.
Variable is_coroutine_callable : Provider -> bool.
Variable provider_call : Provider -> list (string * Value) -> nat -> Value + Exn.
Variable guard_exit : Guard -> option Exn -> ExitOutcome.

Local Abbreviation wrap_call := (wrap_call is_async_context_manager is_context_manager
  is_async_gen_callable is_gen_callable is_coroutine_callable).
Local Abbreviation build_task := (build_task G is_async_context_manager
  is_context_manager is_async_gen_callable is_gen_callable is_coroutine_callable).
Local Abbreviation execute := (execute G is_async_context_manager
  is_context_manager is_async_gen_callable is_gen_callable is_coroutine_callable
  provider_call).
Local Abbreviation run_op := (run_op G is_async_context_manager
  is_context_manager is_async_gen_callable is_gen_callable is_coroutine_callable
  provider_call guard_exit).
Local Abbreviation run_ops := (run_ops G is_async_context_manager
  is_context_manager is_async_gen_callable is_gen_callable is_coroutine_callable
  provider_call guard_exit).

(** X1: on a finite description graph, cyclic or not,
    `get_flat_subdependants(dependant)` returns, and what it returns is
    the set of the descriptions that can be reached from `dependant`
    through `dependencies`, without `dependant` itself (also when
    `dependant` is among its own sub-dependants). *)
Theorem get_flat_subdependants_reachable (N : nat) (d : DepId) (fuel : nat) :
  closed_below G N -> d < N -> entry_weight G N ∅ d <= fuel ->
  exists S, get_flat_subdependants G fuel d = Return S /\
    forall x, x ∈ S <-> x <> d /\ rtc (sub_dependant G) d x.
Proof.
  intros Hg Hd Hfuel.
  destruct (flat_loop_enough_fuel G N Hg fuel ∅ [d]) as [S0 Hrun].
  { by repeat constructor. }
  { unfold queue_weight. cbn [sum_list_with]. lia. }
  destruct (flat_loop_inv G d fuel ∅ [d] S0 Hrun) as (Hsub & Hsound & Hclosed).
  { intros x [Hx|Hx]; [set_solver|]. apply list_elem_of_singleton in Hx as ->.
    apply rtc_refl. }
  { intros x c Hx. set_solver. }
  exists (S0 ∖ {[d]}). split.
  { unfold get_flat_subdependants. by rewrite Hrun. }
  intros x. rewrite elem_of_difference, elem_of_singleton. split.
  - intros [Hx Hne]. split; [done|by apply Hsound].
  - intros [Hne Hreach]. split; [|done].
    assert (Hd0 : d ∈ S0). { apply Hsub. right. by left. }
    assert (Hall : forall a b, rtc (sub_dependant G) a b -> a ∈ S0 -> b ∈ S0).
    { intros a b Hab. induction Hab as [a|a b c Hab _ IH]; [done|].
      intros Ha. apply IH. by eapply Hclosed. }
    by eapply Hall.
Qed.

(** X3: nothing can be executed outside a scope.  With no active scope,
    `execute` of any description raises before any provider is invoked
    and leaves the container as it was: IndexError when the description
    is not tagged Inherit and the description that is built (the bound one,
    if its provider is bound) is Unscoped, UnknownScopeError otherwise. *)
Theorem execute_needs_a_scope (fuel : nat) (d : DepId) (w : World) :
  scopes (w_state w) = [] -> stacks (w_state w) = ∅ ->
  execute (S fuel) d w =
    (Raise (if bool_decide (scope (G d) <> Inherit /\
                            scope (G (apply_binds G (w_state w) d)) = Unscoped)
            then IndexError else UnknownScopeError), w).
Proof.
  intros Hscopes Hstacks. unfold execute. simpl. unfold build_task_body.
  rewrite decide_False by set_solver.
  destruct (scope (G d)) as [| |s] eqn:Hsc; simpl.
  - destruct (scope (G (apply_binds G (w_state w) d))) as [| |s1] eqn:Hsc1; simpl.
    + unfold stack_for. by rewrite Hscopes.
    + by rewrite Hscopes.
    + by rewrite Hstacks, dom_empty_L, decide_False by set_solver.
  - by rewrite Hscopes.
  - unfold apply_call_cache. simpl. rewrite lookup_empty. simpl.
    destruct (scope (G (apply_binds G (w_state w) d))) as [| |s1] eqn:Hsc1; simpl.
    + unfold stack_for. by rewrite Hscopes.
    + by rewrite Hscopes.
    + by rewrite Hstacks, dom_empty_L, decide_False by set_solver.
Qed.

(** X4: a description whose scope has not been entered cannot be
    executed.  When the description that is built (the bound one, if the
    provider is bound) names a scope that is not active, `execute` raises
    UnknownScopeError before any provider is invoked, and the container
    and the trace are as they were. *)
Theorem execute_unknown_scope (fuel : nat) (d : DepId) (s : ScopeId) (w : World)
    (ts : Scope) :
  resolve_scope (w_state w) (scope (G d)) = Return ts ->
  scope (G (apply_binds G (w_state w) d)) = Named s ->
  s ∉ dom (stacks (w_state w)) ->
  execute (S fuel) d w = (Raise UnknownScopeError, w).
Proof.
  intros Hts Hsc Hs. unfold execute. simpl. unfold build_task_body.
  rewrite decide_False by set_solver. rewrite Hts. simpl.
  unfold apply_call_cache. destruct (decide (ts = Unscoped)); simpl.
  - rewrite Hsc. simpl. by rewrite decide_False.
  - rewrite lookup_empty. simpl. rewrite Hsc. simpl. by rewrite decide_False.
Qed.

(** X5: what `execute` leaves alone, whether it returns or raises: the
    bindings, the active scopes, the set of buckets and the set of exit
    stacks are the same afterwards; the trace only grows; no guard is
    exited; and every exit stack holds what it held, followed by the guards
    that were entered on it. *)
Theorem execute_frame (fuel : nat) (d : DepId) (w : World) :
  binds (w_state (execute fuel d w).2) = binds (w_state w) /\
  scopes (w_state (execute fuel d w).2) = scopes (w_state w) /\
  dom (cached_values (w_state (execute fuel d w).2)) = dom (cached_values (w_state w)) /\
  dom (stacks (w_state (execute fuel d w).2)) = dom (stacks (w_state w)) /\
  exists evs,
    w_log (execute fuel d w).2 = w_log w ++ evs /\
    (forall s, exited s evs = []) /\
    (forall s l, stacks (w_state w) !! s = Some l ->
       stacks (w_state (execute fuel d w).2) !! s = Some (l ++ entered s evs)).
Proof.
  destruct (execute fuel d w) as [r w'] eqn:He.
  apply execute_extends in He as [evs Hx]. simpl.
  split; [apply Hx|]. split; [apply Hx|]. split; [apply Hx|]. split; [apply Hx|].
  exists evs. split; [apply Hx|]. split; apply Hx.
Qed.

(** X6: a scope that is active cannot be entered again.  An active scope
    stays active through any code that leaves the scopes it enters, and
    entering it again, at any depth, raises DuplicateScopeError without
    running the body and without touching the container. *)
Theorem scope_reentry_raises (fuel : nat) (s : ScopeId) (before inner : list Op)
    (w w1 : World) (r : Result unit) :
  consistent (w_state w) ->
  s ∈ dom (stacks (w_state w)) ->
  run_ops fuel before w = (r, w1) ->
  s ∈ dom (stacks (w_state w1)) /\
  run_op fuel (OpScope s inner) w1 = (Raise DuplicateScopeError, w1).
Proof.
  intros Hcons Hs Hrun.
  eapply run_ops_scoped_run in Hrun as [evs Hsr]; [|done].
  assert (Hs1 : s ∈ dom (stacks (w_state w1))).
  { by rewrite (sr_dom_stacks _ _ _ Hsr). }
  split; [done|].
  change (run_op fuel (OpScope s inner) w1)
    with (enter_scope guard_exit (run_seq (run_op fuel) inner) s w1).
  unfold enter_scope. by rewrite decide_True.
Qed.

(** X7: the cache is searched from the innermost active scope outwards,
    whatever scope the description itself names.  For a description
    without sub-dependants whose provider is not bound and whose own scope
    is active, `execute` returns the value held for its provider by the
    innermost active scope that holds one, also when that is not the scope
    of the description; no provider is invoked and the container is as it
    was. *)
Theorem cache_lookup_innermost_first (fuel : nat) (d : DepId) (w : World)
    (sc : Scope) (outer inner : list ScopeId) (s : ScopeId) (v : Value) :
  binds (w_state w) !! call (G d) = None ->
  dependencies (G d) = [] ->
  resolve_scope (w_state w) (scope (G d)) = Return sc ->
  sc <> Unscoped ->
  check_scope (w_state w) sc = Return tt ->
  scopes (w_state w) = outer ++ s :: inner ->
  cached (w_state w) s (call (G d)) = Some v ->
  Forall (fun s' => exists bucket, cached_values (w_state w) !! s' = Some bucket /\
                      bucket !! call (G d) = None) inner ->
  execute (S fuel) d w = (Return v, w).
Proof.
  intros Hnb Hleaf Hsc Hne Hchk Hscopes Hs Hinner.
  assert (Hd : apply_binds G (w_state w) d = d).
  { unfold apply_binds. by rewrite Hnb. }
  assert (Hstack : exists stack, stack_for (w_state w) sc = Return stack).
  { pose proof (resolve_scope_not_Inherit _ _ _ Hsc) as Hni.
    destruct sc as [| |s0]; [done|done|]. simpl in Hchk.
    unfold stack_for. simpl. case_decide; [by eexists|done]. }
  destruct Hstack as [stack Hstack].
  rewrite (execute_leaf G is_async_context_manager is_context_manager
             is_async_gen_callable is_gen_callable is_coroutine_callable
             provider_call fuel d w sc sc stack (Some v)); try done.
  - by rewrite Hd.
  - by rewrite Hd.
  - rewrite Hd, bool_decide_true by done. rewrite Hscopes.
    rewrite reverse_app, reverse_cons, <- app_assoc. simpl.
    apply find_cached_innermost; [|done]. by apply Forall_reverse.
Qed.

(** X8: `execute` of a description whose provider is bound, the source
    having no sub-dependants and no cached value.  The source's provider
    is invoked once and the target's is not; the scope that is checked is
    the source's; and the value is stored in the bucket of the scope of the
    target's description, under the source's provider.  When that scope
    has no bucket (it was never entered, which the check on the source's
    scope does not see) the write fails with KeyError after the provider
    has run. *)
Theorem execute_bound_provider (fuel : nat) (d src : DepId) (w : World)
    (ts sc : Scope) (stack : ScopeId) (v : Value) :
  binds (w_state w) !! call (G d) = Some src ->
  dependencies (G src) = [] ->
  resolve_scope (w_state w) (scope (G d)) = Return ts ->
  resolve_scope (w_state w) (scope (G src)) = Return sc ->
  check_scope (w_state w) sc = Return tt ->
  stack_for (w_state w) sc = Return stack ->
  (if bool_decide (sc <> Unscoped)
   then find_cached (w_state w) (call (G src)) (reverse (scopes (w_state w)))
   else Return None) = Return None ->
  provider_call (call (G src)) [] (calls_of (call (G src)) (w_log w)) = inl v ->
  calls_of (call (G src)) (w_log (execute (S fuel) d w).2) =
    calls_of (call (G src)) (w_log w) + 1 /\
  (call (G d) <> call (G src) ->
     calls_of (call (G d)) (w_log (execute (S fuel) d w).2) =
       calls_of (call (G d)) (w_log w)) /\
  (forall s, ts = Named s -> s ∈ dom (cached_values (w_state w)) ->
     (execute (S fuel) d w).1 = Return v /\
     cached (w_state (execute (S fuel) d w).2) s (call (G src)) = Some v) /\
  (forall s, ts = Named s -> s ∉ dom (cached_values (w_state w)) ->
     (execute (S fuel) d w).1 = Raise KeyError) /\
  (ts = Unscoped ->
     (execute (S fuel) d w).1 = Return v /\
     cached_values (w_state (execute (S fuel) d w).2) = cached_values (w_state w)).
Proof.
  intros Hb Hleaf Hts Hsc Hchk Hstack Hcv Hv.
  assert (Hd : apply_binds G (w_state w) d = src).
  { unfold apply_binds. by rewrite Hb. }
  destruct (invoke_returns provider_call (wrap_call (call (G src)) stack)
              (call (G src)) [] w v) as [w1 Hinv]; [apply call_provider_wrap_call|done|].
  pose proof (invoke_calls provider_call (call (G src)) _ _ _ _ _ Hinv) as Hc1.
  pose proof (invoke_calls provider_call (call (G d)) _ _ _ _ _ Hinv) as Hc2.
  rewrite call_provider_wrap_call in Hc1, Hc2.
  rewrite bool_decide_true in Hc1 by done.
  destruct (invoke_ran provider_call _ _ _ _ _ Hinv) as [evs Hran].
  rewrite (execute_leaf G is_async_context_manager is_context_manager
             is_async_gen_callable is_gen_callable is_coroutine_callable
             provider_call fuel d w ts sc stack None); rewrite ?Hd; try done.
  rewrite Hinv.
  pose proof (resolve_scope_not_Inherit _ _ _ Hts) as Hni.
  destruct ts as [| |s]; [|done|].
  - simpl. split; [done|]. split.
    { intros Hne. rewrite Hc2, bool_decide_false; [lia|]. by intros [= ?]. }
    split; [done|]. split; [done|]. intros _. split; [done|]. apply Hran.
  - unfold cache_store at 1 2 3 4 5 6.
    destruct (cached_values (w_state w1) !! s) as [bucket|] eqn:Hbucket; simpl.
    + split; [done|]. split.
      { intros Hne. rewrite Hc2, bool_decide_false; [lia|]. by intros [= ?]. }
      split.
      { intros s' [= <-] _. split; [done|]. unfold cached. simpl.
        by rewrite lookup_insert_eq; simpl; rewrite lookup_insert_eq. }
      split; [|done].
      intros s' [= <-] Hnin. exfalso. apply Hnin. apply elem_of_dom.
      rewrite <- (ran_cached _ _ _ Hran). by eexists.
    + split; [done|]. split.
      { intros Hne. rewrite Hc2, bool_decide_false; [lia|]. by intros [= ?]. }
      split; [|done].
      intros s' [= <-] Hin. exfalso. apply elem_of_dom in Hin as [bucket Hin].
      rewrite <- (ran_cached _ _ _ Hran) in Hin. congruence.
Qed.

(** X9: within one `execute`, a provider is shared.  When every
    description of a provider has a caching scope and no binding leads to
    one of them, an `execute` that returns invokes the provider at most
    once, however many descriptions of it the graph holds and however
    many paths lead to them. *)
Theorem scoped_provider_once_per_execute (fuel : nat) (d : DepId) (w w' : World)
    (v : Value) (p : Provider) :
  (forall d', call (G d') = p -> scope (G d') <> Unscoped) ->
  (forall q x, binds (w_state w) !! q = Some x -> call (G x) <> p) ->
  execute fuel d w = (Return v, w') ->
  calls_of p (w_log w') <= calls_of p (w_log w) + 1.
Proof.
  intros Hall Hbinds He.
  destruct (execute_cells _ _ _ _ _ _ _ _ _ _ _ _ He)
    as (b & root & L & h & Hb & _ & Hshape & _ & _ & _ & Hcons & _).
  pose proof (build_task_built _ _ _ _ _ _ _ _ _ _ _ _ _ Hb) as Hbuilt.
  pose proof (proj1 (built_inv _ _ _ _ _ _ _) _ _ _ _ _ Hbuilt (build_inv_empty G)) as HI.
  apply build_inv_unique in HI.
  pose proof (proj1 (built_scoped_only G is_async_context_manager is_context_manager
    is_async_gen_callable is_gen_callable is_coroutine_callable (w_state w) p
    Hall Hbinds) _ _ _ _ _ Hbuilt (Forall_nil_2 _)) as Hsc.
  assert (Hone : pending p (heap L) <= 1).
  { apply pending_le_one. intros i j ti tj Hi Hj Hti Htj.
    unfold invokes in Hti, Htj.
    apply andb_true_iff in Hti as [Hpi _]. apply andb_true_iff in Htj as [Hpj _].
    apply bool_decide_eq_true in Hpi, Hpj.
    pose proof (list_elem_of_lookup_2 _ _ _ Hi) as Hini.
    pose proof (list_elem_of_lookup_2 _ _ _ Hj) as Hinj.
    eapply (HI i j ti tj Hi Hj).
    - by apply (proj1 (Forall_forall _ _) Hsc ti Hini).
    - by apply (proj1 (Forall_forall _ _) Hsc tj Hinj).
    - destruct (proj1 (Forall_forall _ _) Hshape ti Hini) as (_ & Hci & _).
      destruct (proj1 (Forall_forall _ _) Hshape tj Hinj) as (_ & Hcj & _).
      by rewrite <- (Hci p Hpi), <- (Hcj p Hpj). }
  specialize (Hcons p). lia.
Qed.

(** X10: the result of a Task is kept.  Once `result()` of a Task has
    returned a value, whatever `result()` of this or any other Task runs
    afterwards, a later `result()` of the Task returns that value and
    invokes nothing: the Tasks and the container are not touched. *)
Theorem result_is_memoized (fuel fuel2 fuel3 : nat) (tid tid2 : TaskId)
    (h h1 h2 : list Task) (w w1 w2 : World) (v : Value) (r2 : Result Value) :
  heap_wf h ->
  task_result provider_call fuel tid h w = (Return v, (h1, w1)) ->
  task_result provider_call fuel2 tid2 h1 w1 = (r2, (h2, w2)) ->
  task_result provider_call (S fuel3) tid h2 w2 = (Return v, (h2, w2)).
Proof.
  intros Hwf Hr1 Hr2.
  destruct (task_result_ok provider_call fuel _ _ _ _ _ _ Hwf Hr1) as (Hs1 & _ & Hv).
  destruct (Hv v eq_refl) as (t & Ht & Hres).
  assert (Hwf1 : heap_wf h1) by by eapply steps_wf.
  destruct (task_result_ok provider_call fuel2 _ _ _ _ _ _ Hwf1 Hr2) as (Hs2 & _).
  apply steps_heap_le in Hs2.
  destruct (heap_le_lookup_l _ _ _ _ Hs2 Ht) as (t' & Ht' & (_ & _ & _ & _ & Hkeep)).
  simpl. unfold task_result_body. by rewrite Ht', (Hkeep v Hres).
Qed.

(** X11: what an adapted call does.  A call made by `wrap_call` invokes
    the provider exactly once.  When the provider is an asynchronous or
    synchronous context manager or generator and it returns, its guard is
    entered on the very exit stack that was given to `wrap_call`, behind
    the guards already there; in every other case no exit stack changes.
    The bindings, the result cache and the active scopes are not touched. *)
Theorem adapted_call_registers_guard (p : Provider) (stack : ScopeId)
    (values : list (string * Value)) (w : World) :
  calls_of p (w_log (invoke provider_call (wrap_call p stack) values w).2) =
    S (calls_of p (w_log w)) /\
  binds (w_state (invoke provider_call (wrap_call p stack) values w).2) =
    binds (w_state w) /\
  cached_values (w_state (invoke provider_call (wrap_call p stack) values w).2) =
    cached_values (w_state w) /\
  scopes (w_state (invoke provider_call (wrap_call p stack) values w).2) =
    scopes (w_state w) /\
  match provider_call p values (calls_of p (w_log w)) with
  | inl v =>
      (invoke provider_call (wrap_call p stack) values w).1 = Return v /\
      stacks (w_state (invoke provider_call (wrap_call p stack) values w).2) =
        if is_async_context_manager p || is_context_manager p ||
           is_async_gen_callable p || is_gen_callable p
        then alter (fun l => l ++ [mkGuard p (calls_of p (w_log w))]) stack
               (stacks (w_state w))
        else stacks (w_state w)
  | inr e =>
      is_return (invoke provider_call (wrap_call p stack) values w).1 = false /\
      stacks (w_state (invoke provider_call (wrap_call p stack) values w).2) =
        stacks (w_state w)
  end.
Proof.
  destruct (invoke provider_call (wrap_call p stack) values w) as [r w'] eqn:Hinv.
  pose proof (invoke_calls provider_call p _ _ _ _ _ Hinv) as Hc.
  rewrite call_provider_wrap_call, bool_decide_true in Hc by done.
  destruct (invoke_ran provider_call _ _ _ _ _ Hinv) as [evs Hran].
  simpl. split; [lia|]. split; [apply Hran|]. split; [apply Hran|].
  split; [apply Hran|].
  revert Hinv. unfold wrap_call.
  destruct (is_async_context_manager p), (is_context_manager p),
    (is_async_gen_callable p), (is_gen_callable p), (is_coroutine_callable p);
    simpl; destruct (provider_call p values _); by intros [= <- <-].
Qed.

(** X12: `execute` always comes to an end on a finite graph of
    descriptions, cyclic or not: the recursion of `_build_task` is cut by
    `seen`, and `result()` only descends into Tasks made before.  With a
    recursion budget above the number of descriptions the outcome is a
    value or an exception, and no larger budget changes it. *)
Theorem execute_returns_or_raises (N : nat) (d : DepId) (w : World) :
  closed_below G N -> binds_below N (w_state w) -> d < N ->
  exists r w', r <> OutOfFuel /\
    forall fuel, N < fuel -> execute fuel d w = (r, w').
Proof. apply execute_total. Qed.

(** X13: a binding made inside a scope is undone when the scope exits,
    but what it evicted stays evicted: after
    `async with enter_scope(s): bind(target, source)` the bindings are
    those of before, no active scope holds a value for `target`, and the
    other cached values are as they were. *)
Theorem bind_in_scope_evicts (fuel : nat) (s : ScopeId) (target : Provider)
    (source : DepId) (w : World) :
  s ∉ dom (stacks (w_state w)) ->
  s ∉ dom (cached_values (w_state w)) ->
  (run_op fuel (OpScope s [OpBind target source]) w).1 = Return tt /\
  binds (w_state (run_op fuel (OpScope s [OpBind target source]) w).2) =
    binds (w_state w) /\
  (forall s', cached (w_state (run_op fuel (OpScope s [OpBind target source]) w).2)
                s' target = None) /\
  (forall s' p, p <> target ->
     cached (w_state (run_op fuel (OpScope s [OpBind target source]) w).2) s' p =
       cached (w_state w) s' p).
Proof.
  intros Hs Hc.
  change (run_op fuel (OpScope s [OpBind target source]) w)
    with (enter_scope guard_exit (run_seq (run_op fuel) [OpBind target source]) s w).
  unfold enter_scope. rewrite decide_False by done. simpl.
  rewrite lookup_insert_eq. simpl. unfold aexit. simpl.
  split; [done|]. split; [done|].
  assert (Hlook : forall s',
    delete s (delete target <$> <[s:=∅]> (cached_values (w_state w))) !! s' =
    delete target <$> cached_values (w_state w) !! s').
  { intros s'. destruct (decide (s' = s)) as [->|Hne].
    - rewrite lookup_delete_eq. apply not_elem_of_dom in Hc. by rewrite Hc.
    - rewrite lookup_delete_ne by done. rewrite lookup_fmap.
      by rewrite lookup_insert_ne. }
  split.
  - intros s'. unfold cached. simpl. rewrite Hlook.
    destruct (cached_values (w_state w) !! s') as [bucket|]; simpl; [|done].
    apply lookup_delete_eq.
  - intros s' p Hne. unfold cached. simpl. rewrite Hlook.
    destruct (cached_values (w_state w) !! s') as [bucket|]; simpl; [|done].
    by apply lookup_delete_ne.
Qed.

(** X14: what the call of a Task is given.  When `result()` of a Task
    whose result is not set returns, the call was invoked with one keyword
    argument for each of the Task's dependencies, under the dependency's
    name and in the order of the dict, its value the result stored in that
    sub-task; and the value the call returned is the result stored in the
    Task. *)
Theorem call_receives_sub_results (fuel : nat) (tid : TaskId) (t : Task)
    (h h' : list Task) (w w' : World) (v : Value) :
  heap_wf h -> h !! tid = Some t -> t_result t = None ->
  task_result provider_call fuel tid h w = (Return v, (h', w')) ->
  exists values w2,
    Forall2 (fun kc kv => kc.1 = kv.1 /\
               exists sub, h' !! kc.2 = Some sub /\ t_result sub = Some kv.2)
      (t_dependencies t) values /\
    invoke provider_call (t_call t) values w2 = (Return v, w') /\
    exists t', h' !! tid = Some t' /\ t_result t' = Some v.
Proof.
  intros Hwf Ht Hr. destruct fuel as [|fuel]; simpl; [done|].
  unfold task_result_body. rewrite Ht, Hr.
  assert (Hdeps : Forall (fun kc => kc.2 < tid) (t_dependencies t)) by by eapply Hwf.
  assert (Hvals : Forall (fun c => c < tid) (dict_values (t_dependencies t))).
  { unfold dict_values. by apply Forall_fmap. }
  destruct (run_group _ _ h w) as [r1 [h1 w1]] eqn:Hg.
  destruct (run_group_ok provider_call _ (task_result_ok provider_call fuel)
              _ _ _ _ _ _ _ Hwf Hvals Hg) as [Hs1 Hf1].
  destruct r1 as [[]| |]; [|done|done]. simpl in Hs1.
  assert (Hwf1 : heap_wf h1) by by eapply steps_wf.
  destruct (collect_values _ _ h1 w1) as [r2 [h2 w2]] eqn:Hcv.
  destruct (collect_values_ok provider_call _ (task_result_ok provider_call fuel)
              _ _ _ _ _ _ _ Hwf1 Hdeps Hcv) as [Hs2 Hf2].
  destruct r2 as [values| |]; [|done|done].
  pose proof (collect_values_args provider_call _ (task_result_ok provider_call fuel)
                _ _ _ _ _ _ _ Hwf1 Hdeps Hcv) as Hargs.
  destruct (invoke provider_call (t_call t) values w2) as [r3 w3] eqn:Hinv.
  destruct r3 as [v3| |]; [|done|done]. intros [= <- <- <-].
  assert (Ht2 : h2 !! tid = Some t) by (rewrite Hf2, Hf1; done).
  exists values, w2. split; [|split; [done|]].
  - apply Forall2_same_length_lookup_2; [by eapply Forall2_length|].
    intros i kc kv Hkc Hkv.
    destruct (Forall2_lookup_lr _ _ _ _ _ _ Hargs Hkc Hkv)
      as (Hname & sub & Hsub & Hres).
    split; [done|]. exists sub. split; [|done].
    rewrite store_result_lookup, decide_False; [done|].
    apply list_elem_of_lookup_2 in Hkc.
    apply (proj1 (Forall_forall _ _) Hdeps) in Hkc. lia.
  - rewrite store_result_lookup, decide_True, Ht2 by done. simpl. eauto.
Qed.

(** X15: cycle detection misses no cycle.  With one description per
    provider and no bindings, a description that is among its own
    sub-dependants, directly or through other descriptions, is never
    built: `_build_task` returns no Task for it and `execute` returns no
    value; on a finite graph `execute` raises, before any provider is
    invoked and leaving the container as it was. *)
Theorem cyclic_description_is_rejected (N : nat) (d : DepId) (w : World) :
  binds (w_state w) = ∅ ->
  (forall d1 d2, call (G d1) = call (G d2) -> d1 = d2) ->
  tc (sub_dependant G) d d ->
  (forall fuel, is_return (build_task fuel (w_state w) d empty_locals) = false /\
                is_return (execute fuel d w).1 = false) /\
  (closed_below G N -> d < N ->
   exists e, forall fuel, N < fuel -> execute fuel d w = (Raise e, w)).
Proof.
  intros Hbinds Hinj Hcycle.
  assert (Hnever : forall fuel,
    is_return (build_task fuel (w_state w) d empty_locals) = false).
  { intros fuel.
    destruct (build_task fuel (w_state w) d empty_locals) as [[[b t] L]| |] eqn:Hb;
      [|done|done].
    apply build_task_built in Hb. exfalso. revert Hb.
    by apply cyclic_never_built. }
  split.
  - intros fuel. split; [done|]. specialize (Hnever fuel). unfold execute.
    by destruct (build_task fuel (w_state w) d empty_locals) as [[[b t] L]| |].
  - intros Hg Hd.
    assert (Hbelow : binds_below N (w_state w)).
    { intros p x Hx. by rewrite Hbinds, lookup_empty in Hx. }
    assert (Hcc : call_cache_below N empty_locals) by (intros p x Hx; done).
    pose proof (build_task_enough_fuel G is_async_context_manager is_context_manager
      is_async_gen_callable is_gen_callable is_coroutine_callable N (w_state w)
      Hg Hbelow (S N) d empty_locals Hd Hcc) as Hfuel.
    rewrite unseen_empty in Hfuel. specialize (Hfuel (Nat.lt_succ_diag_r N)).
    pose proof (Hnever (S N)) as Hnot.
    destruct (build_task (S N) (w_state w) d empty_locals) as [[[b t] L]|e|] eqn:Hb;
      [done| |done].
    exists e. intros fuel Hlt. unfold execute.
    rewrite (build_task_mono G is_async_context_manager is_context_manager
      is_async_gen_callable is_gen_callable is_coroutine_callable
      (w_state w) (S N) fuel d empty_locals (Raise e)); [done|lia|done|done].
Qed.

(** X16: a scope hands on the outcome of its body.  When no guard's exit
    swallows the exception or raises one of its own, the statement
    `async with enter_scope(s): body` returns when the body returns and
    raises the exception of the body when the body raises; the guards of
    the scope are exited in both cases. *)
Theorem scope_hands_on_outcome (fuel : nat) (s : ScopeId) (body : list Op)
    (w : World) :
  (forall g exc, guard_exit g exc = ExitFalse) ->
  s ∉ dom (stacks (w_state w)) ->
  (run_op fuel (OpScope s body) w).1 = (run_ops fuel body (enter_world s w)).1 /\
  w_log (run_op fuel (OpScope s body) w).2 =
    w_log (run_ops fuel body (enter_world s w)).2 ++
    match (run_ops fuel body (enter_world s w)).1 with
    | OutOfFuel => []
    | _ => EvExit s <$> reverse
             (default [] (stacks (w_state (run_ops fuel body (enter_world s w)).2) !! s))
    end.
Proof.
  intros Hinert Hs.
  change (run_op fuel (OpScope s body) w)
    with (enter_scope guard_exit (run_seq (run_op fuel) body) s w).
  unfold enter_scope. rewrite decide_False by done.
  change (run_seq (run_op fuel) body) with (run_ops fuel body).
  change {| w_state := {| binds := binds (w_state w);
                          cached_values := <[s:=∅]> (cached_values (w_state w));
                          stacks := <[s:=[]]> (stacks (w_state w));
                          scopes := scopes (w_state w) ++ [s] |};
            w_log := w_log w |} with (enter_world s w).
  destruct (run_ops fuel body (enter_world s w)) as [rb w2]. simpl.
  assert (Hfold : forall l es w0,
    foldl (exit_callback guard_exit s) (es, w0) l =
      (es, {| w_state := w_state w0; w_log := w_log w0 ++ (EvExit s <$> l) |})).
  { induction l as [|g l IH]; intros es w0; simpl.
    - rewrite app_nil_r. by destruct w0.
    - unfold exit_callback at 2. simpl. rewrite Hinert, IH. simpl.
      by rewrite <- app_assoc. }
  destruct rb as [[]|e|]; simpl.
  - unfold aexit. by rewrite Hfold.
  - unfold aexit. by rewrite Hfold.
  - by rewrite app_nil_r.
Qed.

End Extras.

Section LockFacts.
Import SingleFlight.
Variable outcome : nat -> Value + Exn.

Lemma sf_step_lock_held a σ σ' :
  (forall k, lock σ = Some k -> holds_lock (pc σ k)) ->
  step outcome a σ = Some σ' ->
  forall k, lock σ' = Some k -> holds_lock (pc σ' k).
Proof.
  intros HJ Hstep k.
  destruct a as [i|i|i|i|i e|i]; simpl in Hstep.
  - destruct (pc σ i) eqn:Hpc; try done. injection Hstep as <-. simpl.
    intros Hk. specialize (HJ k Hk). unfold set_pc. case_decide; subst; [|done].
    by rewrite Hpc in HJ.
  - destruct (pc σ i) eqn:Hpc; try done. destruct (lock σ) eqn:Hlock; try done.
    injection Hstep as <-. simpl. intros [= <-]. unfold set_pc.
    by rewrite decide_True.
  - destruct (pc σ i) eqn:Hpc; try done.
    destruct (result σ) as [v|]; injection Hstep as <-; simpl; [done|].
    intros Hk. specialize (HJ k Hk). unfold set_pc. by case_decide.
  - destruct (pc σ i) eqn:Hpc; try done. injection Hstep as <-. simpl.
    intros Hk. specialize (HJ k Hk). unfold set_pc. by case_decide.
  - destruct (pc σ i) eqn:Hpc; try done. by injection Hstep as <-.
  - destruct (pc σ i) eqn:Hpc; try done.
    destruct (outcome k0); by injection Hstep as <-.
Qed.

Lemma sf_run_lock_held sched σ σ' :
  (forall k, lock σ = Some k -> holds_lock (pc σ k)) ->
  run outcome sched σ = Some σ' ->
  forall k, lock σ' = Some k -> holds_lock (pc σ' k).
Proof.
  revert σ. induction sched as [|a sched IH]; simpl; intros σ HJ Hrun.
  - by injection Hrun as <-.
  - destruct (step outcome a σ) as [σ1|] eqn:Hstep; [|done].
    eapply IH; [|done]. by eapply sf_step_lock_held.
Qed.

(** X2: the lock of a Task.  Whatever the schedule of the callers of
    `result()`, at most one caller is between taking the lock and leaving
    `result()`, so the sub-tasks and the call of one Task are never run by
    two callers at once; the lock is held exactly while such a caller
    exists, so a caller that has left, with a value or with an exception,
    never keeps it; and at most one invocation of the call is unfinished. *)
Theorem result_lock_discipline (sched : list Action) (σ : State) :
  run outcome sched init = Some σ ->
  (forall i j, holds_lock (pc σ i) -> holds_lock (pc σ j) -> i = j) /\
  (forall i, lock σ = Some i <-> holds_lock (pc σ i)) /\
  (forall i r, pc σ i = Done r -> lock σ <> Some i) /\
  invoked σ <= returned σ + raised σ + 1.
Proof.
  intros Hrun. pose proof (sf_run_Inv _ _ _ _ (sf_Inv_init outcome) Hrun) as HI.
  assert (HJ : forall k, lock σ = Some k -> holds_lock (pc σ k)).
  { eapply sf_run_lock_held; [|exact Hrun]. by intros k. }
  split; [|split; [|split]].
  - intros i j Hi Hj. apply (inv_holder _ _ HI) in Hi, Hj. congruence.
  - intros i. split; [apply HJ|apply HI].
  - intros i r Hpc Hl. apply HJ in Hl. by rewrite Hpc in Hl.
  - pose proof (inv_count _ _ HI) as Hc. unfold in_flight in Hc.
    destruct (lock σ) as [i|]; [destruct (in_call (pc σ i))|]; lia.
Qed.

End LockFacts.

(* --------------------------------------------------------------------- *)
(* The properties on concrete runs                                       *)
(* --------------------------------------------------------------------- *)

Section Witnesses.
Import Example.

Lemma consistent_empty : consistent (w_state w0).
Proof. unfold consistent. simpl. by rewrite !dom_empty_L. Qed.

Lemma app_not_entered : "app" ∉ dom (stacks (w_state w0)).
Proof. simpl. rewrite dom_empty_L. set_solver. Qed.






(* The example graph is finite, so every program over its sixteen nodes
   has an outcome with a budget above sixteen. *)
Lemma example_closed_below : closed_below G 16.
Proof.
  intros d Hd.
  do 16 (destruct d as [|d]; [repeat constructor; simpl; lia|]). lia.
Qed.

Lemma example_binds_below : binds_below 16 (w_state w0).
Proof. intros p x Hx. simpl in Hx. by rewrite lookup_empty in Hx. Qed.

Lemma example_diamond_total :
  exists (r : Result unit) (w' : World), r <> OutOfFuel /\
    forall fuel, 16 < fuel ->
      Example.run_op fuel (OpScope "app" [OpExecute 6]) w0 = (r, w').
Proof.
  apply run_op_total; [apply example_closed_below|apply example_binds_below|].
  simpl. lia.
Qed.

Lemma scope_exit_unwinds_in_reverse_witness :
  Example.run_op 5 (OpScope "app" failing_body) w0 =
    (Raise (ProviderError 21),
     mkWorld empty_state
       [EvCall 20; EvEnter "app" (mkGuard 20 0);
        EvCall 30; EvEnter "app" (mkGuard 30 0);
        EvCall 30; EvEnter "app" (mkGuard 30 1);
        EvCall 21;
        EvExit "app" (mkGuard 30 1); EvExit "app" (mkGuard 30 0);
        EvExit "app" (mkGuard 20 0)]) /\
  exists rb w2 evs,
    Example.run_ops 5 failing_body (enter_world "app" w0) = (rb, w2) /\
    w_log w2 = w_log w0 ++ evs /\
    stacks (w_state w2) !! "app" = Some (entered "app" evs) /\
    exited "app" evs = [] /\
    w_log (Example.run_op 5 (OpScope "app" failing_body) w0).2 =
      w_log w0 ++ evs ++ (EvExit "app" <$> reverse (entered "app" evs)) /\
    exited "app" (evs ++ (EvExit "app" <$> reverse (entered "app" evs))) =
      reverse (entered "app" evs).
Proof.
  split; [by vm_compute|].
  apply (scope_exit_unwinds_in_reverse G is_acm never never never always
           provider_call guard_exit 5 "app" failing_body w0
           (Example.run_op 5 (OpScope "app" failing_body) w0).2
           (Example.run_op 5 (OpScope "app" failing_body) w0).1).
  - exact consistent_empty.
  - exact app_not_entered.
  - apply surjective_pairing.
  - by vm_compute.
Defined.

Lemma scope_exit_restores_witness :
  (Example.run_op 5 (OpScope "app" busy_body) w0).1 = Raise KeyError /\
  scopes (w_state (enter_world "app" w0)) = scopes (w_state w0) ++ ["app"] /\
  scopes (w_state (Example.run_op 5 (OpScope "app" busy_body) w0).2) = scopes (w_state w0) /\
  binds (w_state (Example.run_op 5 (OpScope "app" busy_body) w0).2) = binds (w_state w0) /\
  cached_values (w_state (Example.run_op 5 (OpScope "app" busy_body) w0).2) !! "app" = None /\
  stacks (w_state (Example.run_op 5 (OpScope "app" busy_body) w0).2) !! "app" = None /\
  dom (cached_values (w_state (Example.run_op 5 (OpScope "app" busy_body) w0).2)) =
    dom (cached_values (w_state w0)) /\
  dom (stacks (w_state (Example.run_op 5 (OpScope "app" busy_body) w0).2)) =
    dom (stacks (w_state w0)).
Proof.
  split; [by vm_compute|].
  apply (scope_exit_restores G is_acm never never never always
           provider_call guard_exit 5 "app" busy_body w0
           (Example.run_op 5 (OpScope "app" busy_body) w0).2
           (Example.run_op 5 (OpScope "app" busy_body) w0).1).
  - exact consistent_empty.
  - exact app_not_entered.
  - apply surjective_pairing.
Defined.

Lemma unscoped_needs_active_scope_witness :
  Example.build_task 1 empty_state 3 empty_locals = Raise IndexError /\
  (forall sc, check_scope empty_state sc = Return tt <-> sc = Unscoped \/
     exists s, sc = Named s /\ s ∈ dom (stacks empty_state)) /\
  (scopes empty_state = [] ->
     forall fuel, Example.build_task (S fuel) empty_state 3 empty_locals = Raise IndexError) /\
  (forall fuel b t L', Example.build_task fuel empty_state 3 empty_locals = Return (b, t, L') ->
     exists s task, last (scopes empty_state) = Some s /\ heap L' !! t = Some task /\
       t_call task = wrap_call is_acm never never never always
                       (call (G (apply_binds G empty_state 3))) s /\
       t_scope task = Unscoped).
Proof.
  split; [by vm_compute|].
  apply (unscoped_needs_active_scope G is_acm never never never always
           empty_state 3 empty_locals).
  - reflexivity.
  - reflexivity.
  - simpl. set_solver.
  - reflexivity.
Defined.




Lemma result_is_single_flight_witness :
  exists σ, SingleFlight.run returns_7 second_caller_waits SingleFlight.init = Some σ /\
    SingleFlight.invoked σ <= 1 /\
    SingleFlight.pc σ 0 = SingleFlight.Done (inl 7) /\
    SingleFlight.pc σ 1 = SingleFlight.Done (inl 7) /\
    SingleFlight.result σ = Some 7.
Proof.
  assert (H : exists σ, SingleFlight.run returns_7 second_caller_waits SingleFlight.init = Some σ /\
                SingleFlight.pc σ 0 = SingleFlight.Done (inl 7) /\
                SingleFlight.pc σ 1 = SingleFlight.Done (inl 7)).
  { eexists. split; [vm_compute; reflexivity|]. split; reflexivity. }
  destruct H as (σ & Hrun & Hpc0 & Hpc1). exists σ. split; [exact Hrun|].
  destruct (result_is_single_flight returns_7 second_caller_waits σ Hrun)
    as (_ & _ & Hone & Hval & _).
  split; [by apply Hone|]. split; [done|]. split; [done|]. by apply (Hval 0 7).
Defined.

(* The claim of C4 as it is written, refuted: when the call raises, the
   caller that takes the lock next invokes it again. *)
Lemma call_that_raises_is_invoked_again :
  ~ (forall (outcome : nat -> Value + Exn) (sched : list SingleFlight.Action)
       (σ : SingleFlight.State),
       SingleFlight.run outcome sched SingleFlight.init = Some σ ->
       SingleFlight.invoked σ <= 1).
Proof.
  intros H.
  assert (Hrun : exists σ,
    SingleFlight.run always_raises two_callers SingleFlight.init = Some σ /\
    SingleFlight.invoked σ = 2).
  { eexists. split; [vm_compute; reflexivity|reflexivity]. }
  destruct Hrun as (σ & Hrun & Hinv). apply H in Hrun. lia.
Qed.


(** C1: where the code departs from the claim.  Description 6 is a
    diamond, acyclic: it depends on 7 and on 8, and both depend on the one
    description 2, which depends on nothing.  With scope "app" entered,
    building it raises CircularDependencyError, and so does `execute`,
    whatever the recursion budget of the model from 5 on: the
    second branch reaches description 2 when it is in `seen`, which is
    never pruned and is tested before `task_cache`.  A description that
    depends on itself (9) raises the same error, as does any call on a
    description that has been seen; the same diamond with one description
    per use (11) is built and executed, its shared provider invoked
    once. *)
Theorem diamond_raises_circular_dependency :
  dependencies (G 6) = [("b", 7); ("c", 8)] /\
  dependencies (G 7) = [("d", 2)] /\
  dependencies (G 8) = [("d", 2)] /\
  dependencies (G 2) = [] /\
  (forall fuel, 5 <= fuel ->
     Example.build_task fuel app_state 6 empty_locals = Raise CircularDependencyError /\
     Example.execute fuel 6 w_app = (Raise CircularDependencyError, w_app)) /\
  Example.execute 5 9 w_app = (Raise CircularDependencyError, w_app) /\
  (forall fuel st d L, d ∈ seen L ->
     Example.build_task (S fuel) st d L = Raise CircularDependencyError) /\
  (Example.execute 5 11 w_app).1 = Return 214 /\
  w_log (Example.execute 5 11 w_app).2 = [EvCall 44; EvCall 42; EvCall 43; EvCall 41].
Proof.
  do 4 (split; [reflexivity|]).
  split; [|split; [by vm_compute|]].
  { intros fuel Hle. split.
    - eapply build_task_mono; [exact Hle|by vm_compute|done].
    - eapply execute_mono; [exact Hle|by vm_compute|done]. }
  split; [|split; by vm_compute].
  intros fuel st d L Hin. simpl. unfold build_task_body. by rewrite decide_True.
Qed.

End Witnesses.

Section ExtraWitnesses.
Import Example Example2.

Lemma get_flat_subdependants_reachable_witness :
  get_flat_subdependants G 8 6 = Return {[2; 7; 8]} /\
  get_flat_subdependants G 8 9 = Return ∅ /\
  exists S, get_flat_subdependants G 8 6 = Return S /\
    forall x, x ∈ S <-> x <> 6 /\ rtc (sub_dependant G) 6 x.
Proof.
  split; [by vm_compute|]. split; [by vm_compute|].
  apply (get_flat_subdependants_reachable G 16 6 8 example_closed_below).
  - lia.
  - vm_compute. lia.
Defined.

Lemma result_lock_discipline_witness :
  exists σ, SingleFlight.run always_raises two_callers SingleFlight.init = Some σ /\
    SingleFlight.lock σ = None /\
    (forall i j, SingleFlight.holds_lock (SingleFlight.pc σ i) ->
       SingleFlight.holds_lock (SingleFlight.pc σ j) -> i = j) /\
    (forall i, SingleFlight.lock σ = Some i <->
       SingleFlight.holds_lock (SingleFlight.pc σ i)).
Proof.
  assert (H : exists σ,
    SingleFlight.run always_raises two_callers SingleFlight.init = Some σ /\
    SingleFlight.lock σ = None).
  { eexists. split; [vm_compute; reflexivity|reflexivity]. }
  destruct H as (σ & Hrun & Hlock). exists σ. split; [exact Hrun|].
  split; [exact Hlock|].
  destruct (result_lock_discipline always_raises two_callers σ Hrun)
    as (Hexcl & Hheld & _).
  split; [exact Hexcl|exact Hheld].
Defined.

Lemma execute_needs_a_scope_witness :
  Example.execute 1 3 w0 = (Raise IndexError, w0) /\
  Example.execute 1 2 w0 = (Raise UnknownScopeError, w0) /\
  Example.execute 1 4 w0 = (Raise UnknownScopeError, w0).
Proof.
  split; [|split].
  - exact (execute_needs_a_scope G is_acm never never never always provider_call
             0 3 w0 eq_refl eq_refl).
  - exact (execute_needs_a_scope G is_acm never never never always provider_call
             0 2 w0 eq_refl eq_refl).
  - exact (execute_needs_a_scope G is_acm never never never always provider_call
             0 4 w0 eq_refl eq_refl).
Defined.

Lemma request_has_no_app : "app" ∉ dom (stacks (w_state w_request)).
Proof. simpl. rewrite dom_singleton_L. set_solver. Qed.

Lemma execute_unknown_scope_witness :
  Example.execute 1 2 w_request = (Raise UnknownScopeError, w_request).
Proof.
  exact (execute_unknown_scope G is_acm never never never always provider_call
           0 2 "app" w_request (Named "app") eq_refl eq_refl request_has_no_app).
Defined.

Lemma app_consistent : consistent (w_state w_app).
Proof. unfold consistent. simpl. by rewrite !dom_singleton_L. Qed.

Lemma app_entered : "app" ∈ dom (stacks (w_state w_app)).
Proof. simpl. rewrite dom_singleton_L. set_solver. Qed.

Lemma scope_reentry_raises_witness :
  (Example.run_ops 5 [OpExecute 2] w_app).1 = Return tt /\
  "app" ∈ dom (stacks (w_state (Example.run_ops 5 [OpExecute 2] w_app).2)) /\
  Example.run_op 5 (OpScope "app" [OpExecute 3])
    (Example.run_ops 5 [OpExecute 2] w_app).2 =
    (Raise DuplicateScopeError, (Example.run_ops 5 [OpExecute 2] w_app).2).
Proof.
  split; [by vm_compute|].
  exact (scope_reentry_raises G is_acm never never never always provider_call
           guard_exit 5 "app" [OpExecute 2] [OpExecute 3] w_app
           (Example.run_ops 5 [OpExecute 2] w_app).2
           (Example.run_ops 5 [OpExecute 2] w_app).1
           app_consistent app_entered (surjective_pairing _)).
Defined.

Lemma cache_lookup_innermost_first_witness :
  cached (w_state w_nested) "app" 12 = Some 5 /\
  cached (w_state w_nested) "request" 12 = Some 99 /\
  Example.execute 1 2 w_nested = (Return 99, w_nested).
Proof.
  split; [by vm_compute|]. split; [by vm_compute|].
  apply (cache_lookup_innermost_first G is_acm never never never always provider_call
           0 2 w_nested (Named "app") ["app"] [] "request" 99).
  - reflexivity.
  - reflexivity.
  - reflexivity.
  - discriminate.
  - by vm_compute.
  - reflexivity.
  - by vm_compute.
  - constructor.
Defined.

Lemma execute_bound_provider_witness :
  Example.execute 1 2 w_bound =
    (Return 13,
     mkWorld {| binds := {[12 := 3]}; cached_values := {["app" := {[13 := 13]}]};
                stacks := {["app" := []]}; scopes := ["app"] |} [EvCall 13]) /\
  (Example.execute 1 2 w_bound).1 = Return 13 /\
  cached (w_state (Example.execute 1 2 w_bound).2) "app" 13 = Some 13 /\
  calls_of 12 (w_log (Example.execute 1 2 w_bound).2) = 0.
Proof.
  split; [by vm_compute|].
  destruct (execute_bound_provider G is_acm never never never always provider_call
              0 2 3 w_bound (Named "app") Unscoped "app" 13)
    as (_ & Hother & Hstored & _); try reflexivity.
  destruct (Hstored "app" eq_refl) as [Hr Hc].
  { simpl. rewrite dom_singleton_L. set_solver. }
  split; [exact Hr|]. split; [exact Hc|].
  apply Hother. simpl. discriminate.
Defined.

Lemma only_scoped_44 (d' : DepId) : call (G d') = 44 -> scope (G d') <> Unscoped.
Proof.
  intros H.
  do 16 (destruct d' as [|d']; [by (try discriminate H)|]).
  simpl in H. lia.
Qed.

Lemma scoped_provider_once_per_execute_witness :
  Example.execute 5 11 w_app = (Return 214, (Example.execute 5 11 w_app).2) /\
  calls_of 44 (w_log (Example.execute 5 11 w_app).2) <= calls_of 44 (w_log w_app) + 1.
Proof.
  assert (H : Example.execute 5 11 w_app = (Return 214, (Example.execute 5 11 w_app).2)).
  { by vm_compute. }
  split; [exact H|].
  apply (scoped_provider_once_per_execute G is_acm never never never always
           provider_call 5 11 w_app _ 214 44 only_scoped_44).
  - intros q x Hx. simpl in Hx. by rewrite lookup_empty in Hx.
  - exact H.
Defined.

Lemma two_tasks_wf : heap_wf two_tasks.
Proof.
  intros tid t Ht.
  destruct tid as [|[|tid]]; simpl in Ht; [| |done]; injection Ht as <-; simpl.
  - constructor.
  - repeat constructor.
Qed.

Lemma result_is_memoized_witness :
  task_result provider_call 2 0 two_tasks w_app =
    (Return 11, ((task_result provider_call 2 0 two_tasks w_app).2.1,
                 (task_result provider_call 2 0 two_tasks w_app).2.2)) /\
  task_result provider_call 1 0
    (task_result provider_call 2 1
       (task_result provider_call 2 0 two_tasks w_app).2.1
       (task_result provider_call 2 0 two_tasks w_app).2.2).2.1
    (task_result provider_call 2 1
       (task_result provider_call 2 0 two_tasks w_app).2.1
       (task_result provider_call 2 0 two_tasks w_app).2.2).2.2 =
  (Return 11,
   ((task_result provider_call 2 1
       (task_result provider_call 2 0 two_tasks w_app).2.1
       (task_result provider_call 2 0 two_tasks w_app).2.2).2.1,
    (task_result provider_call 2 1
       (task_result provider_call 2 0 two_tasks w_app).2.1
       (task_result provider_call 2 0 two_tasks w_app).2.2).2.2)).
Proof.
  assert (H1 : task_result provider_call 2 0 two_tasks w_app =
    (Return 11, ((task_result provider_call 2 0 two_tasks w_app).2.1,
                 (task_result provider_call 2 0 two_tasks w_app).2.2))).
  { by vm_compute. }
  split; [exact H1|].
  apply (result_is_memoized provider_call 2 2 0 0 1 two_tasks _ _ w_app _ _ 11
           (task_result provider_call 2 1
              (task_result provider_call 2 0 two_tasks w_app).2.1
              (task_result provider_call 2 0 two_tasks w_app).2.2).1
           two_tasks_wf H1).
  by vm_compute.
Defined.

Lemma example_app_binds_below : binds_below 16 (w_state w_app).
Proof. intros p x Hx. simpl in Hx. by rewrite lookup_empty in Hx. Qed.

Lemma execute_returns_or_raises_witness :
  exists (r : Result Value) (w' : World), r <> OutOfFuel /\
    forall fuel, 16 < fuel -> Example.execute fuel 6 w_app = (r, w').
Proof.
  apply (execute_returns_or_raises G is_acm never never never always provider_call
           16 6 w_app example_closed_below example_app_binds_below).
  lia.
Defined.

Lemma bind_in_scope_evicts_witness :
  (Example.run_op 1 (OpScope "request" [OpBind 12 3]) w_nested).1 =
    Raise DuplicateScopeError /\
  (Example.run_op 1 (OpScope "job" [OpBind 12 3]) w_nested).1 = Return tt /\
  binds (w_state (Example.run_op 1 (OpScope "job" [OpBind 12 3]) w_nested).2) =
    binds (w_state w_nested) /\
  (forall s', cached (w_state (Example.run_op 1 (OpScope "job" [OpBind 12 3])
                                 w_nested).2) s' 12 = None) /\
  (forall s' p, p <> 12 ->
     cached (w_state (Example.run_op 1 (OpScope "job" [OpBind 12 3]) w_nested).2) s' p =
       cached (w_state w_nested) s' p).
Proof.
  split; [by vm_compute|].
  apply (bind_in_scope_evicts G is_acm never never never always provider_call
           guard_exit 1 "job" 12 3 w_nested).
  - simpl. rewrite dom_insert_L, dom_singleton_L. set_solver.
  - simpl. rewrite dom_insert_L, dom_singleton_L. set_solver.
Defined.

Lemma call_receives_sub_results_witness :
  task_result provider_call 2 1 two_tasks w_app =
    (Return 21, ((task_result provider_call 2 1 two_tasks w_app).2.1,
                 (task_result provider_call 2 1 two_tasks w_app).2.2)) /\
  exists values w2,
    Forall2 (fun kc kv => kc.1 = kv.1 /\
               exists sub, (task_result provider_call 2 1 two_tasks w_app).2.1 !! kc.2
                             = Some sub /\ t_result sub = Some kv.2)
      [("u", 0)] values /\
    invoke provider_call (Direct 10) values w2 =
      (Return 21, (task_result provider_call 2 1 two_tasks w_app).2.2) /\
    exists t', (task_result provider_call 2 1 two_tasks w_app).2.1 !! 1 = Some t' /\
               t_result t' = Some 21.
Proof.
  assert (H1 : task_result provider_call 2 1 two_tasks w_app =
    (Return 21, ((task_result provider_call 2 1 two_tasks w_app).2.1,
                 (task_result provider_call 2 1 two_tasks w_app).2.2))).
  { by vm_compute. }
  split; [exact H1|].
  exact (call_receives_sub_results provider_call 2 1
           (mkTask 0 (Named "app") (Direct 10) [("u", 0)] None) two_tasks _ w_app _ 21
           two_tasks_wf eq_refl eq_refl H1).
Defined.

Lemma ring_closed_below : closed_below ring 3.
Proof.
  intros d Hd. do 3 (destruct d as [|d]; [repeat constructor; simpl; lia|]). lia.
Qed.

Lemma ring_cycle : tc (sub_dependant ring) 0 0.
Proof.
  apply (tc_l _ 0 1 0); [by left|].
  apply (tc_l _ 1 2 0); [by left|].
  apply tc_once. by left.
Qed.

Lemma cyclic_description_is_rejected_witness :
  ring_execute 4 0 w_app = (Raise CircularDependencyError, w_app) /\
  (forall fuel,
     is_return (ring_build_task fuel (w_state w_app) 0 empty_locals) = false /\
     is_return (ring_execute fuel 0 w_app).1 = false) /\
  (exists e, forall fuel, 3 < fuel -> ring_execute fuel 0 w_app = (Raise e, w_app)).
Proof.
  split; [by vm_compute|].
  destruct (cyclic_description_is_rejected ring is_acm never never never always
              provider_call 3 0 w_app eq_refl (fun d1 d2 H => H) ring_cycle)
    as [Hnever Hraises].
  split; [exact Hnever|]. apply Hraises; [exact ring_closed_below|lia].
Defined.

Lemma scope_hands_on_outcome_witness :
  (Example.run_op 5 (OpScope "app" failing_body) w0).1 = Raise (ProviderError 21) /\
  (Example.run_op 5 (OpScope "app" failing_body) w0).1 =
    (Example.run_ops 5 failing_body (enter_world "app" w0)).1.
Proof.
  split; [by vm_compute|].
  apply (scope_hands_on_outcome G is_acm never never never always provider_call
           guard_exit 5 "app" failing_body w0).
  - reflexivity.
  - exact app_not_entered.
Defined.

End ExtraWitnesses.
